(** * A shallow embedding of the chess rules engine of realistic-3d-chess

    The model follows the last (undo-capable) version of [chessLogic.js]:
    the module-level variables become the fields of [state]; the four of
    them that [makeMove] snapshots onto [gameStateHistory] are grouped in
    [position].  Functions that only read the board take the position
    explicitly instead of reading the global [boardState]; the board swap
    of [getValidMovesForPiece] becomes passing the scratch board.

    Conventions of the model:
    - the 8x8 array [boardState] is a list of 8 rows of 8 cells
      ([list (list (option piece))]), read and written with stdpp's
      list lookup and insert;
    - piece kinds are the strings of [PIECE_TYPES], since [makeMove]
      stores the caller's promotion string in the [type] field;
    - JS stacks ([moveHistory], [gameStateHistory]) are lists with the
      newest entry at the head: [push] is [cons], [pop] is [tail];
      the captured-piece arrays keep the JS order (push at the end);
    - a thrown [TypeError] is the [Throw] outcome, carrying the module
      state as the throw leaves it (the globals stay mutated);
    - the recursion of [minimax] carries a fuel bound standing for the
      JS call stack: [OutOfFuel] is a call that does not finish. *)

From Stdlib Require Import ZArith String Ascii Bool List Lia.
From stdpp Require Import base list.
From Stdlib Require Import QArith Qround.
Import ListNotations.
Open Scope Z_scope.

(** ** Constants *)

Definition PAWN := "pawn"%string.
Definition ROOK := "rook"%string.
Definition KNIGHT := "knight"%string.
Definition BISHOP := "bishop"%string.
Definition QUEEN := "queen"%string.
Definition KING := "king"%string.

Inductive color := WHITE | BLACK.

Definition color_eqb (a b : color) : bool :=
  match a, b with
  | WHITE, WHITE | BLACK, BLACK => true
  | _, _ => false
  end.

Definition opponent (c : color) : color :=
  match c with WHITE => BLACK | BLACK => WHITE end.

(** A board cell: [{type, color, hasMoved}]. *)
Record piece := mkPiece { ptype : string; pcolor : color; hasMoved : bool }.

Abbreviation board := (list (list (option piece))).

Record rights := mkRights { kingSide : bool; queenSide : bool }.

(** [castlingRights]: an object with one entry per colour. *)
Record castling := mkCastling { crWhite : rights; crBlack : rights }.

Definition rights_of (cr : castling) (c : color) : rights :=
  match c with WHITE => crWhite cr | BLACK => crBlack cr end.

Definition set_rights (cr : castling) (c : color) (r : rights) : castling :=
  match c with
  | WHITE => mkCastling r (crBlack cr)
  | BLACK => mkCastling (crWhite cr) r
  end.

(** The part of the state that [makeMove] copies onto [gameStateHistory]:
    [{boardState, currentPlayer, castlingRights, enPassantTargetSquare}]. *)
Record position := mkPosition {
  boardState : board;
  currentPlayer : color;
  castlingRights : castling;
  enPassantTargetSquare : option (Z * Z)
}.

(** ** Board access *)

Definition isWithinBoard (row col : Z) : bool :=
  (0 <=? row) && (row <? 8) && (0 <=? col) && (col <? 8).

(** [boardState[row][col]] guarded by [isWithinBoard], as [getPieceAt]. *)
Definition getPieceAt (b : board) (row col : Z) : option piece :=
  if isWithinBoard row col then
    match b !! Z.to_nat row with
    | Some r => match r !! Z.to_nat col with Some cell => cell | None => None end
    | None => None
    end
  else None.

(** JS truthiness of a cell or an optional value: [null]/[undefined] is falsy. *)
Definition isPresent {A} (o : option A) : bool :=
  match o with Some _ => true | None => false end.

(** [boardState[row][col] = cell]. *)
Definition setPiece (b : board) (row col : Z) (cell : option piece) : board :=
  alter (fun r => <[Z.to_nat col := cell]> r) (Z.to_nat row) b.

(** The board is the 8x8 array built by [initializeGame]. *)
Definition board_wf (b : board) : Prop :=
  length b = 8%nat /\ Forall (fun r => length r = 8%nat) b.

(** ** Moves *)

Inductive castleSide := KingSide | QueenSide.

(** A pseudo-legal move [{row, col, isCapture, ...options}]; absent
    options are [undefined], i.e. [None] or [false]. *)
Record move := mkMove {
  row : Z; col : Z; isCapture : bool;
  promotion : option string;
  isDoublePawnPush : bool;
  isEnPassant : bool;
  isCastling : option castleSide
}.

Record moveOptions := mkOptions {
  oPromotion : option string;
  oDoublePawnPush : bool;
  oEnPassant : bool;
  oCastling : option castleSide
}.

Definition noOptions := mkOptions None false false None.

(** The row-major scan [for r in 0..7, for c in 0..7]. *)
Definition squares : list (Z * Z) :=
  flat_map (fun r => map (fun c => (r, c)) [0;1;2;3;4;5;6;7]) [0;1;2;3;4;5;6;7].

(** ** Attack oracle: [generateAttackMovesIgnoringTurn] and [isSquareAttacked] *)

(** The loop [for (let i = 1; ; i++)] of a ray; it leaves the board after
    at most 8 steps, which the fuel [n = 8] covers. *)
Fixpoint slideAttacks (b : board) (sr sc dr dc i : Z) (n : nat) : list (Z * Z) :=
  match n with
  | O => []
  | S n' =>
    let er := sr + i * dr in
    let ec := sc + i * dc in
    if negb (isWithinBoard er ec) then []
    else (er, ec) :: (if getPieceAt b er ec then [] else slideAttacks b sr sc dr dc (i + 1) n')
  end.

Definition addSlidingAttacks (b : board) (sr sc : Z) (dirs : list (Z * Z)) : list (Z * Z) :=
  flat_map (fun d => slideAttacks b sr sc (fst d) (snd d) 1 8) dirs.

Definition addAttackIfValid (er ec : Z) : list (Z * Z) :=
  if isWithinBoard er ec then [(er, ec)] else [].

Definition knightOffsets : list (Z * Z) :=
  [(-2, -1); (-2, 1); (-1, -2); (-1, 2); (1, -2); (1, 2); (2, -1); (2, 1)].
Definition kingOffsets : list (Z * Z) :=
  [(-1, -1); (-1, 0); (-1, 1); (0, -1); (0, 1); (1, -1); (1, 0); (1, 1)].
Definition bishopDirs : list (Z * Z) := [(-1, -1); (-1, 1); (1, -1); (1, 1)].
Definition rookDirs : list (Z * Z) := [(-1, 0); (1, 0); (0, -1); (0, 1)].
Definition queenDirs : list (Z * Z) := bishopDirs ++ rookDirs.

Definition generateAttackMovesIgnoringTurn (b : board) (sr sc : Z) : list (Z * Z) :=
  match getPieceAt b sr sc with
  | None => []
  | Some p =>
    let t := ptype p in
    if String.eqb t PAWN then
      let dir := if color_eqb (pcolor p) WHITE then -1 else 1 in
      addAttackIfValid (sr + dir) (sc - 1) ++ addAttackIfValid (sr + dir) (sc + 1)
    else if String.eqb t KNIGHT then
      flat_map (fun d => addAttackIfValid (sr + fst d) (sc + snd d)) knightOffsets
    else if String.eqb t BISHOP then addSlidingAttacks b sr sc bishopDirs
    else if String.eqb t ROOK then addSlidingAttacks b sr sc rookDirs
    else if String.eqb t QUEEN then addSlidingAttacks b sr sc queenDirs
    else if String.eqb t KING then
      flat_map (fun d => addAttackIfValid (sr + fst d) (sc + snd d)) kingOffsets
    else []
  end.

Definition isSquareAttacked (b : board) (tr tc : Z) (attacker : color) : bool :=
  existsb (fun sq =>
    match getPieceAt b (fst sq) (snd sq) with
    | Some p =>
      color_eqb (pcolor p) attacker &&
      existsb (fun m => (fst m =? tr) && (snd m =? tc))
              (generateAttackMovesIgnoringTurn b (fst sq) (snd sq))
    | None => false
    end) squares.

(** [findKing]: the first king of that colour in row-major order. *)
Definition findKing (b : board) (kingColor : color) : option (Z * Z) :=
  find (fun sq =>
    match getPieceAt b (fst sq) (snd sq) with
    | Some p => String.eqb (ptype p) KING && color_eqb (pcolor p) kingColor
    | None => false
    end) squares.

(** [isKingInCheck]: no king found counts as not in check. *)
Definition isKingInCheck (b : board) (playerColor : color) : bool :=
  match findKing b playerColor with
  | None => false
  | Some k => isSquareAttacked b (fst k) (snd k) (opponent playerColor)
  end.

(** ** Pseudo-legal move generation: [generatePseudoLegalMoves] *)

Definition mkMoveOpts (er ec : Z) (capture : bool) (o : moveOptions) : move :=
  mkMove er ec capture (oPromotion o) (oDoublePawnPush o) (oEnPassant o) (oCastling o).

(** [addMove]: on the board and not onto a piece of the mover's colour. *)
Definition addMove (b : board) (c : color) (er ec : Z) (o : moveOptions) : list move :=
  if negb (isWithinBoard er ec) then []
  else match getPieceAt b er ec with
       | Some t => if color_eqb (pcolor t) c then [] else [mkMoveOpts er ec true o]
       | None => [mkMoveOpts er ec false o]
       end.

Fixpoint slideMoves (b : board) (c : color) (sr sc dr dc i : Z) (n : nat) : list move :=
  match n with
  | O => []
  | S n' =>
    let er := sr + i * dr in
    let ec := sc + i * dc in
    if negb (isWithinBoard er ec) then []
    else match getPieceAt b er ec with
         | Some t => if color_eqb (pcolor t) (opponent c) then addMove b c er ec noOptions else []
         | None => addMove b c er ec noOptions ++ slideMoves b c sr sc dr dc (i + 1) n'
         end
  end.

Definition addSlidingMoves (b : board) (c : color) (sr sc : Z) (dirs : list (Z * Z)) : list move :=
  flat_map (fun d => slideMoves b c sr sc (fst d) (snd d) 1 8) dirs.

Definition promotionKinds : list string := [QUEEN; ROOK; BISHOP; KNIGHT].

(** [['queen','rook','bishop','knight'].forEach(p => addMove(.., {promotion: p}))] *)
Definition addPromotions (b : board) (c : color) (er ec : Z) : list move :=
  flat_map (fun k => addMove b c er ec (mkOptions (Some k) false false None)) promotionKinds.

Definition pawnMoves (p : position) (c : color) (sr sc : Z) : list move :=
  let b := boardState p in
  let direction := if color_eqb c WHITE then -1 else 1 in
  let startRank := if color_eqb c WHITE then 6 else 1 in
  let promotionRank := if color_eqb c WHITE then 0 else 7 in
  let er := sr + direction in
  let forward :=
    if isWithinBoard er sc && negb (isPresent (getPieceAt b er sc)) then
      (if er =? promotionRank then addPromotions b c er sc else addMove b c er sc noOptions)
      ++ (if sr =? startRank then
            let er2 := sr + 2 * direction in
            if isWithinBoard er2 sc && negb (isPresent (getPieceAt b er2 sc))
            then addMove b c er2 sc (mkOptions None true false None) else []
          else [])
    else [] in
  let diagonal :=
    flat_map (fun dc =>
      let ec := sc + dc in
      if isWithinBoard er ec then
        (match getPieceAt b er ec with
         | Some t => if color_eqb (pcolor t) (opponent c) then
                       (if er =? promotionRank then addPromotions b c er ec
                        else addMove b c er ec noOptions)
                     else []
         | None => []
         end)
        ++ (match enPassantTargetSquare p with
            | Some ep => if (er =? fst ep) && (ec =? snd ep)
                         then addMove b c er ec (mkOptions None false true None) else []
            | None => []
            end)
      else []) [-1; 1] in
  forward ++ diagonal.

(** The castling part of the king case. *)
Definition castlingMoves (p : position) (k : piece) (sr sc : Z) : list move :=
  let b := boardState p in
  let c := pcolor k in
  let opp := opponent c in
  if negb (hasMoved k) && negb (isSquareAttacked b sr sc opp) then
    (if kingSide (rights_of (castlingRights p) c) then
       match getPieceAt b sr 7 with
       | Some rook =>
         if String.eqb (ptype rook) ROOK && negb (hasMoved rook)
            && negb (isPresent (getPieceAt b sr 5)) && negb (isPresent (getPieceAt b sr 6))
            && negb (isSquareAttacked b sr 5 opp) && negb (isSquareAttacked b sr 6 opp)
         then addMove b c sr 6 (mkOptions None false false (Some KingSide)) else []
       | None => []
       end
     else [])
    ++
    (if queenSide (rights_of (castlingRights p) c) then
       match getPieceAt b sr 0 with
       | Some rook =>
         if String.eqb (ptype rook) ROOK && negb (hasMoved rook)
            && negb (isPresent (getPieceAt b sr 1)) && negb (isPresent (getPieceAt b sr 2))
            && negb (isPresent (getPieceAt b sr 3))
            && negb (isSquareAttacked b sr 2 opp) && negb (isSquareAttacked b sr 3 opp)
         then addMove b c sr 2 (mkOptions None false false (Some QueenSide)) else []
       | None => []
       end
     else [])
  else [].

Definition generatePseudoLegalMoves (p : position) (sr sc : Z) : list move :=
  let b := boardState p in
  match getPieceAt b sr sc with
  | None => []
  | Some pc =>
    let c := pcolor pc in
    let t := ptype pc in
    if String.eqb t PAWN then pawnMoves p c sr sc
    else if String.eqb t KNIGHT then
      flat_map (fun d => addMove b c (sr + fst d) (sc + snd d) noOptions) knightOffsets
    else if String.eqb t BISHOP then addSlidingMoves b c sr sc bishopDirs
    else if String.eqb t ROOK then addSlidingMoves b c sr sc rookDirs
    else if String.eqb t QUEEN then addSlidingMoves b c sr sc queenDirs
    else if String.eqb t KING then
      flat_map (fun d => addMove b c (sr + fst d) (sc + snd d) noOptions) kingOffsets
      ++ castlingMoves p pc sr sc
    else []
  end.

(** ** Legality filter *)

(** The scratch board of [getValidMovesForPiece] for one move. *)
Definition simulateMove (b : board) (sr sc : Z) (tempPiece : piece) (m : move) : board :=
  let t1 := setPiece (setPiece b (row m) (col m) (Some tempPiece)) sr sc None in
  let t2 := if isEnPassant m then
              (if isWithinBoard sr (col m) then setPiece t1 sr (col m) None else t1)
            else t1 in
  match isCastling m with
  | Some side =>
    let rookStartCol := match side with KingSide => 7 | QueenSide => 0 end in
    let rookEndCol := match side with KingSide => 5 | QueenSide => 3 end in
    match getPieceAt t2 sr rookStartCol with
    | Some tempRook => setPiece (setPiece t2 sr rookEndCol (Some tempRook)) sr rookStartCol None
    | None => t2
    end
  | None => t2
  end.

Definition getValidMovesForPiece (p : position) (sr sc : Z) : list move :=
  match getPieceAt (boardState p) sr sc with
  | None => []
  | Some pc =>
    if negb (color_eqb (pcolor pc) (currentPlayer p)) then []
    else List.filter (fun m => negb (isKingInCheck (simulateMove (boardState p) sr sc pc m)
                                              (currentPlayer p)))
                (generatePseudoLegalMoves p sr sc)
  end.

(** An entry of [getAllLegalMovesForCurrentPlayer]:
    [{startRow, startCol, endRow, endCol, ...move}]. *)
Record legalMove := mkLegal { startRow : Z; startCol : Z; lmove : move }.

Definition getAllLegalMovesForCurrentPlayer (p : position) : list legalMove :=
  flat_map (fun sq =>
    match getPieceAt (boardState p) (fst sq) (snd sq) with
    | Some pc =>
      if color_eqb (pcolor pc) (currentPlayer p)
      then map (mkLegal (fst sq) (snd sq)) (getValidMovesForPiece p (fst sq) (snd sq))
      else []
    | None => []
    end) squares.

(** ** Game state *)

Inductive winnerT := WinColor (c : color) | Draw.

Record status := mkStatus {
  isCheck : bool; isCheckmate : bool; isStalemate : bool; winner : option winnerT
}.

(** A captured-piece entry: [makeMove] pushes a copy [{type, color, hasMoved}]
    of the board piece, [undoMove] rebuilds entries [{type, color}]. *)
Record capEntry := mkCap { ctype : string; ccolor : color; chasMoved : option bool }.

(** [capturedPieces]: the pieces captured BY each colour (as [makeMove]
    fills it: [capturedPieces[previousState.currentPlayer].push(..)]). *)
Record captured := mkCaptured { capWhite : list capEntry; capBlack : list capEntry }.

Definition pushCaptured (cp : captured) (c : color) (e : capEntry) : captured :=
  match c with
  | WHITE => mkCaptured (capWhite cp ++ [e]) (capBlack cp)
  | BLACK => mkCaptured (capWhite cp) (capBlack cp ++ [e])
  end.

Record state := mkState {
  pos : position;
  moveHistory : list string;        (* newest first *)
  capturedPieces : captured;
  gameStatus : status;
  gameStateHistory : list position  (* newest first *)
}.

(** Result of a call that may throw. *)
Inductive outcome (A : Type) :=
| Ret (a : A) (s : state)
| Throw (s : state)
| OutOfFuel.
Arguments Ret {A} a s.
Arguments Throw {A} s.
Arguments OutOfFuel {A}.

(** ** Status evaluator: [updateGameStatus] (mutates the status object in place) *)

Definition updateGameStatus (st : status) (p : position) : status :=
  let cur := currentPlayer p in
  let check := isKingInCheck (boardState p) cur in
  let hasLegalMoves := negb (Nat.eqb (length (getAllLegalMovesForCurrentPlayer p)) 0) in
  if check && negb hasLegalMoves then
    mkStatus check true (isStalemate st) (Some (WinColor (opponent cur)))
  else if negb check && negb hasLegalMoves then
    mkStatus check (isCheckmate st) true (Some Draw)
  else mkStatus check false false None.

(** ** Material evaluation: [evaluateBoardMaterial] *)

(** [pieceValues[piece.type] || 0] (own keys of [pieceValues]). *)
Definition pieceValue (t : string) : Z :=
  if String.eqb t PAWN then 1
  else if String.eqb t KNIGHT then 3
  else if String.eqb t BISHOP then 3
  else if String.eqb t ROOK then 5
  else if String.eqb t QUEEN then 9
  else 0.

Definition evaluateBoardMaterial (b : board) : Z :=
  fold_left (fun total sq =>
    match getPieceAt b (fst sq) (snd sq) with
    | Some p => if color_eqb (pcolor p) WHITE then total + pieceValue (ptype p)
                else total - pieceValue (ptype p)
    | None => total
    end) squares 0.

(** ** Notation generator: [generateAlgebraicNotation] *)

(** [pieceSymbols[t]]: [None] is [undefined]. *)
Definition pieceSymbols (t : string) : option string :=
  if String.eqb t PAWN then Some ""%string
  else if String.eqb t ROOK then Some "R"%string
  else if String.eqb t KNIGHT then Some "N"%string
  else if String.eqb t BISHOP then Some "B"%string
  else if String.eqb t QUEEN then Some "Q"%string
  else if String.eqb t KING then Some "K"%string
  else None.

(** String conversion of a JS value that may be [undefined]. *)
Definition jsString (o : option string) : string :=
  match o with Some s => s | None => "undefined"%string end.

(** [s[i]]. *)
Definition charAt (s : string) (i : Z) : string :=
  match String.get (Z.to_nat i) s with
  | Some ch => String ch EmptyString
  | None => "undefined"%string
  end.

(** JS truthiness of an optional string argument. *)
Definition truthyStr (o : option string) : bool :=
  match o with Some s => negb (String.eqb s ""%string) | None => false end.

(** [a || b] on optional strings. *)
Definition orStr (a b : option string) : option string :=
  if truthyStr a then a else b.

(** [None] is the [TypeError] of [pieceSymbols[promotionType].toUpperCase()]
    when [promotionType] is not one of the six keys (every inherited
    property of [Object.prototype] also lacks [toUpperCase]).  The symbols
    are upper case already, so [toUpperCase] is the identity on them. *)
Definition generateAlgebraicNotation (pc : piece) (sr sc er ec : Z)
    (capturedPiece : option piece) (castlingType : option castleSide)
    (promotionType : option string) (check checkmate : bool) : option string :=
  match castlingType with
  | Some KingSide =>
    Some (if checkmate then "O-O#" else if check then "O-O+" else "O-O")%string
  | Some QueenSide =>
    Some (if checkmate then "O-O-O#" else if check then "O-O-O+" else "O-O-O")%string
  | None =>
    let files := "abcdefgh"%string in
    let ranks := "87654321"%string in
    let isPawn := String.eqb (ptype pc) PAWN in
    let pieceSymbol := if isPawn && negb (isPresent capturedPiece) then ""%string
                       else jsString (pieceSymbols (ptype pc)) in
    let n1 := if isPawn && isPresent capturedPiece then charAt files sc
              else if negb isPawn then pieceSymbol else ""%string in
    let n2 := (n1 ++ (if isPresent capturedPiece then "x" else "")
                  ++ charAt files ec ++ charAt ranks er)%string in
    let n3 := if truthyStr promotionType then
                match pieceSymbols (jsString promotionType) with
                | Some sym => Some (n2 ++ "=" ++ sym)%string
                | None => None
                end
              else Some n2 in
    match n3 with
    | Some n => Some (n ++ (if checkmate then "#" else if check then "+" else ""))%string
    | None => None
    end
  end.

(** ** Move executor: [makeMove] *)

Record moveResult := mkResult {
  success : bool; resCaptured : option piece; moveNotation : string
}.

Definition failResult := mkResult false None ""%string.

(** The promotion kind after the two coercions at the top of [makeMove]. *)
Definition coercePromotion (pieceToMove : piece) (cur : color) (er : Z)
    (md : move) (promotionPieceType : option string) : option string :=
  let promotionRank := if color_eqb cur WHITE then 0 else 7 in
  let promo1 :=
    if String.eqb (ptype pieceToMove) PAWN && (er =? promotionRank) then
      (if negb (truthyStr promotionPieceType) then Some QUEEN
       else match promotionPieceType with
            | Some k => if existsb (String.eqb k) [QUEEN; ROOK; BISHOP; KNIGHT]
                        then Some k else Some QUEEN
            | None => Some QUEEN
            end)
    else promotionPieceType in
  if truthyStr (promotion md) && negb (truthyStr promo1) then promotion md else promo1.

(** [boardState[r][c].type = t]; [None] is the [TypeError] on a [null] cell. *)
Definition setTypeAt (b : board) (r c : Z) (t : string) : option board :=
  match getPieceAt b r c with
  | Some pc => Some (setPiece b r c (Some (mkPiece t (pcolor pc) (hasMoved pc))))
  | None => None
  end.

(** [if (moveDetails.promotion || promotionPieceType)] ... the assignment. *)
Definition applyPromotion (applied : bool) (b : board) (er ec : Z) (t : string) : option board :=
  if applied then setTypeAt b er ec t else Some b.

(** Castling rights after the move (the mover's own rights). *)
Definition updateOwnRights (cr : castling) (cur : color) (movingType : string)
    (sr sc : Z) : castling :=
  if String.eqb movingType KING then set_rights cr cur (mkRights false false)
  else if String.eqb movingType ROOK then
    let homeRank := if color_eqb cur WHITE then 7 else 0 in
    if sr =? homeRank then
      let r0 := rights_of cr cur in
      let r1 := if sc =? 0 then mkRights (kingSide r0) false else r0 in
      let r2 := if sc =? 7 then mkRights false (queenSide r1) else r1 in
      set_rights cr cur r2
    else cr
  else cr.

(** ... and the opponent's rights when one of its rooks is captured at home. *)
Definition updateCapturedRights (cr : castling) (cur : color)
    (capturedPiece : option piece) (er ec : Z) : castling :=
  match capturedPiece with
  | Some cp =>
    if String.eqb (ptype cp) ROOK then
      let opp := opponent cur in
      let oppHomeRank := if color_eqb opp WHITE then 7 else 0 in
      if er =? oppHomeRank then
        let r0 := rights_of cr opp in
        let r1 := if ec =? 0 then mkRights (kingSide r0) false else r0 in
        let r2 := if ec =? 7 then mkRights false (queenSide r1) else r1 in
        set_rights cr opp r2
      else cr
    else cr
  | None => cr
  end.

Definition capEntryOf (p : piece) : capEntry :=
  mkCap (ptype p) (pcolor p) (Some (hasMoved p)).

(** The captured piece: [boardState[endRow][endCol]], or for en passant
    the pawn at [boardState[startRow][endCol]]. *)
Definition capturedOf (b : board) (sr er ec : Z) (md : move) : option piece :=
  if isEnPassant md then getPieceAt b sr ec else getPieceAt b er ec.

(** The board writes of [makeMove] before the promotion: en-passant
    removal, the moved piece ([hasMoved = true]) and the castling rook. *)
Definition execBoard (b : board) (sr sc er ec : Z) (pieceToMove : piece) (md : move) : board :=
  let b1 := if isEnPassant md then setPiece b sr ec None else b in
  let moving := mkPiece (ptype pieceToMove) (pcolor pieceToMove) true in
  let b2 := setPiece (setPiece b1 er ec (Some moving)) sr sc None in
  match isCastling md with
  | Some side =>
    let rookStartCol := match side with KingSide => 7 | QueenSide => 0 end in
    let rookEndCol := match side with KingSide => 5 | QueenSide => 3 end in
    match getPieceAt b2 sr rookStartCol with
    | Some rook =>
      if String.eqb (ptype rook) ROOK then
        setPiece (setPiece b2 sr rookEndCol (Some (mkPiece (ptype rook) (pcolor rook) true)))
                 sr rookStartCol None
      else b2
    | None => b2
    end
  | None => b2
  end.

(** Everything after [gameStateHistory.push(previousState)], for the move
    [md] found among the legal moves.  [movingPieceCopy] is the object
    stored at [boardState[endRow][endCol]]: the castling branch writes
    only the rook's squares (columns 7/5 or 0/3), never the king's target
    (column 6 or 2), so the promotion assignment through the board also
    sets [movingPieceCopy.type]. *)
Definition executeMove (s : state) (sr sc er ec : Z) (pieceToMove : piece) (md : move)
    (promotionPieceType : option string) : outcome moveResult :=
  let p := pos s in
  let b := boardState p in
  let cur := currentPlayer p in
  let promo := coercePromotion pieceToMove cur er md promotionPieceType in
  let hist := p :: gameStateHistory s in
  let capturedPiece := capturedOf b sr er ec md in
  let caps := match capturedPiece with
              | Some cp => pushCaptured (capturedPieces s) cur (capEntryOf cp)
              | None => capturedPieces s
              end in
  let b3 := execBoard b sr sc er ec pieceToMove md in
  let promoApplied := truthyStr (promotion md) || truthyStr promo in
  let finalPromotionType := jsString (orStr promo (promotion md)) in
  match applyPromotion promoApplied b3 er ec finalPromotionType with
  | None => Throw (mkState (mkPosition b3 cur (castlingRights p) None)
                           (moveHistory s) caps (gameStatus s) hist)
  | Some b4 =>
    let movingType := if promoApplied then finalPromotionType else ptype pieceToMove in
    let ep := if isDoublePawnPush md then Some ((sr + er) / 2, sc) else None in
    let cr1 := updateOwnRights (castlingRights p) cur movingType sr sc in
    let cr2 := updateCapturedRights cr1 cur capturedPiece er ec in
    let p' := mkPosition b4 (opponent cur) cr2 ep in
    let st := updateGameStatus (gameStatus s) p' in
    let specialPromotion := if promoApplied then Some finalPromotionType else None in
    match generateAlgebraicNotation pieceToMove sr sc er ec capturedPiece
            (isCastling md) specialPromotion (isCheck st) (isCheckmate st) with
    | None => Throw (mkState p' (moveHistory s) caps st hist)
    | Some notation =>
      let s' := mkState p' (notation :: moveHistory s) caps st hist in
      match getPieceAt b4 er ec with
      | None => Throw s'
      | Some _ => Ret (mkResult true capturedPiece notation) s'
      end
    end
  end.

(** The first legal move of the piece with the requested destination. *)
Definition findMove (p : position) (sr sc er ec : Z) : option move :=
  find (fun m => (row m =? er) && (col m =? ec)) (getValidMovesForPiece p sr sc).

Definition makeMove (s : state) (sr sc er ec : Z) (promotionPieceType : option string)
    : outcome moveResult :=
  match getPieceAt (boardState (pos s)) sr sc with
  | None => Ret failResult s
  | Some pieceToMove =>
    if negb (color_eqb (pcolor pieceToMove) (currentPlayer (pos s))) then Ret failResult s
    else match findMove (pos s) sr sc er ec with
         | None => Ret failResult s
         | Some md => executeMove s sr sc er ec pieceToMove md promotionPieceType
         end
  end.

(** ** Undo: [undoMove] *)

(** [initialBoardSetup]: [{type, color}] objects, no [hasMoved]. *)
Definition backRank (c : color) : list (option (string * color)) :=
  map (fun t => Some (t, c)) [ROOK; KNIGHT; BISHOP; QUEEN; KING; BISHOP; KNIGHT; ROOK].
Definition pawnRank (c : color) : list (option (string * color)) :=
  map (fun _ => Some (PAWN, c)) [0;1;2;3;4;5;6;7].
Definition emptyRank : list (option (string * color)) :=
  map (fun _ => None) [0;1;2;3;4;5;6;7].

Definition initialBoardSetup : list (list (option (string * color))) :=
  [backRank BLACK; pawnRank BLACK; emptyRank; emptyRank; emptyRank; emptyRank;
   pawnRank WHITE; backRank WHITE].

(** The count objects keyed by [p.color + p.type]; the key string of a colour
    and a kind determines both (the colour names differ in their first
    letter), so the key is the pair.  Keys keep their insertion order, the
    order of [for (const key in ...)]. *)
Definition countKey := (color * string)%type.

Definition key_eqb (a b : countKey) : bool :=
  color_eqb (fst a) (fst b) && String.eqb (snd a) (snd b).

Fixpoint bumpCount (k : countKey) (counts : list (countKey * Z)) : list (countKey * Z) :=
  match counts with
  | [] => [(k, 1)]
  | (k', n) :: rest => if key_eqb k k' then (k', n + 1) :: rest else (k', n) :: bumpCount k rest
  end.

Definition countPieces (cells : list (option countKey)) : list (countKey * Z) :=
  fold_left (fun acc cell => match cell with Some k => bumpCount k acc | None => acc end) cells [].

Fixpoint lookupCount (k : countKey) (counts : list (countKey * Z)) : Z :=
  match counts with
  | [] => 0
  | (k', n) :: rest => if key_eqb k k' then n else lookupCount k rest
  end.

Definition boardKeys (b : board) : list (option countKey) :=
  map (fun cell => match cell with Some p => Some (pcolor p, ptype p) | None => None end) (concat b).

(** The "Simplified Approach" of [undoMove]: captured pieces rebuilt from
    the piece counts of [initialBoardSetup] minus those of the board. *)
Definition recomputeCaptured (b : board) : captured :=
  let initialPieceCounts := countPieces (concat (map (map (fun cell =>
        match cell with Some tc => Some (snd tc, fst tc) | None => None end)) initialBoardSetup)) in
  let currentPieceCounts := countPieces (boardKeys b) in
  fold_left (fun cp kc =>
    let '(key, initialCount) := kc in
    let diff := initialCount - lookupCount key currentPieceCounts in
    if 0 <? diff then
      fold_left (fun cp' _ => pushCaptured cp' (opponent (fst key)) (mkCap (snd key) (fst key) None))
                (repeat tt (Z.to_nat diff)) cp
    else cp) initialPieceCounts (mkCaptured [] []).

Definition undoMove (s : state) : bool * state :=
  match gameStateHistory s with
  | [] => (false, s)
  | previousState :: rest =>
    let mh := match moveHistory s with [] => [] | _ :: t => t end in
    (true, mkState previousState mh (recomputeCaptured (boardState previousState))
                   (updateGameStatus (gameStatus s) previousState) rest)
  end.

(** ** [initializeGame] *)

Definition initialBoard : board :=
  map (map (fun cell => match cell with
                        | Some tc => Some (mkPiece (fst tc) (snd tc) false)
                        | None => None end)) initialBoardSetup.

Definition initialRights : castling := mkCastling (mkRights true true) (mkRights true true).

Definition initializeGame : state :=
  mkState (mkPosition initialBoard WHITE initialRights None) [] (mkCaptured [] [])
          (mkStatus false false false None) [].

(** ** Search engine: [minimax] and [getBestMoveMinimax] *)

(** Scores: JS numbers with [-Infinity] and [Infinity]. *)
Inductive score := NegInf | Fin (z : Z) | PosInf.

Definition score_lt (a b : score) : bool :=
  match a, b with
  | NegInf, NegInf => false
  | NegInf, _ => true
  | Fin x, Fin y => x <? y
  | Fin _, PosInf => true
  | _, _ => false
  end.

(** [Math.max] and [Math.min]. *)
Definition smax (a b : score) : score := if score_lt a b then b else a.
Definition smin (a b : score) : score := if score_lt b a then b else a.

(** The [for (const move of legalMoves)] loop of [minimax]; [child] is the
    recursive call [minimax(depth - 1, !isMaximizingPlayer)]. *)
Fixpoint searchLoop (child : state -> outcome score) (isMax : bool)
    (ms : list legalMove) (acc : score) (s : state) : outcome score :=
  match ms with
  | [] => Ret acc s
  | m :: rest =>
    match makeMove s (startRow m) (startCol m) (row (lmove m)) (col (lmove m))
                   (promotion (lmove m)) with
    | Ret r s1 =>
      if success r then
        match child s1 with
        | Ret v s2 =>
          searchLoop child isMax rest (if isMax then smax acc v else smin acc v)
                     (snd (undoMove s2))
        | Throw s2 => Throw s2
        | OutOfFuel => OutOfFuel
        end
      else searchLoop child isMax rest acc s1
    | Throw s1 => Throw s1
    | OutOfFuel => OutOfFuel
    end
  end.

Definition isTerminal (depth : Z) (st : status) : bool :=
  (depth =? 0) || isCheckmate st || isStalemate st.

Definition terminalScore (isMax : bool) (s : state) : score :=
  let st := gameStatus s in
  if isCheckmate st then (if isMax then NegInf else PosInf)
  else if isStalemate st then Fin 0
  else Fin (evaluateBoardMaterial (boardState (pos s))).

Fixpoint minimax (fuel : nat) (depth : Z) (isMax : bool) (s : state) : outcome score :=
  match fuel with
  | O => OutOfFuel
  | S f =>
    if isTerminal depth (gameStatus s) then Ret (terminalScore isMax s) s
    else
      match getAllLegalMovesForCurrentPlayer (pos s) with
      | [] => Ret (Fin (evaluateBoardMaterial (boardState (pos s)))) s
      | legalMoves =>
        searchLoop (minimax f (depth - 1) (negb isMax)) isMax legalMoves
                   (if isMax then NegInf else PosInf) s
      end
  end.

(** The root loop of [getBestMoveMinimax]: strict improvement only. *)
Fixpoint bestLoop (child : state -> outcome score) (isMax : bool)
    (ms : list legalMove) (best : option legalMove) (bestValue : score) (s : state)
    : outcome (option legalMove * score) :=
  match ms with
  | [] => Ret (best, bestValue) s
  | m :: rest =>
    match makeMove s (startRow m) (startCol m) (row (lmove m)) (col (lmove m))
                   (promotion (lmove m)) with
    | Ret r s1 =>
      if success r then
        match child s1 with
        | Ret v s2 =>
          let s3 := snd (undoMove s2) in
          if (if isMax then score_lt bestValue v else score_lt v bestValue)
          then bestLoop child isMax rest (Some m) v s3
          else bestLoop child isMax rest best bestValue s3
        | Throw s2 => Throw s2
        | OutOfFuel => OutOfFuel
        end
      else bestLoop child isMax rest best bestValue s1
    | Throw s1 => Throw s1
    | OutOfFuel => OutOfFuel
    end
  end.

Definition getBestMoveMinimax (fuel : nat) (depth : Z) (s : state) : outcome (option legalMove) :=
  match getAllLegalMovesForCurrentPlayer (pos s) with
  | [] => Ret None s
  | (first :: _) as legalMoves =>
    let isMaximizing := color_eqb (currentPlayer (pos s)) WHITE in
    match bestLoop (minimax fuel (depth - 1) (negb isMaximizing)) isMaximizing legalMoves
                   None (if isMaximizing then NegInf else PosInf) s with
    | Ret (bestMove, _) s' =>
      Ret (match bestMove with None => Some first | Some _ => bestMove end) s'
    | Throw s' => Throw s'
    | OutOfFuel => OutOfFuel
    end
  end.

(** ** Predicates of the proofs *)

Definition castleTargetCol (side : castleSide) : Z :=
  match side with KingSide => 6 | QueenSide => 2 end.

(** What the options passed to [addMove] tell about the move. *)
Definition optShape (pc : piece) (sr sc er ec : Z) (o : moveOptions) : Prop :=
  (forall side, oCastling o = Some side ->
     ptype pc = KING /\ er = sr /\ ec = castleTargetCol side) /\
  (forall k, oPromotion o = Some k -> ptype pc = PAWN /\ In k promotionKinds) /\
  (oEnPassant o = true -> ptype pc = PAWN /\ er <> sr /\ ec <> sc).

(** Every pseudo-legal move: on the board, not onto a piece of the mover's
    colour, and with the options its generator gives. *)
Definition moveShape (b : board) (pc : piece) (sr sc : Z) (m : move) : Prop :=
  isWithinBoard (row m) (col m) = true /\
  (forall t, getPieceAt b (row m) (col m) = Some t -> pcolor t <> pcolor pc) /\
  (forall side, isCastling m = Some side ->
     ptype pc = KING /\ row m = sr /\ col m = castleTargetCol side) /\
  (forall k, promotion m = Some k -> ptype pc = PAWN /\ In k promotionKinds) /\
  (isEnPassant m = true -> ptype pc = PAWN /\ row m <> sr /\ col m <> sc).

Definition hasLegal (p : position) : bool :=
  negb (Nat.eqb (length (getAllLegalMovesForCurrentPlayer p)) 0).

(** An optional promotion kind that, when truthy, is one of the four. *)
Definition kindOK (o : option string) : Prop :=
  forall k, o = Some k -> In k promotionKinds.

(** The status [updateGameStatus] computes for a position with legal moves. *)
Definition canonStatus (p : position) : status :=
  mkStatus (isKingInCheck (boardState p) (currentPlayer p)) false false None.

(** The status object agrees with the position. *)
Definition statusOK (st : status) (p : position) : Prop :=
  if hasLegal p then st = canonStatus p
  else if isKingInCheck (boardState p) (currentPlayer p) then
    isCheck st = true /\ isCheckmate st = true /\ isStalemate st = false /\
    winner st = Some (WinColor (opponent (currentPlayer p)))
  else
    isCheck st = false /\ isCheckmate st = false /\ isStalemate st = true /\
    winner st = Some Draw.

(** A piece that has not moved stands where [initializeGame] put it. *)
Definition unmovedHome (b : board) : Prop :=
  forall r c x, getPieceAt b r c = Some x -> hasMoved x = false ->
  getPieceAt initialBoard r c = Some x.

Definition posOK (p : position) : Prop :=
  board_wf (boardState p) /\ unmovedHome (boardState p).

(** The invariant of the reachable states. *)
Definition Inv (s : state) : Prop :=
  posOK (pos s) /\ statusOK (gameStatus s) (pos s) /\
  Forall (fun q => posOK q /\ hasLegal q = true) (gameStateHistory s).

(** [b]'s flags are among [a]'s: no flag turned from false to true. *)
Definition rights_le (a b : castling) : Prop :=
  forall c, (kingSide (rights_of b c) = true -> kingSide (rights_of a c) = true) /\
            (queenSide (rights_of b c) = true -> queenSide (rights_of a c) = true).

(** What a completed search leaves of the state it started from. *)
Definition searchFrame (s s' : state) : Prop :=
  pos s' = pos s /\ gameStateHistory s' = gameStateHistory s /\
  moveHistory s' = moveHistory s /\
  (gameStatus s' = gameStatus s \/
   (hasLegal (pos s) = true /\ gameStatus s' = canonStatus (pos s))) /\
  (capturedPieces s' = capturedPieces s \/
   (hasLegal (pos s) = true /\ capturedPieces s' = recomputeCaptured (boardState (pos s)))).

(** Two states that differ at most in their captured-piece ledgers. *)
Definition eqBC (t u : state) : Prop :=
  pos t = pos u /\ moveHistory t = moveHistory u /\ gameStatus t = gameStatus u /\
  gameStateHistory t = gameStateHistory u.

(** Two outcomes with the same result and states related by [eqBC]. *)
Definition outR {A} (o1 o2 : outcome A) : Prop :=
  match o1, o2 with
  | Ret a t, Ret b u => a = b /\ eqBC t u
  | Throw t, Throw u => eqBC t u
  | OutOfFuel, OutOfFuel => True
  | _, _ => False
  end.

(** Two cells that [isKingInCheck cur] cannot tell apart: both empty, or
    pieces of the same colour that are both kings or both not, and of the
    same kind when they are the opponent's. *)
Definition cellAgree (cur : color) (x y : option piece) : Prop :=
  match x, y with
  | None, None => True
  | Some a, Some b =>
    pcolor a = pcolor b /\ String.eqb (ptype a) KING = String.eqb (ptype b) KING /\
    (pcolor a <> cur -> ptype a = ptype b)
  | _, _ => False
  end.

Definition boardAgree (cur : color) (b1 b2 : board) : Prop :=
  forall r c, cellAgree cur (getPieceAt b1 r c) (getPieceAt b2 r c).

(** ** Reachable states *)

(** One call of an exported operation that changes the module state
    ([initializeGame] starts every run). A call that throws leaves the
    module state as it was at the throw. *)
Inductive publicStep : state -> state -> Prop :=
| step_move s sr sc er ec pr r s' :
    makeMove s sr sc er ec pr = Ret r s' -> publicStep s s'
| step_move_throw s sr sc er ec pr s' :
    makeMove s sr sc er ec pr = Throw s' -> publicStep s s'
| step_undo s b s' : undoMove s = (b, s') -> publicStep s s'
| step_best s fuel depth m s' :
    getBestMoveMinimax fuel depth s = Ret m s' -> publicStep s s'
| step_best_throw s fuel depth s' :
    getBestMoveMinimax fuel depth s = Throw s' -> publicStep s s'.

Inductive reachable : state -> Prop :=
| reach_init : reachable initializeGame
| reach_step s s' : reachable s -> publicStep s s' -> reachable s'.

(** A scripted game: [makeMove] calls without promotion argument. *)
Definition playMove (s : state) (mv : Z * Z * Z * Z) : state :=
  let '(sr, sc, er, ec) := mv in
  match makeMove s sr sc er ec None with
  | Ret _ s' | Throw s' => s'
  | OutOfFuel => s
  end.

Definition playMoves (s : state) (mvs : list (Z * Z * Z * Z)) : state :=
  fold_left playMove mvs s.

(** 1.e4 d5 2.exd5 Nf6 3.Nc3 Nxd5 4.Nxd5: Black has taken a pawn, White
    a pawn and then a knight. *)
Definition captureGame : state :=
  playMoves initializeGame
    [(6, 4, 4, 4); (1, 3, 3, 3); (4, 4, 3, 3); (0, 6, 2, 5); (7, 1, 5, 2); (2, 5, 3, 3);
     (5, 2, 3, 3)].

(** 1.e4 e5 2.Ke2: White's king has moved. *)
Definition kingWalkGame : state :=
  playMoves initializeGame [(6, 4, 4, 4); (1, 4, 3, 4); (7, 4, 6, 4)].

(** ** Castling conditions *)

Definition rookCol (side : castleSide) : Z :=
  match side with KingSide => 7 | QueenSide => 0 end.

Definition sideFlag (side : castleSide) (r : rights) : bool :=
  match side with KingSide => kingSide r | QueenSide => queenSide r end.

(** The conditions under which the king [k] on [(sr, sc)] may castle toward
    [side], as listed in the specification: the king has not moved and is
    not attacked, the flag is set, the own corner rook is there and has not
    moved, the squares strictly between king and rook are empty, and the
    squares the king passes through or lands on are not attacked. *)
Definition castlingAllowed (p : position) (k : piece) (sr sc : Z) (side : castleSide) : Prop :=
  let b := boardState p in
  let opp := opponent (pcolor k) in
  hasMoved k = false /\ isSquareAttacked b sr sc opp = false /\
  sideFlag side (rights_of (castlingRights p) (pcolor k)) = true /\
  (exists rook, getPieceAt b sr (rookCol side) = Some rook /\ ptype rook = ROOK /\
                pcolor rook = pcolor k /\ hasMoved rook = false) /\
  (forall j, Z.min sc (rookCol side) < j < Z.max sc (rookCol side) -> getPieceAt b sr j = None) /\
  (forall j, match side with KingSide => sc < j <= sc + 2 | QueenSide => sc - 2 <= j < sc end ->
             isSquareAttacked b sr j opp = false).

(** What [initializeGame] puts on a square: an unmoved piece, white on the
    two lower ranks and black on the two upper ones, kings on the e-file of
    the back ranks, rooks in the corners. *)
Definition homeCell (r c : Z) (x : piece) : bool :=
  negb (hasMoved x) &&
  (if color_eqb (pcolor x) WHITE then (r =? 6) || (r =? 7) else (r =? 0) || (r =? 1)) &&
  (negb (String.eqb (ptype x) KING) || ((c =? 4) && ((r =? 0) || (r =? 7)))) &&
  (negb (String.eqb (ptype x) ROOK) || (((c =? 0) || (c =? 7)) && ((r =? 0) || (r =? 7)))).

(** 1.e4 e5 2.Nf3 Nc6 3.Bc4 Bc5: both kings may castle on the king side. *)
Definition italianGame : state :=
  playMoves initializeGame
    [(6, 4, 4, 4); (1, 4, 3, 4); (7, 6, 5, 5); (0, 1, 2, 2); (7, 5, 4, 2); (0, 5, 3, 2)].

(** ** Sample positions *)

(** The initial position with a white pawn (already moved) on b7 in place
    of Black's pawn: it can capture on a8 or c8 and promote. *)
Definition promoState : state :=
  mkState (mkPosition (setPiece initialBoard 1 1 (Some (mkPiece PAWN WHITE true)))
                      WHITE initialRights None)
          [] (mkCaptured [] []) (mkStatus false false false None) [].

(** The state after 1.e4. *)
Definition e2e4_state : state :=
  match makeMove initializeGame 6 4 4 4 None with Ret _ s => s | _ => initializeGame end.

(** A search step that keeps the frame and the invariant. *)
Definition childOK (child : state -> outcome score) : Prop :=
  forall t, Inv t -> match child t with
                     | Ret _ t' => searchFrame t t' /\ Inv t'
                     | Throw _ => False
                     | OutOfFuel => True
                     end.

(** * Further definitions *)

(** ** [getRandomMoveForComputer]

    [rnd] is the value of [Math.random()], in [0, 1); the product with the
    list length is taken exactly.  [legalMoves[randomIndex]] is
    [nth_error]. *)
Definition getRandomMoveForComputer (p : position) (rnd : Q) : option legalMove :=
  let legalMoves := getAllLegalMovesForCurrentPlayer p in
  if Nat.eqb (length legalMoves) 0 then None
  else
    let randomIndex := Qfloor (rnd * inject_Z (Z.of_nat (length legalMoves)))%Q in
    if Z.ltb randomIndex 0 then None else nth_error legalMoves (Z.to_nat randomIndex).

(** ** Call sequences

    A script of [makeMove] calls, each with its promotion argument; [None]
    when a call fails or throws. *)
Fixpoint makeMovesOK (s : state) (mvs : list (Z * Z * Z * Z * option string)) : option state :=
  match mvs with
  | [] => Some s
  | (sr, sc, er, ec, pr) :: rest =>
    match makeMove s sr sc er ec pr with
    | Ret r s1 => if success r then makeMovesOK s1 rest else None
    | _ => None
    end
  end.

(** [n] consecutive [undoMove] calls. *)
Fixpoint undoTimes (n : nat) (s : state) : state :=
  match n with
  | O => s
  | S k => snd (undoMove (undoTimes k s))
  end.

(** 1.f3 e5 2.g4 Qh4#. *)
Definition foolsMate : state :=
  playMoves initializeGame [(6, 5, 5, 5); (1, 4, 3, 4); (6, 6, 4, 6); (0, 3, 4, 7)].

(** What the en-passant target square of a position tells about its board. *)
Definition epOK (p : position) : Prop :=
  forall r c, enPassantTargetSquare p = Some (r, c) ->
  0 <= c < 8 /\ getPieceAt (boardState p) r c = None /\
  ((currentPlayer p = BLACK /\ r = 5 /\
    exists x, getPieceAt (boardState p) 4 c = Some x /\ pcolor x = WHITE) \/
   (currentPlayer p = WHITE /\ r = 2 /\
    exists x, getPieceAt (boardState p) 3 c = Some x /\ pcolor x = BLACK)).

(** The contribution of one cell to [evaluateBoardMaterial]. *)
Definition cellValue (o : option piece) : Z :=
  match o with
  | Some p => if color_eqb (pcolor p) WHITE then pieceValue (ptype p) else - pieceValue (ptype p)
  | None => 0
  end.


(** ** Board coordinates: [getPositionFromCoords] and [getCoordsFromPosition]

    JS numbers are taken as exact rationals: on the integer rows and
    columns of the callers every intermediate value is a multiple of 1/2 of
    small magnitude, which a double holds exactly.  A [THREE.Vector3] is a
    record of its three coordinates. *)
Definition BOARD_SIZE : Z := 8.

Definition SQUARE_SIZE : Z := 5.

Record vector3 := mkVector3 { vx : Q; vy : Q; vz : Q }.

Definition getPositionFromCoords (row col : Z) : vector3 :=
  mkVector3 ((inject_Z col - inject_Z BOARD_SIZE / 2 + (1#2)) * inject_Z SQUARE_SIZE)%Q
            0%Q
            ((inject_Z row - inject_Z BOARD_SIZE / 2 + (1#2)) * inject_Z SQUARE_SIZE)%Q.

Definition getCoordsFromPosition (position : vector3) : option (Z * Z) :=
  let col := Qfloor (vx position / inject_Z SQUARE_SIZE + inject_Z BOARD_SIZE / 2)%Q in
  let row := Qfloor (vz position / inject_Z SQUARE_SIZE + inject_Z BOARD_SIZE / 2)%Q in
  if (row >=? 0) && (row <? BOARD_SIZE) && (col >=? 0) && (col <? BOARD_SIZE)
  then Some (row, col) else None.

(** ** The human move path of [main.js]: [selectPiece] and [attemptMove]

    [selectPiece] on the piece standing on [(row, col)]: [None] when the
    logic has no piece of the current player there (deselection), else the
    selected square with [validMoveCoords]. *)
Definition selectPiece (p : position) (row col : Z) : option (Z * Z * list move) :=
  match getPieceAt (boardState p) row col with
  | Some pieceLogic =>
    if color_eqb (pcolor pieceLogic) (currentPlayer p)
    then Some (row, col, getValidMovesForPiece p row col) else None
  | None => None
  end.

(** [attemptMove(targetRow, targetCol)] up to its [makeMove] call: [None]
    when it returns before calling [makeMove] (nothing selected, or the
    target not among [validMoveCoords]), else the outcome of the call with
    the auto-queen promotion argument. *)
Definition attemptMove (s : state) (selected : option (Z * Z * list move)) (targetRow targetCol : Z)
    : option (outcome moveResult) :=
  match selected with
  | None => None
  | Some (startRow, startCol, validMoveCoords) =>
    if existsb (fun m => (row m =? targetRow) && (col m =? targetCol)) validMoveCoords then
      let pieceLogic := getPieceAt (boardState (pos s)) startRow startCol in
      let promotionRank := if color_eqb (currentPlayer (pos s)) WHITE then 0 else 7 in
      let promotionPieceType :=
        match pieceLogic with
        | Some pl => if String.eqb (ptype pl) PAWN && (targetRow =? promotionRank)
                     then Some QUEEN else None
        | None => None
        end in
      Some (makeMove s startRow startCol targetRow targetCol promotionPieceType)
    else None
  end.

(** * Proofs *)

(** ** Board access lemmas *)

Lemma isWithinBoard_spec r c :
  isWithinBoard r c = true <-> (0 <= r < 8 /\ 0 <= c < 8).
Proof.
  unfold isWithinBoard. rewrite !andb_true_iff, !Z.leb_le, !Z.ltb_lt. tauto.
Qed.

Lemma getPieceAt_within b r c x : getPieceAt b r c = Some x -> isWithinBoard r c = true.
Proof. unfold getPieceAt. destruct (isWithinBoard r c); congruence. Qed.

Lemma setPiece_wf b r c x : board_wf b -> board_wf (setPiece b r c x).
Proof.
  intros [Hl Hr]. unfold board_wf, setPiece. split.
  - rewrite length_alter. exact Hl.
  - apply Forall_alter; [exact Hr|]. intros rw _ Hrw. rewrite length_insert. exact Hrw.
Qed.

Lemma getPieceAt_setPiece b r c x r' c' :
  board_wf b ->
  getPieceAt (setPiece b r c x) r' c' =
  if isWithinBoard r' c' && Nat.eqb (Z.to_nat r) (Z.to_nat r') && Nat.eqb (Z.to_nat c) (Z.to_nat c')
  then x else getPieceAt b r' c'.
Proof.
  intros [Hl Hrows]. unfold getPieceAt, setPiece.
  destruct (isWithinBoard r' c') eqn:W; simpl; [|reflexivity].
  apply isWithinBoard_spec in W.
  destruct (Nat.eqb_spec (Z.to_nat r) (Z.to_nat r')) as [Er|Er]; simpl.
  - rewrite <- Er, list_lookup_alter_eq.
    destruct (b !! Z.to_nat r) as [rw|] eqn:Hr; simpl.
    + assert (Hlen : length rw = 8%nat).
      { rewrite Forall_lookup in Hrows. exact (Hrows _ _ Hr). }
      destruct (Nat.eqb_spec (Z.to_nat c) (Z.to_nat c')) as [Ec|Ec].
      * rewrite <- Ec, list_lookup_insert_eq; [reflexivity|]. lia.
      * rewrite list_lookup_insert_ne by exact Ec. reflexivity.
    + apply lookup_ge_None_1 in Hr. lia.
  - rewrite list_lookup_alter_ne by exact Er. reflexivity.
Qed.

(** Writing a square of the board, read back at that square. *)
Lemma getPieceAt_setPiece_eq b r c x :
  board_wf b -> isWithinBoard r c = true -> getPieceAt (setPiece b r c x) r c = x.
Proof.
  intros Hwf W. rewrite getPieceAt_setPiece by exact Hwf. rewrite W, !Nat.eqb_refl. reflexivity.
Qed.

(** Two on-board squares are the same when their array indices are. *)
Lemma to_nat_eq_within r c r' c' :
  isWithinBoard r c = true -> isWithinBoard r' c' = true ->
  Nat.eqb (Z.to_nat r) (Z.to_nat r') && Nat.eqb (Z.to_nat c) (Z.to_nat c') =
  (r =? r') && (c =? c').
Proof.
  intros W W'. apply isWithinBoard_spec in W, W'.
  destruct (Nat.eqb_spec (Z.to_nat r) (Z.to_nat r')), (Z.eqb_spec r r'); try lia;
  destruct (Nat.eqb_spec (Z.to_nat c) (Z.to_nat c')), (Z.eqb_spec c c'); simpl; lia.
Qed.

Lemma getPieceAt_setPiece_within b r c x r' c' :
  board_wf b -> isWithinBoard r c = true ->
  getPieceAt (setPiece b r c x) r' c' =
  if (r =? r') && (c =? c') then x else getPieceAt b r' c'.
Proof.
  intros Hwf W. rewrite getPieceAt_setPiece by exact Hwf.
  destruct (isWithinBoard r' c') eqn:W'; simpl.
  - rewrite to_nat_eq_within by assumption. reflexivity.
  - destruct ((r =? r') && (c =? c')) eqn:E; [|reflexivity].
    apply andb_true_iff in E as [E1 E2]. apply Z.eqb_eq in E1, E2. subst. congruence.
Qed.

(** ** C3: rejected moves leave the state unchanged *)

(** C3: when there is no piece at the source square, or it is not the
    current player's, or the destination is not among the legal moves of
    that square, [makeMove] returns the failure result and the whole state
    (board, player, rights, en-passant square, history stacks, captured
    pieces, status) is unchanged. *)
Theorem makeMove_invalid_unchanged s sr sc er ec promotionPieceType :
  (getPieceAt (boardState (pos s)) sr sc = None \/
   (exists pc, getPieceAt (boardState (pos s)) sr sc = Some pc /\
               pcolor pc <> currentPlayer (pos s)) \/
   ~ (exists m, In m (getValidMovesForPiece (pos s) sr sc) /\ row m = er /\ col m = ec)) ->
  makeMove s sr sc er ec promotionPieceType = Ret failResult s /\ success failResult = false.
Proof.
  intros H. split; [|reflexivity]. unfold makeMove.
  destruct (getPieceAt (boardState (pos s)) sr sc) as [pc|] eqn:Hp; [|reflexivity].
  destruct (negb (color_eqb (pcolor pc) (currentPlayer (pos s)))) eqn:Hc; [reflexivity|].
  destruct (findMove (pos s) sr sc er ec) as [md|] eqn:Hf; [|reflexivity].
  exfalso. unfold findMove in Hf. apply find_some in Hf as [Hin Hm].
  apply andb_true_iff in Hm as [H1 H2]. apply Z.eqb_eq in H1, H2.
  destruct H as [H|[[pc' [H1' H2']]|H]].
  - discriminate.
  - injection H1' as <-. apply H2'.
    destruct (pcolor pc), (currentPlayer (pos s)); simpl in Hc; congruence.
  - apply H. exists md. auto.
Qed.

Lemma makeMove_invalid_unchanged_witness :
  (getPieceAt (boardState (pos initializeGame)) 3 3 = None \/
   (exists pc, getPieceAt (boardState (pos initializeGame)) 3 3 = Some pc /\
               pcolor pc <> currentPlayer (pos initializeGame)) \/
   ~ (exists m, In m (getValidMovesForPiece (pos initializeGame) 3 3) /\ row m = 4 /\ col m = 4)) /\
  makeMove initializeGame 3 3 4 4 None = Ret failResult initializeGame /\ success failResult = false.
Proof.
  split.
  - left. vm_compute. reflexivity.
  - apply (makeMove_invalid_unchanged initializeGame 3 3 4 4 None).
    left. vm_compute. reflexivity.
Defined.

(** ** Shape of [makeMove] *)

Lemma makeMove_cases s sr sc er ec pr :
  makeMove s sr sc er ec pr = Ret failResult s \/
  exists pc md,
    getPieceAt (boardState (pos s)) sr sc = Some pc /\
    pcolor pc = currentPlayer (pos s) /\
    findMove (pos s) sr sc er ec = Some md /\
    makeMove s sr sc er ec pr = executeMove s sr sc er ec pc md pr.
Proof.
  unfold makeMove.
  destruct (getPieceAt (boardState (pos s)) sr sc) as [pc|] eqn:Hp; [|left; reflexivity].
  destruct (color_eqb (pcolor pc) (currentPlayer (pos s))) eqn:Hc; simpl; [|left; reflexivity].
  destruct (findMove (pos s) sr sc er ec) as [md|] eqn:Hf; [|left; reflexivity].
  right. exists pc, md. repeat split; auto.
  destruct (pcolor pc), (currentPlayer (pos s)); simpl in Hc; congruence.
Qed.

Ltac split_matches :=
  repeat match goal with
         | |- context [match ?x with _ => _ end] => destruct x eqn:?
         end.

Lemma executeMove_facts s sr sc er ec pc md pr :
  match executeMove s sr sc er ec pc md pr with
  | Ret r s' =>
    success r = true /\ gameStateHistory s' = pos s :: gameStateHistory s /\
    moveHistory s' = moveNotation r :: moveHistory s /\
    gameStatus s' = updateGameStatus (gameStatus s) (pos s')
  | Throw s' => gameStateHistory s' = pos s :: gameStateHistory s
  | OutOfFuel => False
  end.
Proof.
  unfold executeMove. cbv zeta.
  destruct (applyPromotion _ _ _ _ _) as [b4|]; cbn iota beta; [|reflexivity].
  destruct (generateAlgebraicNotation _ _ _ _ _ _ _ _ _ _) as [n|]; cbn iota beta; [|reflexivity].
  destruct (getPieceAt b4 er ec); cbn iota beta; auto.
Qed.

Lemma findMove_spec p sr sc er ec md :
  findMove p sr sc er ec = Some md ->
  In md (getValidMovesForPiece p sr sc) /\ row md = er /\ col md = ec.
Proof.
  unfold findMove. intros H. apply find_some in H as [Hin Hm].
  apply andb_true_iff in Hm as [H1 H2]. apply Z.eqb_eq in H1, H2. auto.
Qed.

(** ** C1: undo after a move restores the position *)

Lemma makeMove_success_history s sr sc er ec pr r s' :
  makeMove s sr sc er ec pr = Ret r s' -> success r = true ->
  gameStateHistory s' = pos s :: gameStateHistory s.
Proof.
  intros H Hs. destruct (makeMove_cases s sr sc er ec pr) as [E|(pc & md & _ & _ & _ & E)];
    rewrite E in H.
  - injection H as <- _. discriminate.
  - pose proof (executeMove_facts s sr sc er ec pc md pr) as F. rewrite H in F. tauto.
Qed.

(** C1: after a successful [makeMove], [undoMove] succeeds and restores
    [boardState], [currentPlayer], [castlingRights] and
    [enPassantTargetSquare] to their values before the move (the
    captured-piece ledger is not part of the statement). *)
Theorem makeMove_undoMove_restores s sr sc er ec pr r s' :
  makeMove s sr sc er ec pr = Ret r s' -> success r = true ->
  exists s'', undoMove s' = (true, s'') /\
    boardState (pos s'') = boardState (pos s) /\
    currentPlayer (pos s'') = currentPlayer (pos s) /\
    castlingRights (pos s'') = castlingRights (pos s) /\
    enPassantTargetSquare (pos s'') = enPassantTargetSquare (pos s).
Proof.
  intros H Hs. pose proof (makeMove_success_history _ _ _ _ _ _ _ _ H Hs) as Hh.
  unfold undoMove. rewrite Hh. eexists. split; [reflexivity|]. simpl. auto.
Qed.

Lemma makeMove_undoMove_restores_witness :
  makeMove initializeGame 6 4 4 4 None =
    Ret (mkResult true None "e4"%string) e2e4_state /\
  exists s'', undoMove e2e4_state = (true, s'') /\
    boardState (pos s'') = boardState (pos initializeGame) /\
    currentPlayer (pos s'') = currentPlayer (pos initializeGame) /\
    castlingRights (pos s'') = castlingRights (pos initializeGame) /\
    enPassantTargetSquare (pos s'') = enPassantTargetSquare (pos initializeGame).
Proof.
  assert (E : makeMove initializeGame 6 4 4 4 None =
              Ret (mkResult true None "e4"%string) e2e4_state) by (vm_compute; reflexivity).
  split; [exact E|].
  exact (makeMove_undoMove_restores initializeGame 6 4 4 4 None _ _ E eq_refl).
Defined.

(** ** Shape of the generated moves *)

Ltac solve_opt :=
  unfold optShape; split; [|split]; intros;
  cbn [oCastling oPromotion oEnPassant] in *;
  repeat match goal with H : Some _ = Some _ |- _ => injection H as H end;
  subst; try discriminate; try split; auto.

Lemma optShape_none pc sr sc er ec : optShape pc sr sc er ec noOptions.
Proof. repeat split; simpl; intros; discriminate. Qed.

Lemma addMove_spec b c er ec o m :
  In m (addMove b c er ec o) ->
  m = mkMoveOpts er ec (isCapture m) o /\ isWithinBoard er ec = true /\
  (forall t, getPieceAt b er ec = Some t -> color_eqb (pcolor t) c = false).
Proof.
  unfold addMove. destruct (isWithinBoard er ec) eqn:W; simpl; [|contradiction].
  destruct (getPieceAt b er ec) as [t|] eqn:G.
  - destruct (color_eqb (pcolor t) c) eqn:Ct; simpl; [contradiction|].
    intros [<-|[]]. repeat split; auto. intros t' E. injection E as <-. exact Ct.
  - intros [<-|[]]. repeat split; auto. discriminate.
Qed.

Lemma slideMoves_from b c sr sc dr dc i n m :
  In m (slideMoves b c sr sc dr dc i n) -> exists er ec, In m (addMove b c er ec noOptions).
Proof.
  revert i. induction n as [|n IH]; intros i; simpl; [contradiction|].
  destruct (isWithinBoard (sr + i * dr) (sc + i * dc)); simpl; [|contradiction].
  destruct (getPieceAt b (sr + i * dr) (sc + i * dc)) as [t|].
  - destruct (color_eqb (pcolor t) (opponent c)); [|contradiction]. eauto.
  - intros Hin. apply in_app_or in Hin as [Hin|Hin]; eauto.
Qed.

Lemma addSlidingMoves_from b c sr sc dirs m :
  In m (addSlidingMoves b c sr sc dirs) -> exists er ec, In m (addMove b c er ec noOptions).
Proof.
  unfold addSlidingMoves. intros Hin. apply in_flat_map in Hin as [d [_ Hin]].
  eapply slideMoves_from. exact Hin.
Qed.

Lemma steps_from b c sr sc offs m :
  In m (flat_map (fun d => addMove b c (sr + fst d) (sc + snd d) noOptions) offs) ->
  exists er ec, In m (addMove b c er ec noOptions).
Proof. intros Hin. apply in_flat_map in Hin as [d [_ Hin]]. eauto. Qed.

Lemma addPromotions_from b c er ec m :
  In m (addPromotions b c er ec) ->
  exists k, In k promotionKinds /\ In m (addMove b c er ec (mkOptions (Some k) false false None)).
Proof. unfold addPromotions. intros Hin. apply in_flat_map in Hin as [k [Hk Hin]]. eauto. Qed.

Lemma string_eqb_true a b : String.eqb a b = true -> a = b.
Proof. apply String.eqb_eq. Qed.

Lemma pawnMoves_from p pc sr sc m :
  ptype pc = PAWN ->
  In m (pawnMoves p (pcolor pc) sr sc) ->
  exists er ec o, In m (addMove (boardState p) (pcolor pc) er ec o) /\ optShape pc sr sc er ec o.
Proof.
  intros Hpawn. unfold pawnMoves. cbv zeta. intros Hin.
  apply in_app_or in Hin as [Hin|Hin].
  - destruct (isWithinBoard _ _ && _); [|contradiction].
    apply in_app_or in Hin as [Hin|Hin].
    + destruct (_ =? _).
      * apply addPromotions_from in Hin as [k [Hk Hin]].
        do 3 eexists. split; [exact Hin|]. solve_opt.
      * do 3 eexists. split; [exact Hin|]. apply optShape_none.
    + destruct (sr =? _); [|contradiction].
      destruct (isWithinBoard _ _ && _); [|contradiction].
      do 3 eexists. split; [exact Hin|]. repeat split; simpl; intros; discriminate.
  - apply in_flat_map in Hin as [dc [Hdc Hin]].
    destruct (isWithinBoard _ _); [|contradiction].
    apply in_app_or in Hin as [Hin|Hin].
    + destruct (getPieceAt _ _ _) as [t|]; [|contradiction].
      destruct (color_eqb _ _); [|contradiction].
      destruct (_ =? _).
      * apply addPromotions_from in Hin as [k [Hk Hin]].
        do 3 eexists. split; [exact Hin|]. solve_opt.
      * do 3 eexists. split; [exact Hin|]. apply optShape_none.
    + destruct (enPassantTargetSquare p) as [ep|]; [|contradiction].
      destruct (_ && _); [|contradiction].
      do 3 eexists. split; [exact Hin|]. repeat split; simpl; intros; try discriminate; auto.
      * destruct (color_eqb (pcolor pc) WHITE); lia.
      * simpl in Hdc. lia.
Qed.

Lemma castlingMoves_from p pc sr sc m :
  ptype pc = KING ->
  In m (castlingMoves p pc sr sc) ->
  exists er ec o, In m (addMove (boardState p) (pcolor pc) er ec o) /\ optShape pc sr sc er ec o.
Proof.
  intros Hk. unfold castlingMoves. cbv zeta.
  destruct (_ && _); [|contradiction]. intros Hin. apply in_app_or in Hin as [Hin|Hin].
  - destruct (kingSide _); [|contradiction].
    destruct (getPieceAt _ sr 7); [|contradiction].
    destruct (_ && _); [|contradiction].
    do 3 eexists. split; [exact Hin|]. solve_opt.
  - destruct (queenSide _); [|contradiction].
    destruct (getPieceAt _ sr 0); [|contradiction].
    destruct (_ && _); [|contradiction].
    do 3 eexists. split; [exact Hin|]. solve_opt.
Qed.

Lemma pseudo_from p sr sc pc m :
  getPieceAt (boardState p) sr sc = Some pc ->
  In m (generatePseudoLegalMoves p sr sc) ->
  exists er ec o, In m (addMove (boardState p) (pcolor pc) er ec o) /\ optShape pc sr sc er ec o.
Proof.
  intros Hp. unfold generatePseudoLegalMoves. rewrite Hp. cbv zeta.
  destruct (String.eqb (ptype pc) PAWN) eqn:T1.
  { apply pawnMoves_from, string_eqb_true, T1. }
  destruct (String.eqb (ptype pc) KNIGHT).
  { intros Hin. apply steps_from in Hin as (er & ec & Hin).
    exists er, ec, noOptions. split; [exact Hin|apply optShape_none]. }
  destruct (String.eqb (ptype pc) BISHOP).
  { intros Hin. apply addSlidingMoves_from in Hin as (er & ec & Hin).
    exists er, ec, noOptions. split; [exact Hin|apply optShape_none]. }
  destruct (String.eqb (ptype pc) ROOK).
  { intros Hin. apply addSlidingMoves_from in Hin as (er & ec & Hin).
    exists er, ec, noOptions. split; [exact Hin|apply optShape_none]. }
  destruct (String.eqb (ptype pc) QUEEN).
  { intros Hin. apply addSlidingMoves_from in Hin as (er & ec & Hin).
    exists er, ec, noOptions. split; [exact Hin|apply optShape_none]. }
  destruct (String.eqb (ptype pc) KING) eqn:T6; [|contradiction].
  intros Hin. apply in_app_or in Hin as [Hin|Hin].
  - apply steps_from in Hin as (er & ec & Hin).
    exists er, ec, noOptions. split; [exact Hin|apply optShape_none].
  - apply castlingMoves_from; [apply string_eqb_true, T6|exact Hin].
Qed.

Lemma color_eqb_false a b : color_eqb a b = false -> a <> b.
Proof. destruct a, b; simpl; congruence. Qed.

Lemma pseudo_shape p sr sc pc m :
  getPieceAt (boardState p) sr sc = Some pc ->
  In m (generatePseudoLegalMoves p sr sc) -> moveShape (boardState p) pc sr sc m.
Proof.
  intros Hp Hin. destruct (pseudo_from p sr sc pc m Hp Hin) as (er & ec & o & Ha & Hs1 & Hs2 & Hs3).
  apply addMove_spec in Ha as (Em & W & Hc). rewrite Em. unfold mkMoveOpts. cbn.
  split; [exact W|]. split; [|auto].
  intros t Ht. apply color_eqb_false. auto.
Qed.

Lemma valid_in_pseudo p sr sc m :
  In m (getValidMovesForPiece p sr sc) -> In m (generatePseudoLegalMoves p sr sc).
Proof.
  unfold getValidMovesForPiece. destruct (getPieceAt (boardState p) sr sc); [|contradiction].
  destruct (negb _); [contradiction|]. intros Hin. apply filter_In in Hin. tauto.
Qed.

(** A legal move never targets its own start square. *)
Lemma shape_not_start b pc sr sc m :
  getPieceAt b sr sc = Some pc -> moveShape b pc sr sc m -> (sr =? row m) && (sc =? col m) = false.
Proof.
  intros Hp (_ & Hc & _). destruct ((sr =? row m) && (sc =? col m)) eqn:E; [|reflexivity].
  apply andb_true_iff in E as [E1 E2]. apply Z.eqb_eq in E1, E2. rewrite <- E1, <- E2 in Hc.
  exfalso. exact (Hc pc Hp eq_refl).
Qed.

(** ** The executed board *)

Ltac within_tac := apply isWithinBoard_spec; lia.

Ltac wf_tac := repeat apply setPiece_wf; assumption.

(** Rewrite every read of a written board into a case split on the square. *)
Ltac rw_get :=
  repeat (rewrite getPieceAt_setPiece_within; [|wf_tac|within_tac]).

Ltac split_sq :=
  repeat match goal with
         | |- context [?a =? ?b] => destruct (Z.eqb_spec a b); try lia; cbn [andb orb negb]
         end.

(** Case split on the reads and tests of the goal's board expression. *)
Ltac destr_goal :=
  repeat match goal with
         | |- context [match getPieceAt ?x ?r ?c with _ => _ end] =>
           destruct (getPieceAt x r c)
         | |- context [if String.eqb ?a ?b then _ else _] => destruct (String.eqb a b)
         end.

Lemma within_bounds r c : isWithinBoard r c = true -> 0 <= r < 8 /\ 0 <= c < 8.
Proof. apply isWithinBoard_spec. Qed.

Lemma execBoard_wf b sr sc er ec pc md :
  board_wf b -> board_wf (execBoard b sr sc er ec pc md).
Proof.
  intros Hwf. unfold execBoard. cbv zeta.
  destruct (isEnPassant md); destruct (isCastling md) as [side|]; destr_goal; wf_tac.
Qed.

(** The moved piece, marked as moved, stands on the target square. *)
Lemma execBoard_target b sr sc pc md :
  board_wf b -> getPieceAt b sr sc = Some pc -> moveShape b pc sr sc md ->
  getPieceAt (execBoard b sr sc (row md) (col md) pc md) (row md) (col md)
  = Some (mkPiece (ptype pc) (pcolor pc) true).
Proof.
  intros Hwf Hp Hs. pose proof (shape_not_start _ _ _ _ _ Hp Hs) as Hne.
  destruct Hs as (W & _ & Hcast & _ & Hep).
  pose proof (within_bounds _ _ W) as [Br Bc].
  pose proof (within_bounds _ _ (getPieceAt_within _ _ _ _ Hp)) as [Bsr Bsc].
  apply andb_false_iff in Hne as [Hne|Hne]; apply Z.eqb_neq in Hne.
  all: unfold execBoard; cbv zeta;
    destruct (isEnPassant md); destruct (isCastling md) as [side|] eqn:Ec;
    try (destruct (Hcast side eq_refl) as (_ & Er & Ecol); destruct side; simpl in Ecol);
    destr_goal; rw_get; split_sq; reflexivity.
Qed.

(** The promotion assignment never meets a [null] cell. *)
Lemma applyPromotion_found b sr sc pc md applied t :
  board_wf b -> getPieceAt b sr sc = Some pc -> moveShape b pc sr sc md ->
  applyPromotion applied (execBoard b sr sc (row md) (col md) pc md) (row md) (col md) t
  = Some (if applied
          then setPiece (execBoard b sr sc (row md) (col md) pc md) (row md) (col md)
                        (Some (mkPiece t (pcolor pc) true))
          else execBoard b sr sc (row md) (col md) pc md).
Proof.
  intros Hwf Hp Hs. unfold applyPromotion. destruct applied; [|reflexivity].
  unfold setTypeAt. rewrite (execBoard_target b sr sc pc md Hwf Hp Hs). reflexivity.
Qed.

(** What a found move does to the position, whether or not the notation
    step throws afterwards. *)
Lemma executeMove_post s sr sc pc md pr :
  let p := pos s in let b := boardState p in let cur := currentPlayer p in
  let promo := coercePromotion pc cur (row md) md pr in
  let applied := truthyStr (promotion md) || truthyStr promo in
  let final := jsString (orStr promo (promotion md)) in
  let b3 := execBoard b sr sc (row md) (col md) pc md in
  board_wf b -> getPieceAt b sr sc = Some pc -> moveShape b pc sr sc md ->
  match executeMove s sr sc (row md) (col md) pc md pr with
  | Ret _ s' | Throw s' =>
    boardState (pos s') =
      (if applied then setPiece b3 (row md) (col md) (Some (mkPiece final (pcolor pc) true))
       else b3) /\
    currentPlayer (pos s') = opponent cur /\
    castlingRights (pos s') =
      updateCapturedRights
        (updateOwnRights (castlingRights p) cur (if applied then final else ptype pc) sr (sc))
        cur (capturedOf b sr (row md) (col md) md) (row md) (col md) /\
    gameStatus s' = updateGameStatus (gameStatus s) (pos s') /\
    gameStateHistory s' = p :: gameStateHistory s
  | OutOfFuel => False
  end.
Proof.
  cbv zeta. intros Hwf Hp Hs. unfold executeMove. cbv zeta.
  rewrite (applyPromotion_found _ _ _ _ _ _ _ Hwf Hp Hs). cbn iota beta.
  destruct (generateAlgebraicNotation _ _ _ _ _ _ _ _ _ _) as [n|]; cbn iota beta.
  - destruct (getPieceAt _ (row md) (col md)); cbn iota beta; simpl; auto.
  - simpl. auto.
Qed.

Lemma pieceSymbols_kinds k : In k promotionKinds -> pieceSymbols k <> None.
Proof. simpl. intros [<-|[<-|[<-|[<-|[]]]]]; vm_compute; discriminate. Qed.

(** A found move whose applied promotion kind is a promotion kind
    completes: no [TypeError]. *)
Lemma executeMove_ret s sr sc pc md pr :
  let p := pos s in let b := boardState p in let cur := currentPlayer p in
  let promo := coercePromotion pc cur (row md) md pr in
  let applied := truthyStr (promotion md) || truthyStr promo in
  let final := jsString (orStr promo (promotion md)) in
  board_wf b -> getPieceAt b sr sc = Some pc -> moveShape b pc sr sc md ->
  (applied = true -> In final promotionKinds) ->
  exists r s', executeMove s sr sc (row md) (col md) pc md pr = Ret r s'.
Proof.
  cbv zeta. intros Hwf Hp Hs Hk. unfold executeMove. cbv zeta.
  rewrite (applyPromotion_found _ _ _ _ _ _ _ Hwf Hp Hs). cbn iota beta.
  match goal with |- context [generateAlgebraicNotation ?a ?b ?c ?d ?e ?f ?g ?h ?i ?j] =>
    destruct (generateAlgebraicNotation a b c d e f g h i j) as [n|] eqn:En end.
  - cbn iota beta.
    match goal with |- context [getPieceAt (if ?a then _ else _) _ _] => destruct a eqn:Ea end.
    + rewrite getPieceAt_setPiece_eq; [eauto| |apply (proj1 Hs)].
      apply execBoard_wf, Hwf.
    + rewrite (execBoard_target _ _ _ _ _ Hwf Hp Hs). eauto.
  - exfalso. revert En. unfold generateAlgebraicNotation.
    destruct (isCastling md) as [[]|]; try (intros H; discriminate H). cbv zeta.
    match goal with |- context [truthyStr (if ?a then _ else _)] => destruct a eqn:Ea end;
      cbn iota.
    + specialize (Hk eq_refl). destruct (truthyStr (Some _)); [|intros H; discriminate H].
      cbn [jsString]. destruct (pieceSymbols _) eqn:E; [intros H; discriminate H|].
      apply pieceSymbols_kinds in Hk. contradiction.
    + intros H. simpl in H. discriminate H.
Qed.

Lemma valid_color p sr sc m pc :
  In m (getValidMovesForPiece p sr sc) -> getPieceAt (boardState p) sr sc = Some pc ->
  pcolor pc = currentPlayer p.
Proof.
  unfold getValidMovesForPiece. intros Hin Hp. rewrite Hp in Hin.
  destruct (color_eqb (pcolor pc) (currentPlayer p)) eqn:E; [|contradiction].
  destruct (pcolor pc), (currentPlayer p); simpl in E; congruence.
Qed.

Lemma color_eqb_refl c : color_eqb c c = true.
Proof. destruct c; reflexivity. Qed.

(** A legal destination has a found move. *)
Lemma findMove_exists p sr sc m :
  In m (getValidMovesForPiece p sr sc) ->
  exists md, findMove p sr sc (row m) (col m) = Some md.
Proof.
  unfold findMove. intros Hin.
  destruct (find _ _) as [md|] eqn:F; [eauto|].
  exfalso. pose proof (find_none _ _ F m Hin) as E. simpl in E.
  rewrite !Z.eqb_refl in E. discriminate.
Qed.

(** [makeMove] on a legal destination runs [executeMove] on the found move. *)
Lemma makeMove_found s sr sc m pr :
  In m (getValidMovesForPiece (pos s) sr sc) ->
  exists pc md,
    getPieceAt (boardState (pos s)) sr sc = Some pc /\
    pcolor pc = currentPlayer (pos s) /\
    In md (getValidMovesForPiece (pos s) sr sc) /\ row md = row m /\ col md = col m /\
    makeMove s sr sc (row m) (col m) pr = executeMove s sr sc (row md) (col md) pc md pr.
Proof.
  intros Hin.
  destruct (getPieceAt (boardState (pos s)) sr sc) as [pc|] eqn:Hp.
  2:{ unfold getValidMovesForPiece in Hin. rewrite Hp in Hin. contradiction. }
  pose proof (valid_color _ _ _ _ _ Hin Hp) as Hc.
  destruct (findMove_exists _ _ _ _ Hin) as [md F].
  pose proof (findMove_spec _ _ _ _ _ _ F) as (Hmd & Er & Ec).
  exists pc, md. repeat split; auto.
  unfold makeMove. rewrite Hp, Hc, color_eqb_refl. simpl. rewrite F, Er, Ec. reflexivity.
Qed.

Lemma valid_shape p sr sc pc m :
  getPieceAt (boardState p) sr sc = Some pc ->
  In m (getValidMovesForPiece p sr sc) -> moveShape (boardState p) pc sr sc m.
Proof. intros Hp Hin. apply (pseudo_shape p sr sc pc m Hp), valid_in_pseudo, Hin. Qed.

(** The promotion coercion for a pawn on its promotion rank. *)
Lemma coercePromotion_queen pc cur md pr :
  ptype pc = PAWN ->
  (pr = None \/ exists k, pr = Some k /\ ~ In k promotionKinds) ->
  coercePromotion pc cur (if color_eqb cur WHITE then 0 else 7) md pr = Some QUEEN.
Proof.
  intros Ht Hpr. unfold coercePromotion. cbv zeta. rewrite Ht, Z.eqb_refl, String.eqb_refl.
  cbn [andb].
  assert (Hq : (if negb (truthyStr pr) then Some QUEEN
                else match pr with
                     | Some k => if existsb (String.eqb k) [QUEEN; ROOK; BISHOP; KNIGHT]
                                 then Some k else Some QUEEN
                     | None => Some QUEEN
                     end) = Some QUEEN).
  { destruct Hpr as [->|(k & -> & Hk)]; [reflexivity|].
    destruct (negb (truthyStr (Some k))); [reflexivity|].
    destruct (existsb (String.eqb k) _) eqn:E; [|reflexivity].
    exfalso. apply Hk. apply existsb_exists in E as (k' & Hin & E).
    apply String.eqb_eq in E. subst k'. exact Hin. }
  rewrite Hq. destruct (truthyStr (promotion md)); reflexivity.
Qed.

(** ** C7: missing or unknown promotion kinds become a queen *)

(** C7: for a legal pawn move to the far rank (row 0 for White, row 7
    for Black), [makeMove] with no promotion argument or with one outside
    queen, rook, bishop, knight succeeds and leaves a queen on the
    destination square. *)
Theorem promotion_defaults_to_queen s sr sc m pr pc :
  board_wf (boardState (pos s)) ->
  In m (getValidMovesForPiece (pos s) sr sc) ->
  getPieceAt (boardState (pos s)) sr sc = Some pc -> ptype pc = PAWN ->
  row m = (if color_eqb (currentPlayer (pos s)) WHITE then 0 else 7) ->
  (pr = None \/ exists k, pr = Some k /\ ~ In k promotionKinds) ->
  exists r s', makeMove s sr sc (row m) (col m) pr = Ret r s' /\ success r = true /\
    exists q, getPieceAt (boardState (pos s')) (row m) (col m) = Some q /\ ptype q = QUEEN.
Proof.
  intros Hwf Hin Hp Ht Hrank Hpr.
  destruct (makeMove_found s sr sc m pr Hin) as (pc' & md & Hp' & _ & Hmd & Er & Ec & E).
  rewrite Hp in Hp'. injection Hp' as <-.
  pose proof (valid_shape _ _ _ _ _ Hp Hmd) as Hs.
  assert (Hco : coercePromotion pc (currentPlayer (pos s)) (row md) md pr = Some QUEEN).
  { rewrite Er, Hrank. apply coercePromotion_queen; assumption. }
  assert (Hf : jsString (orStr (Some QUEEN) (promotion md)) = QUEEN) by reflexivity.
  assert (Htq : truthyStr (Some QUEEN) = true) by reflexivity.
  destruct (executeMove_ret s sr sc pc md pr Hwf Hp Hs) as (r & s' & Hret).
  { cbv zeta. rewrite Hco, Hf. intros _. left. reflexivity. }
  exists r, s'. rewrite E. split; [exact Hret|].
  pose proof (executeMove_facts s sr sc (row md) (col md) pc md pr) as F.
  rewrite Hret in F. split; [apply F|].
  pose proof (executeMove_post s sr sc pc md pr Hwf Hp Hs) as P. cbv zeta in P.
  rewrite Hret in P. destruct P as (Hb & _).
  rewrite Hco, Htq, orb_true_r, Hf in Hb. rewrite Hb, <- Er, <- Ec.
  rewrite getPieceAt_setPiece_eq; [eauto|apply execBoard_wf, Hwf|apply (proj1 Hs)].
Qed.

Lemma promotion_defaults_to_queen_witness :
  exists r s', makeMove promoState 1 1 0 0 None = Ret r s' /\ success r = true /\
    exists q, getPieceAt (boardState (pos s')) 0 0 = Some q /\ ptype q = QUEEN.
Proof.
  apply (promotion_defaults_to_queen promoState 1 1
           (mkMove 0 0 true (Some QUEEN) false false None) None (mkPiece PAWN WHITE true)).
  - split; vm_compute; [reflexivity|repeat constructor].
  - vm_compute. left. reflexivity.
  - vm_compute. reflexivity.
  - reflexivity.
  - reflexivity.
  - left. reflexivity.
Defined.

(** ** Legal moves complete *)

Lemma in_range8 z : 0 <= z < 8 -> In z [0;1;2;3;4;5;6;7].
Proof. intros H. assert (z = 0 \/ z = 1 \/ z = 2 \/ z = 3 \/ z = 4 \/ z = 5 \/ z = 6 \/ z = 7) by lia.
  simpl. intuition. Qed.

Lemma in_squares r c : isWithinBoard r c = true -> In (r, c) squares.
Proof.
  intros W. apply within_bounds in W as [Hr Hc]. unfold squares.
  apply in_flat_map. exists r. split; [apply in_range8; exact Hr|].
  apply in_map, in_range8, Hc.
Qed.

Lemma allLegal_in p lm :
  In lm (getAllLegalMovesForCurrentPlayer p) ->
  In (lmove lm) (getValidMovesForPiece p (startRow lm) (startCol lm)).
Proof.
  unfold getAllLegalMovesForCurrentPlayer. intros Hin.
  apply in_flat_map in Hin as ([r c] & _ & Hin). simpl in Hin.
  destruct (getPieceAt (boardState p) r c); [|contradiction].
  destruct (color_eqb _ _); [|contradiction].
  apply in_map_iff in Hin as (m & <- & Hm). exact Hm.
Qed.

Lemma valid_allLegal p sr sc m :
  In m (getValidMovesForPiece p sr sc) ->
  In (mkLegal sr sc m) (getAllLegalMovesForCurrentPlayer p).
Proof.
  intros Hin. unfold getAllLegalMovesForCurrentPlayer. apply in_flat_map.
  destruct (getPieceAt (boardState p) sr sc) as [pc|] eqn:Hp.
  2:{ unfold getValidMovesForPiece in Hin. rewrite Hp in Hin. contradiction. }
  exists (sr, sc). split; [apply in_squares, (getPieceAt_within _ _ _ _ Hp)|]. simpl.
  rewrite Hp, (valid_color _ _ _ _ _ Hin Hp), color_eqb_refl. apply in_map, Hin.
Qed.

Lemma hasLegal_valid p sr sc m :
  In m (getValidMovesForPiece p sr sc) -> hasLegal p = true.
Proof.
  intros Hin. apply valid_allLegal in Hin. unfold hasLegal.
  destruct (getAllLegalMovesForCurrentPlayer p); [contradiction|reflexivity].
Qed.

Lemma coercePromotion_kindOK pc cur er md pr :
  kindOK pr -> kindOK (promotion md) ->
  let promo := coercePromotion pc cur er md pr in
  truthyStr (promotion md) || truthyStr promo = true ->
  In (jsString (orStr promo (promotion md))) promotionKinds.
Proof.
  intros Hpr Hmd. cbv zeta.
  assert (H1 : kindOK (if String.eqb (ptype pc) PAWN && (er =? (if color_eqb cur WHITE then 0 else 7))
                       then (if negb (truthyStr pr) then Some QUEEN
                             else match pr with
                                  | Some k => if existsb (String.eqb k) [QUEEN; ROOK; BISHOP; KNIGHT]
                                              then Some k else Some QUEEN
                                  | None => Some QUEEN
                                  end)
                       else pr)).
  { destruct (_ && _); [|exact Hpr].
    destruct (negb _); [intros k E; injection E as <-; left; reflexivity|].
    destruct pr as [k0|]; [|intros k E; injection E as <-; left; reflexivity].
    destruct (existsb _ _) eqn:Ex; intros k E; injection E as <-.
    - apply existsb_exists in Ex as (k' & Hin & Ek). apply String.eqb_eq in Ek. subst. exact Hin.
    - left. reflexivity. }
  unfold coercePromotion. cbv zeta.
  set (promo1 := if _ && _ then _ else pr) in *.
  assert (H2 : kindOK (if truthyStr (promotion md) && negb (truthyStr promo1)
                       then promotion md else promo1)).
  { destruct (truthyStr (promotion md) && negb (truthyStr promo1)); assumption. }
  set (promo := if truthyStr (promotion md) && negb (truthyStr promo1)
                then promotion md else promo1) in *.
  unfold orStr. intros Ht.
  destruct (truthyStr promo) eqn:Tp.
  - destruct promo as [k|]; [apply H2; reflexivity|discriminate].
  - rewrite orb_false_r in Ht. destruct (promotion md) as [k|] eqn:E; [|discriminate].
    apply Hmd. reflexivity.
Qed.

(** Every move of [getAllLegalMovesForCurrentPlayer], replayed through
    [makeMove] with its own promotion field, succeeds. *)
Lemma legal_move_succeeds s lm :
  board_wf (boardState (pos s)) ->
  In lm (getAllLegalMovesForCurrentPlayer (pos s)) ->
  exists r s', makeMove s (startRow lm) (startCol lm) (row (lmove lm)) (col (lmove lm))
                        (promotion (lmove lm)) = Ret r s' /\ success r = true.
Proof.
  intros Hwf Hin. apply allLegal_in in Hin.
  destruct (makeMove_found s _ _ _ (promotion (lmove lm)) Hin)
    as (pc & md & Hp & _ & Hmd & Er & Ec & E).
  pose proof (valid_shape _ _ _ _ _ Hp Hmd) as Hs.
  pose proof (valid_shape _ _ _ _ _ Hp Hin) as Hsm.
  destruct (executeMove_ret s _ _ pc md (promotion (lmove lm)) Hwf Hp Hs) as (r & s' & Hret).
  { cbv zeta. apply coercePromotion_kindOK.
    - intros k Ek. apply (proj1 (proj2 (proj2 (proj2 Hsm))) k Ek).
    - intros k Ek. apply (proj1 (proj2 (proj2 (proj2 Hs))) k Ek). }
  exists r, s'. rewrite E. split; [exact Hret|].
  pose proof (executeMove_facts s (startRow lm) (startCol lm) (row md) (col md) pc md
                (promotion (lmove lm))) as F.
  rewrite Hret in F. apply F.
Qed.

(** ** The invariant of the reachable states *)

Lemma makeMove_ret_cases s sr sc er ec pr r s' :
  makeMove s sr sc er ec pr = Ret r s' ->
  (r = failResult /\ s' = s) \/
  (success r = true /\ gameStateHistory s' = pos s :: gameStateHistory s /\
   moveHistory s' = moveNotation r :: moveHistory s).
Proof.
  intros H. destruct (makeMove_cases s sr sc er ec pr) as [E|(pc & md & _ & _ & _ & E)];
    rewrite E in H.
  - injection H as <- <-. left. auto.
  - pose proof (executeMove_facts s sr sc er ec pc md pr) as F. rewrite H in F. right. tauto.
Qed.

Lemma updateGameStatus_legal st p :
  hasLegal p = true -> updateGameStatus st p = canonStatus p.
Proof.
  intros H. unfold updateGameStatus, canonStatus. cbv zeta.
  change (negb (Nat.eqb (length (getAllLegalMovesForCurrentPlayer p)) 0)) with (hasLegal p).
  rewrite H. destruct (isKingInCheck _ _); reflexivity.
Qed.

(** [updateGameStatus] from a status with both flags down agrees with the
    position. *)
Lemma updateGameStatus_ok st p :
  isCheckmate st = false -> isStalemate st = false -> statusOK (updateGameStatus st p) p.
Proof.
  intros Hm Hs. unfold statusOK.
  destruct (hasLegal p) eqn:L; [apply updateGameStatus_legal, L|].
  unfold updateGameStatus. cbv zeta.
  change (negb (Nat.eqb (length (getAllLegalMovesForCurrentPlayer p)) 0)) with (hasLegal p).
  rewrite L. destruct (isKingInCheck _ _); simpl; auto.
Qed.

Lemma statusOK_legal st p : hasLegal p = true -> statusOK st p -> st = canonStatus p.
Proof. unfold statusOK. intros -> H. exact H. Qed.

Lemma unmovedHome_setPiece b r c cell :
  board_wf b -> unmovedHome b -> (forall x, cell = Some x -> hasMoved x = true) ->
  unmovedHome (setPiece b r c cell).
Proof.
  intros Hwf Hu Hc r' c' x. rewrite getPieceAt_setPiece by exact Hwf.
  destruct (_ && _ && _).
  - intros -> Hm. rewrite (Hc x eq_refl) in Hm. discriminate.
  - apply Hu.
Qed.

Ltac unmoved_tac :=
  repeat (apply unmovedHome_setPiece;
          [wf_tac| |intros ? E; first [discriminate E|injection E as <-; reflexivity]]);
  assumption.

Lemma execBoard_unmoved b sr sc er ec pc md :
  board_wf b -> unmovedHome b -> unmovedHome (execBoard b sr sc er ec pc md).
Proof.
  intros Hwf Hu. unfold execBoard. cbv zeta.
  destruct (isEnPassant md); destruct (isCastling md) as [side|]; destr_goal; unmoved_tac.
Qed.

Lemma promoted_ok (b3 : board) (applied : bool) (er ec : Z) (t : string) (c : color) :
  board_wf b3 -> unmovedHome b3 ->
  board_wf (if applied then setPiece b3 er ec (Some (mkPiece t c true)) else b3) /\
  unmovedHome (if applied then setPiece b3 er ec (Some (mkPiece t c true)) else b3).
Proof.
  intros W U. destruct applied; [|auto]. split; [wf_tac|].
  apply unmovedHome_setPiece; [exact W|exact U|intros ? E; injection E as <-; reflexivity].
Qed.

(** A found move keeps the invariant, whether or not it throws after the
    history push. *)
Lemma executeMove_Inv s sr sc pc md pr :
  Inv s -> getPieceAt (boardState (pos s)) sr sc = Some pc ->
  In md (getValidMovesForPiece (pos s) sr sc) ->
  match executeMove s sr sc (row md) (col md) pc md pr with
  | Ret _ s' | Throw s' => Inv s'
  | OutOfFuel => True
  end.
Proof.
  intros (Hpos & Hst & Hh) Hp Hmd. pose proof Hpos as [Hwf Hu].
  pose proof (valid_shape _ _ _ _ _ Hp Hmd) as Hs.
  pose proof (hasLegal_valid _ _ _ _ Hmd) as Hl.
  pose proof (statusOK_legal _ _ Hl Hst) as Hc.
  pose proof (executeMove_post s sr sc pc md pr Hwf Hp Hs) as P. cbv zeta in P.
  pose proof (execBoard_wf (boardState (pos s)) sr sc (row md) (col md) pc md Hwf) as W3.
  pose proof (execBoard_unmoved (boardState (pos s)) sr sc (row md) (col md) pc md Hwf Hu) as U3.
  destruct (executeMove _ _ _ _ _ _ _ _) as [r s'|s'|]; [..|exact I];
    destruct P as (Hb & _ & _ & Hst' & Hh');
    (split; [|split]);
    [ | rewrite Hst', Hc; apply updateGameStatus_ok; reflexivity
      | rewrite Hh'; constructor; [split; assumption|exact Hh]
      | | rewrite Hst', Hc; apply updateGameStatus_ok; reflexivity
      | rewrite Hh'; constructor; [split; assumption|exact Hh]];
    unfold posOK; rewrite Hb; apply promoted_ok; assumption.
Qed.

Lemma makeMove_Inv s sr sc er ec pr :
  Inv s ->
  match makeMove s sr sc er ec pr with
  | Ret _ s' | Throw s' => Inv s'
  | OutOfFuel => True
  end.
Proof.
  intros HI. destruct (makeMove_cases s sr sc er ec pr) as [E|(pc & md & Hp & _ & F & E)];
    rewrite E; [exact HI|].
  apply findMove_spec in F as (Hmd & <- & <-). apply executeMove_Inv; assumption.
Qed.

Lemma undoMove_Inv s : Inv s -> Inv (snd (undoMove s)).
Proof.
  intros HI. pose proof HI as (Hpos & Hst & Hh). unfold undoMove.
  destruct (gameStateHistory s) as [|q rest] eqn:E; [exact HI|].
  apply Forall_cons_iff in Hh as [[Hq Hl] Hrest]. simpl.
  split; [exact Hq|]. split; [|exact Hrest].
  rewrite updateGameStatus_legal by exact Hl. unfold statusOK. simpl. rewrite Hl. reflexivity.
Qed.

Lemma initializeGame_Inv : Inv initializeGame.
Proof.
  split; [|split; [vm_compute; reflexivity|constructor]].
  split; [split; vm_compute; [reflexivity|repeat constructor]|].
  intros r c x H _. exact H.
Qed.

(** ** Search: frame and invariant *)

Lemma searchFrame_refl s : searchFrame s s.
Proof. repeat split; auto. Qed.

Lemma searchFrame_trans s t u : searchFrame s t -> searchFrame t u -> searchFrame s u.
Proof.
  intros (P1 & H1 & M1 & S1 & C1) (P2 & H2 & M2 & S2 & C2).
  rewrite P1 in S2, C2. repeat split; try congruence.
  - destruct S1 as [S1|[L1 S1]], S2 as [S2|[L2 S2]];
      [left; congruence|right; auto|right; split; [auto|congruence]|right; auto].
  - destruct C1 as [C1|[L1 C1]], C2 as [C2|[L2 C2]];
      [left; congruence|right; auto|right; split; [auto|congruence]|right; auto].
Qed.

(** One round of the search loops: the move, the recursive call that
    returned, and the [undoMove]. *)
Lemma search_round s lm (child : state -> outcome score) :
  Inv s -> hasLegal (pos s) = true ->
  In lm (getAllLegalMovesForCurrentPlayer (pos s)) ->
  (forall t, Inv t -> match child t with
                      | Ret _ t' => searchFrame t t' /\ Inv t'
                      | Throw _ => False
                      | OutOfFuel => True
                      end) ->
  exists r s1, makeMove s (startRow lm) (startCol lm) (row (lmove lm)) (col (lmove lm))
                        (promotion (lmove lm)) = Ret r s1 /\ success r = true /\
    match child s1 with
    | Ret _ s2 => Inv (snd (undoMove s2)) /\ searchFrame s (snd (undoMove s2)) /\
                  capturedPieces (snd (undoMove s2)) = recomputeCaptured (boardState (pos s))
    | Throw _ => False
    | OutOfFuel => True
    end.
Proof.
  intros HI Hl Hin Hchild. pose proof HI as ((Hwf & _) & Hst & _).
  destruct (legal_move_succeeds s lm Hwf Hin) as (r & s1 & E & Hs).
  exists r, s1. split; [exact E|]. split; [exact Hs|].
  pose proof (makeMove_Inv s (startRow lm) (startCol lm) (row (lmove lm)) (col (lmove lm))
                (promotion (lmove lm)) HI) as HI1. rewrite E in HI1.
  destruct (makeMove_ret_cases _ _ _ _ _ _ _ _ E) as [[-> _]|(_ & Hh1 & Hm1)];
    [discriminate|].
  specialize (Hchild s1 HI1). destruct (child s1) as [v s2|s2|]; [|exact Hchild|exact I].
  destruct Hchild as [(P2 & H2 & M2 & _) HI2].
  split; [apply undoMove_Inv, HI2|].
  unfold undoMove. rewrite H2, Hh1, M2, Hm1. simpl.
  split; [|reflexivity].
  repeat split; auto.
  right. split; [exact Hl|]. apply updateGameStatus_legal, Hl.
Qed.

Lemma searchLoop_Inv child isMax ms acc t :
  childOK child -> Inv t -> hasLegal (pos t) = true ->
  incl ms (getAllLegalMovesForCurrentPlayer (pos t)) ->
  match searchLoop child isMax ms acc t with
  | Ret _ s' => searchFrame t s' /\ Inv s'
  | Throw _ => False
  | OutOfFuel => True
  end.
Proof.
  intros Hc. revert acc t. induction ms as [|lm rest IH]; intros acc t HI Hl Hincl; simpl.
  { split; [apply searchFrame_refl|exact HI]. }
  destruct (search_round t lm child HI Hl (Hincl lm (or_introl eq_refl)) Hc)
    as (r & s1 & E & Hs & R).
  rewrite E, Hs. destruct (child s1) as [v s2|s2|]; [|exact R|exact I].
  destruct R as (HI3 & F3 & _). pose proof F3 as (P3 & _).
  specialize (IH (if isMax then smax acc v else smin acc v) (snd (undoMove s2)) HI3).
  rewrite P3 in IH. specialize (IH Hl (fun x Hx => Hincl x (or_intror Hx))).
  destruct (searchLoop _ _ _ _ _) as [v' s'| |]; auto.
  destruct IH as [F' HI']. split; [|exact HI']. eapply searchFrame_trans; [exact F3|].
  exact F'.
Qed.

Lemma minimax_Inv fuel : forall depth isMax, childOK (minimax fuel depth isMax).
Proof.
  induction fuel as [|f IH]; intros depth isMax s HI; cbn [minimax]; [exact I|].
  destruct (isTerminal depth (gameStatus s)).
  { split; [apply searchFrame_refl|exact HI]. }
  destruct (getAllLegalMovesForCurrentPlayer (pos s)) as [|lm rest] eqn:L.
  { split; [apply searchFrame_refl|exact HI]. }
  rewrite <- L. apply searchLoop_Inv; [apply IH|exact HI| |apply incl_refl].
  unfold hasLegal. rewrite L. reflexivity.
Qed.

Lemma bestLoop_Inv child isMax ms best bv t :
  childOK child -> Inv t -> hasLegal (pos t) = true ->
  incl ms (getAllLegalMovesForCurrentPlayer (pos t)) ->
  match bestLoop child isMax ms best bv t with
  | Ret _ s' => searchFrame t s' /\ Inv s'
  | Throw _ => False
  | OutOfFuel => True
  end.
Proof.
  intros Hc. revert best bv t. induction ms as [|lm rest IH]; intros best bv t HI Hl Hincl; simpl.
  { split; [apply searchFrame_refl|exact HI]. }
  destruct (search_round t lm child HI Hl (Hincl lm (or_introl eq_refl)) Hc)
    as (r & s1 & E & Hs & R).
  rewrite E, Hs. destruct (child s1) as [v s2|s2|]; [|exact R|exact I].
  destruct R as (HI3 & F3 & _). pose proof F3 as (P3 & _). cbv zeta.
  assert (Hincl' : incl rest (getAllLegalMovesForCurrentPlayer (pos (snd (undoMove s2))))).
  { rewrite P3. intros x Hx. apply Hincl. right. exact Hx. }
  assert (Hl' : hasLegal (pos (snd (undoMove s2))) = true) by (rewrite P3; exact Hl).
  match goal with |- context [if ?c then _ else _] => destruct c end;
  match goal with |- context [bestLoop child isMax rest ?b ?v (snd (undoMove s2))] =>
    pose proof (IH b v _ HI3 Hl' Hincl') as IH';
    destruct (bestLoop child isMax rest b v (snd (undoMove s2))) as [x s'| |]; auto;
    destruct IH' as [F' HI']; split; [eapply searchFrame_trans; eauto|exact HI']
  end.
Qed.

(** [getBestMoveMinimax] on an invariant state: no throw, the frame of the
    search, and, when there are legal moves, the ledger rebuilt by
    [undoMove]. *)
Lemma getBest_Inv fuel depth s :
  Inv s ->
  match getBestMoveMinimax fuel depth s with
  | Ret _ s' => searchFrame s s' /\ Inv s' /\
                (hasLegal (pos s) = true ->
                 capturedPieces s' = recomputeCaptured (boardState (pos s)))
  | Throw _ => False
  | OutOfFuel => True
  end.
Proof.
  intros HI. unfold getBestMoveMinimax.
  destruct (getAllLegalMovesForCurrentPlayer (pos s)) as [|lm rest] eqn:L.
  { split; [apply searchFrame_refl|]. split; [exact HI|]. unfold hasLegal. rewrite L.
    discriminate. }
  assert (Hl : hasLegal (pos s) = true) by (unfold hasLegal; rewrite L; reflexivity).
  cbv zeta. set (isM := color_eqb (currentPlayer (pos s)) WHITE).
  set (child := minimax fuel (depth - 1) (negb isM)).
  assert (Hc : childOK child) by apply minimax_Inv.
  simpl bestLoop.
  assert (Hin : In lm (getAllLegalMovesForCurrentPlayer (pos s))) by (rewrite L; left; reflexivity).
  destruct (search_round s lm child HI Hl Hin Hc) as (r & s1 & E & Hs & R).
  rewrite E, Hs. destruct (child s1) as [v s2|s2|]; [|exact R|exact I].
  destruct R as (HI3 & F3 & C3). pose proof F3 as (P3 & _).
  assert (Hincl' : incl rest (getAllLegalMovesForCurrentPlayer (pos (snd (undoMove s2))))).
  { rewrite P3, L. intros x Hx. right. exact Hx. }
  assert (Hl' : hasLegal (pos (snd (undoMove s2))) = true) by (rewrite P3; exact Hl).
  cbv zeta.
  match goal with |- context [if ?c then _ else _] => destruct c end;
  match goal with |- context [bestLoop child isM rest ?b ?w (snd (undoMove s2))] =>
    pose proof (bestLoop_Inv child isM rest b w _ Hc HI3 Hl' Hincl') as IH';
    destruct (bestLoop child isM rest b w (snd (undoMove s2))) as [[x y] s'| |]; auto;
    destruct IH' as [F' HI']; split; [eapply searchFrame_trans; eauto|];
    split; [exact HI'|]; intros _;
    destruct F' as (P' & _ & _ & _ & [C'|[_ C']]); rewrite C'; [exact C3|rewrite P3; reflexivity]
  end.
Qed.

Lemma publicStep_Inv s s' : Inv s -> publicStep s s' -> Inv s'.
Proof.
  intros HI Hstep. destruct Hstep as [s sr sc er ec pr r s' E|s sr sc er ec pr s' E|s b s' E
                                     |s fuel depth m s' E|s fuel depth s' E].
  - pose proof (makeMove_Inv s sr sc er ec pr HI) as H. rewrite E in H. exact H.
  - pose proof (makeMove_Inv s sr sc er ec pr HI) as H. rewrite E in H. exact H.
  - pose proof (undoMove_Inv s HI) as H. rewrite E in H. exact H.
  - pose proof (getBest_Inv fuel depth s HI) as H. rewrite E in H. apply H.
  - pose proof (getBest_Inv fuel depth s HI) as H. rewrite E in H. contradiction.
Qed.

Lemma reachable_Inv s : reachable s -> Inv s.
Proof.
  induction 1 as [|s s' _ IH Hstep]; [apply initializeGame_Inv|].
  eapply publicStep_Inv; eassumption.
Qed.

Lemma reachable_playMoves s mvs : reachable s -> reachable (playMoves s mvs).
Proof.
  unfold playMoves. revert s. induction mvs as [|[[[sr sc] er] ec] rest IH]; intros s Hs;
    simpl; [exact Hs|].
  apply IH. unfold playMove.
  destruct (makeMove s sr sc er ec None) as [r s'|s'|] eqn:E; [| |exact Hs];
    eapply reach_step; [exact Hs|eapply step_move; exact E|exact Hs|eapply step_move_throw; exact E].
Qed.

(** ** C6: the status flags *)

(** C6: in every reachable state, [isCheckmate] and [isStalemate] are not
    both true, and [winner] is [null] exactly when neither is. *)
Theorem status_flags_consistent s :
  reachable s ->
  ~ (isCheckmate (gameStatus s) = true /\ isStalemate (gameStatus s) = true) /\
  (winner (gameStatus s) = None <->
   isCheckmate (gameStatus s) = false /\ isStalemate (gameStatus s) = false).
Proof.
  intros R. destruct (reachable_Inv s R) as (_ & Hst & _). unfold statusOK in Hst.
  destruct (hasLegal (pos s)).
  - rewrite Hst. simpl. split; [intros [H _]; discriminate|tauto].
  - destruct (isKingInCheck _ _); destruct Hst as (_ & -> & -> & ->).
    + split; [intros [_ H]; discriminate|split; [discriminate|intros [H _]; discriminate]].
    + split; [intros [H _]; discriminate|split; [discriminate|intros [_ H]; discriminate]].
Qed.

Lemma status_flags_consistent_witness :
  reachable captureGame /\
  ~ (isCheckmate (gameStatus captureGame) = true /\ isStalemate (gameStatus captureGame) = true) /\
  (winner (gameStatus captureGame) = None <->
   isCheckmate (gameStatus captureGame) = false /\ isStalemate (gameStatus captureGame) = false).
Proof.
  assert (R : reachable captureGame) by (apply reachable_playMoves, reach_init).
  split; [exact R|]. apply (status_flags_consistent captureGame R).
Defined.

(** ** C10: an unknown promotion kind on an ordinary move *)

(** C10 fails: from the initial position, [makeMove(6, 4, 4, 4, 'foo')]
    (the legal move e2-e4 with a promotion argument that is not a piece
    kind) throws a [TypeError] in [generateAlgebraicNotation] after
    [gameStateHistory.push] and before [moveHistory.push]; the module
    state left behind is reachable and its undo stack holds one entry while
    its move log is empty. *)
Theorem makeMove_bad_promotion_desyncs_history :
  match makeMove initializeGame 6 4 4 4 (Some "foo"%string) with
  | Throw s' => reachable s' /\ length (gameStateHistory s') = 1%nat /\
                length (moveHistory s') = 0%nat
  | _ => False
  end.
Proof.
  destruct (makeMove initializeGame 6 4 4 4 (Some "foo"%string)) as [r s'|s'|] eqn:E;
    [vm_compute in E; discriminate| |vm_compute in E; discriminate].
  split; [eapply reach_step; [apply reach_init|eapply step_move_throw; exact E]|].
  vm_compute in E. injection E as <-. split; reflexivity.
Qed.

(** ** Castling rights *)

Lemma rights_le_refl cr : rights_le cr cr.
Proof. intros c. auto. Qed.

Lemma rights_le_trans a b c : rights_le a b -> rights_le b c -> rights_le a c.
Proof. intros H1 H2 x. destruct (H1 x), (H2 x). auto. Qed.

Lemma rights_le_set cr c r :
  (kingSide r = true -> kingSide (rights_of cr c) = true) ->
  (queenSide r = true -> queenSide (rights_of cr c) = true) ->
  rights_le cr (set_rights cr c r).
Proof. intros Hk Hq c'. destruct c, c'; simpl in *; auto. Qed.

(** Clearing the flags of a rook's home square only lowers flags. *)
Lemma rook_rights_le r0 col :
  let r1 := if col =? 0 then mkRights (kingSide r0) false else r0 in
  let r2 := if col =? 7 then mkRights false (queenSide r1) else r1 in
  (kingSide r2 = true -> kingSide r0 = true) /\ (queenSide r2 = true -> queenSide r0 = true).
Proof. cbv zeta. destruct (col =? 0), (col =? 7); simpl; auto; split; auto; discriminate. Qed.

Lemma updateOwnRights_le cr cur t sr sc : rights_le cr (updateOwnRights cr cur t sr sc).
Proof.
  unfold updateOwnRights.
  destruct (String.eqb t KING); [apply rights_le_set; simpl; discriminate|].
  destruct (String.eqb t ROOK); [|apply rights_le_refl]. cbv zeta.
  destruct (sr =? _); [|apply rights_le_refl].
  destruct (rook_rights_le (rights_of cr cur) sc) as [Hk Hq]. apply rights_le_set; assumption.
Qed.

Lemma updateCapturedRights_le cr cur cp er ec :
  rights_le cr (updateCapturedRights cr cur cp er ec).
Proof.
  unfold updateCapturedRights. destruct cp as [cp|]; [|apply rights_le_refl].
  destruct (String.eqb (ptype cp) ROOK); [|apply rights_le_refl]. cbv zeta.
  destruct (er =? _); [|apply rights_le_refl].
  destruct (rook_rights_le (rights_of cr (opponent cur)) ec) as [Hk Hq].
  apply rights_le_set; assumption.
Qed.

(** Whatever [makeMove] returns or throws, no flag goes up. *)
Lemma makeMove_rights_le s sr sc er ec pr :
  match makeMove s sr sc er ec pr with
  | Ret _ s' | Throw s' => rights_le (castlingRights (pos s)) (castlingRights (pos s'))
  | OutOfFuel => True
  end.
Proof.
  destruct (makeMove_cases s sr sc er ec pr) as [E|(pc & md & _ & _ & _ & E)]; rewrite E;
    [apply rights_le_refl|].
  unfold executeMove. cbv zeta.
  destruct (applyPromotion _ _ _ _ _) as [b4|]; cbn iota beta; [|apply rights_le_refl].
  assert (H : forall t, rights_le (castlingRights (pos s))
     (updateCapturedRights (updateOwnRights (castlingRights (pos s)) (currentPlayer (pos s)) t sr sc)
        (currentPlayer (pos s)) (capturedOf (boardState (pos s)) sr er ec md) er ec)).
  { intros t. eapply rights_le_trans; [apply updateOwnRights_le|apply updateCapturedRights_le]. }
  destruct (generateAlgebraicNotation _ _ _ _ _ _ _ _ _ _) as [n|]; cbn iota beta; [|apply H].
  destruct (getPieceAt b4 er ec); apply H.
Qed.

(** C9, as the code behaves: from a reachable state, a [makeMove] (returning
    or throwing) or a [getBestMoveMinimax] call never turns a castling flag
    from false to true; an [undoMove] that pops a snapshot replaces the
    position, flags included, by that snapshot, so it re-enables every flag
    the undone move cleared. *)
Theorem castling_rights_monotone_except_undo s s' :
  reachable s -> publicStep s s' ->
  rights_le (castlingRights (pos s)) (castlingRights (pos s')) \/
  (undoMove s = (true, s') /\ gameStateHistory s = pos s' :: gameStateHistory s').
Proof.
  intros R Hstep. pose proof (reachable_Inv s R) as HI.
  destruct Hstep as [s sr sc er ec pr r s' E|s sr sc er ec pr s' E|s b s' E
                    |s fuel depth m s' E|s fuel depth s' E].
  - left. pose proof (makeMove_rights_le s sr sc er ec pr) as H. rewrite E in H. exact H.
  - left. pose proof (makeMove_rights_le s sr sc er ec pr) as H. rewrite E in H. exact H.
  - revert E. unfold undoMove. destruct (gameStateHistory s) as [|q rest] eqn:Eh.
    + intros E. injection E as _ <-. left. apply rights_le_refl.
    + intros E. injection E as <- <-. right. split; reflexivity.
  - left. pose proof (getBest_Inv fuel depth s HI) as H. rewrite E in H.
    destruct H as ((P & _) & _). rewrite P. apply rights_le_refl.
  - pose proof (getBest_Inv fuel depth s HI) as H. rewrite E in H. contradiction.
Qed.

Lemma castling_rights_monotone_except_undo_witness :
  reachable kingWalkGame /\ publicStep kingWalkGame (snd (undoMove kingWalkGame)) /\
  (rights_le (castlingRights (pos kingWalkGame))
             (castlingRights (pos (snd (undoMove kingWalkGame)))) \/
   (undoMove kingWalkGame = (true, snd (undoMove kingWalkGame)) /\
    gameStateHistory kingWalkGame =
      pos (snd (undoMove kingWalkGame)) :: gameStateHistory (snd (undoMove kingWalkGame)))).
Proof.
  assert (R : reachable kingWalkGame) by (apply reachable_playMoves, reach_init).
  assert (S : publicStep kingWalkGame (snd (undoMove kingWalkGame)))
    by (eapply step_undo; apply surjective_pairing).
  split; [exact R|]. split; [exact S|].
  exact (castling_rights_monotone_except_undo kingWalkGame _ R S).
Defined.

(** C9 fails: after 1.e4 e5 2.Ke2 (White's king-side flag is false), the
    public [undoMove] yields a state whose White king-side flag is true. *)
Lemma castling_flag_reenabled_by_undo :
  ~ (forall s s', reachable s -> publicStep s s' ->
       kingSide (crWhite (castlingRights (pos s))) = false ->
       kingSide (crWhite (castlingRights (pos s'))) = false).
Proof.
  intros H.
  assert (R : reachable kingWalkGame) by (apply reachable_playMoves, reach_init).
  assert (S : publicStep kingWalkGame (snd (undoMove kingWalkGame)))
    by (eapply step_undo; apply surjective_pairing).
  assert (F : kingSide (crWhite (castlingRights (pos kingWalkGame))) = false)
    by (vm_compute; reflexivity).
  pose proof (H _ _ R S F) as G. vm_compute in G. discriminate G.
Qed.

(** ** C8: what [getBestMoveMinimax] restores *)

(** C8, as the code behaves: from a reachable state, a returning
    [getBestMoveMinimax] restores the position (board, current player,
    castling rights, en-passant square), the move log, the history stack and
    the status; the captured-piece ledger is the one [undoMove] rebuilds
    from the board when there are legal moves (so its order and the
    [hasMoved] fields are not kept), and is untouched otherwise. *)
Theorem getBestMoveMinimax_restores s fuel depth m s' :
  reachable s -> getBestMoveMinimax fuel depth s = Ret m s' ->
  pos s' = pos s /\ moveHistory s' = moveHistory s /\
  gameStateHistory s' = gameStateHistory s /\ gameStatus s' = gameStatus s /\
  capturedPieces s' = (if hasLegal (pos s) then recomputeCaptured (boardState (pos s))
                       else capturedPieces s).
Proof.
  intros R E. pose proof (reachable_Inv s R) as HI.
  pose proof (getBest_Inv fuel depth s HI) as H. rewrite E in H.
  destruct H as ((P & Hh & Hm & Hs & Hc) & _ & Hcap).
  repeat split; auto.
  - destruct Hs as [Hs|[Hl Hs]]; [exact Hs|].
    destruct HI as (_ & Hst & _). rewrite (statusOK_legal _ _ Hl Hst). exact Hs.
  - destruct (hasLegal (pos s)) eqn:L; [apply Hcap; reflexivity|].
    destruct Hc as [Hc|[Hl _]]; [exact Hc|discriminate].
Qed.

Lemma getBestMoveMinimax_restores_witness :
  reachable captureGame /\
  match getBestMoveMinimax 1 1 captureGame with
  | Ret m s' =>
    pos s' = pos captureGame /\ moveHistory s' = moveHistory captureGame /\
    gameStateHistory s' = gameStateHistory captureGame /\
    gameStatus s' = gameStatus captureGame /\
    capturedPieces s' = (if hasLegal (pos captureGame)
                         then recomputeCaptured (boardState (pos captureGame))
                         else capturedPieces captureGame)
  | _ => False
  end.
Proof.
  assert (R : reachable captureGame) by (apply reachable_playMoves, reach_init).
  split; [exact R|].
  destruct (getBestMoveMinimax 1 1 captureGame) as [m s'|s'|] eqn:E.
  - exact (getBestMoveMinimax_restores captureGame 1 1 m s' R E).
  - vm_compute in E. discriminate E.
  - vm_compute in E. discriminate E.
Defined.

(** C8 fails: after 1.e4 d5 2.exd5 Nf6 3.Nc3 Nxd5 4.Nxd5 a depth-1 search
    returns with White's captured list reordered (knight before pawn) and
    rebuilt without [hasMoved]. *)
Lemma search_changes_captured_ledger :
  ~ (forall s fuel depth m s', reachable s -> getBestMoveMinimax fuel depth s = Ret m s' ->
       capturedPieces s' = capturedPieces s).
Proof.
  intros H.
  assert (R : reachable captureGame) by (apply reachable_playMoves, reach_init).
  assert (C : match getBestMoveMinimax 1 1 captureGame with
              | Ret _ s' => capturedPieces s' <> capturedPieces captureGame
              | _ => False
              end) by (vm_compute; discriminate).
  destruct (getBestMoveMinimax 1 1 captureGame) as [m s'| |] eqn:E; try contradiction.
  exact (C (H _ _ _ _ _ R E)).
Qed.

(** ** C5: castling moves *)

Lemma initialBoard_homeCells :
  forallb (fun sq => match getPieceAt initialBoard (fst sq) (snd sq) with
                     | Some x => homeCell (fst sq) (snd sq) x
                     | None => true
                     end) squares = true.
Proof. vm_compute. reflexivity. Qed.

Lemma initialBoard_home r c x :
  getPieceAt initialBoard r c = Some x -> homeCell r c x = true.
Proof.
  intros H. pose proof (in_squares r c (getPieceAt_within _ _ _ _ H)) as Hin.
  pose proof initialBoard_homeCells as F. rewrite forallb_forall in F.
  specialize (F _ Hin). simpl in F. rewrite H in F. exact F.
Qed.

Lemma home_king b r c x :
  unmovedHome b -> getPieceAt b r c = Some x -> hasMoved x = false -> ptype x = KING ->
  c = 4 /\ ((r = 0 /\ pcolor x = BLACK) \/ (r = 7 /\ pcolor x = WHITE)).
Proof.
  intros U G Hm Hk. pose proof (initialBoard_home _ _ _ (U _ _ _ G Hm)) as Hh.
  unfold homeCell in Hh. rewrite Hm, Hk in Hh. simpl in Hh.
  destruct (pcolor x); simpl in Hh; rewrite ?andb_true_iff, ?orb_true_iff, ?Z.eqb_eq in Hh.
  - split; [lia|]. right. split; [lia|reflexivity].
  - split; [lia|]. left. split; [lia|reflexivity].
Qed.

Lemma home_rook b r c x :
  unmovedHome b -> getPieceAt b r c = Some x -> hasMoved x = false -> ptype x = ROOK ->
  (r = 0 /\ pcolor x = BLACK) \/ (r = 7 /\ pcolor x = WHITE).
Proof.
  intros U G Hm Hk. pose proof (initialBoard_home _ _ _ (U _ _ _ G Hm)) as Hh.
  unfold homeCell in Hh. rewrite Hm, Hk in Hh. simpl in Hh.
  destruct (pcolor x); simpl in Hh; rewrite ?andb_true_iff, ?orb_true_iff, ?Z.eqb_eq in Hh.
  - right. split; [lia|reflexivity].
  - left. split; [lia|reflexivity].
Qed.

Lemma isPresent_false {A} (o : option A) : isPresent o = false -> o = None.
Proof. destruct o; simpl; congruence. Qed.

Lemma castlingMoves_KS p k sr sc m :
  In m (castlingMoves p k sr sc) -> isCastling m = Some KingSide ->
  hasMoved k = false /\ isSquareAttacked (boardState p) sr sc (opponent (pcolor k)) = false /\
  kingSide (rights_of (castlingRights p) (pcolor k)) = true /\
  (exists rook, getPieceAt (boardState p) sr 7 = Some rook /\ ptype rook = ROOK /\
                hasMoved rook = false) /\
  getPieceAt (boardState p) sr 5 = None /\ getPieceAt (boardState p) sr 6 = None /\
  isSquareAttacked (boardState p) sr 5 (opponent (pcolor k)) = false /\
  isSquareAttacked (boardState p) sr 6 (opponent (pcolor k)) = false.
Proof.
  unfold castlingMoves. cbv zeta.
  destruct (negb (hasMoved k) && negb (isSquareAttacked (boardState p) sr sc (opponent (pcolor k))))
    eqn:E; [|contradiction].
  apply andb_true_iff in E as [E1 E2]. apply negb_true_iff in E1, E2.
  intros Hin Hc. apply in_app_or in Hin as [Hin|Hin].
  - destruct (kingSide _) eqn:F; [|contradiction].
    destruct (getPieceAt (boardState p) sr 7) as [rook|] eqn:R; [|contradiction].
    match type of Hin with context [if ?t then _ else _] => destruct t eqn:C end;
      [|contradiction].
    rewrite !andb_true_iff in C. destruct C as (((((C1 & C2) & C3) & C4) & C5) & C6).
    apply negb_true_iff in C2, C3, C4, C5, C6.
    repeat split; auto.
    + exists rook. repeat split; auto. apply string_eqb_true, C1.
    + apply isPresent_false, C3.
    + apply isPresent_false, C4.
  - exfalso. destruct (queenSide _); [|contradiction].
    destruct (getPieceAt (boardState p) sr 0); [|contradiction].
    match type of Hin with context [if ?t then _ else _] => destruct t end; [|contradiction].
    apply addMove_spec in Hin as (Em & _). rewrite Em in Hc. discriminate Hc.
Qed.

Lemma castlingMoves_QS p k sr sc m :
  In m (castlingMoves p k sr sc) -> isCastling m = Some QueenSide ->
  hasMoved k = false /\ isSquareAttacked (boardState p) sr sc (opponent (pcolor k)) = false /\
  queenSide (rights_of (castlingRights p) (pcolor k)) = true /\
  (exists rook, getPieceAt (boardState p) sr 0 = Some rook /\ ptype rook = ROOK /\
                hasMoved rook = false) /\
  getPieceAt (boardState p) sr 1 = None /\ getPieceAt (boardState p) sr 2 = None /\
  getPieceAt (boardState p) sr 3 = None /\
  isSquareAttacked (boardState p) sr 2 (opponent (pcolor k)) = false /\
  isSquareAttacked (boardState p) sr 3 (opponent (pcolor k)) = false.
Proof.
  unfold castlingMoves. cbv zeta.
  destruct (negb (hasMoved k) && negb (isSquareAttacked (boardState p) sr sc (opponent (pcolor k))))
    eqn:E; [|contradiction].
  apply andb_true_iff in E as [E1 E2]. apply negb_true_iff in E1, E2.
  intros Hin Hc. apply in_app_or in Hin as [Hin|Hin].
  - exfalso. destruct (kingSide _); [|contradiction].
    destruct (getPieceAt (boardState p) sr 7); [|contradiction].
    match type of Hin with context [if ?t then _ else _] => destruct t end; [|contradiction].
    apply addMove_spec in Hin as (Em & _). rewrite Em in Hc. discriminate Hc.
  - destruct (queenSide _) eqn:F; [|contradiction].
    destruct (getPieceAt (boardState p) sr 0) as [rook|] eqn:R; [|contradiction].
    match type of Hin with context [if ?t then _ else _] => destruct t eqn:C end;
      [|contradiction].
    rewrite !andb_true_iff in C. destruct C as ((((((C1 & C2) & C3) & C4) & C5) & C6) & C7).
    apply negb_true_iff in C2, C3, C4, C5, C6, C7.
    repeat split; auto.
    + exists rook. repeat split; auto. apply string_eqb_true, C1.
    + apply isPresent_false, C3.
    + apply isPresent_false, C4.
    + apply isPresent_false, C5.
Qed.

Lemma castlingMoves_KS_in p k sr sc rook :
  isWithinBoard sr 6 = true ->
  hasMoved k = false -> isSquareAttacked (boardState p) sr sc (opponent (pcolor k)) = false ->
  kingSide (rights_of (castlingRights p) (pcolor k)) = true ->
  getPieceAt (boardState p) sr 7 = Some rook -> ptype rook = ROOK -> hasMoved rook = false ->
  getPieceAt (boardState p) sr 5 = None -> getPieceAt (boardState p) sr 6 = None ->
  isSquareAttacked (boardState p) sr 5 (opponent (pcolor k)) = false ->
  isSquareAttacked (boardState p) sr 6 (opponent (pcolor k)) = false ->
  In (mkMoveOpts sr 6 false (mkOptions None false false (Some KingSide)))
     (castlingMoves p k sr sc).
Proof.
  intros W Hm Ha Hf Gr Rr Mr G5 G6 A5 A6. unfold castlingMoves. cbv zeta.
  rewrite Hm, Ha, Hf, Gr, Rr, Mr, G5, G6, A5, A6. simpl.
  apply in_or_app. left. unfold addMove. rewrite W, G6. simpl. left. reflexivity.
Qed.

Lemma castlingMoves_QS_in p k sr sc rook :
  isWithinBoard sr 2 = true ->
  hasMoved k = false -> isSquareAttacked (boardState p) sr sc (opponent (pcolor k)) = false ->
  queenSide (rights_of (castlingRights p) (pcolor k)) = true ->
  getPieceAt (boardState p) sr 0 = Some rook -> ptype rook = ROOK -> hasMoved rook = false ->
  getPieceAt (boardState p) sr 1 = None -> getPieceAt (boardState p) sr 2 = None ->
  getPieceAt (boardState p) sr 3 = None ->
  isSquareAttacked (boardState p) sr 2 (opponent (pcolor k)) = false ->
  isSquareAttacked (boardState p) sr 3 (opponent (pcolor k)) = false ->
  In (mkMoveOpts sr 2 false (mkOptions None false false (Some QueenSide)))
     (castlingMoves p k sr sc).
Proof.
  intros W Hm Ha Hf Gr Rr Mr G1 G2 G3 A2 A3. unfold castlingMoves. cbv zeta.
  rewrite Hm, Ha, Hf, Gr, Rr, Mr, G1, G2, G3, A2, A3. simpl.
  apply in_or_app. right. unfold addMove. rewrite W, G2. simpl. left. reflexivity.
Qed.

Lemma pseudo_castling p sr sc k m side :
  getPieceAt (boardState p) sr sc = Some k -> ptype k = KING ->
  (In m (generatePseudoLegalMoves p sr sc) /\ isCastling m = Some side <->
   In m (castlingMoves p k sr sc) /\ isCastling m = Some side).
Proof.
  intros G Hk. unfold generatePseudoLegalMoves. rewrite G. cbv zeta. rewrite Hk.
  repeat match goal with
         | |- context [String.eqb ?a ?b] =>
           let e := eval vm_compute in (String.eqb a b) in change (String.eqb a b) with e
         end.
  cbv beta iota.
  split.
  - intros [Hin Hc]. apply in_app_or in Hin as [Hin|Hin]; [|auto].
    apply steps_from in Hin as (er & ec & Hin). apply addMove_spec in Hin as (Em & _).
    rewrite Em in Hc. discriminate Hc.
  - intros [Hin Hc]. split; [apply in_or_app; right; exact Hin|exact Hc].
Qed.

(** C5: in every reachable state, a king emits a castling move toward a
    side exactly when the king has not moved and is not attacked, the
    side's castling flag of its colour is set, the own corner rook stands
    there unmoved, the squares strictly between king and rook are empty and
    the squares the king passes through or lands on are not attacked; a
    castling move lands on the king's rank, in column 6 on the king side
    and column 2 on the queen side. *)
Theorem castling_moves_generated s sr sc k side :
  reachable s ->
  getPieceAt (boardState (pos s)) sr sc = Some k -> ptype k = KING ->
  ((exists m, In m (generatePseudoLegalMoves (pos s) sr sc) /\ isCastling m = Some side) <->
   castlingAllowed (pos s) k sr sc side) /\
  (forall m, In m (generatePseudoLegalMoves (pos s) sr sc) -> isCastling m = Some side ->
   row m = sr /\ col m = castleTargetCol side).
Proof.
  intros Hr G Hk. destruct (reachable_Inv s Hr) as [[Wf U] _].
  split.
  2:{ intros m Hin Hc. destruct (pseudo_shape _ _ _ _ _ G Hin) as (_ & _ & Hs & _).
      destruct (Hs _ Hc) as (_ & ? & ?). auto. }
  split.
  - intros (m & Hin & Hc).
    destruct (proj1 (pseudo_castling _ _ _ _ m side G Hk) (conj Hin Hc)) as [Hin' _].
    unfold castlingAllowed. cbv zeta. destruct side.
    + destruct (castlingMoves_KS _ _ _ _ _ Hin' Hc)
        as (Hm & Ha & Hf & (rook & Gr & Rr & Mr) & G5 & G6 & A5 & A6).
      destruct (home_king _ _ _ _ U G Hm Hk) as [-> Hkr].
      pose proof (home_rook _ _ _ _ U Gr Mr Rr) as Hrr.
      split; [exact Hm|]. split; [exact Ha|]. split; [exact Hf|]. split.
      { exists rook. repeat split; auto.
        destruct Hkr as [[-> Ck]|[-> Ck]]; destruct Hrr as [[E Cr]|[E Cr]];
          try lia; congruence. }
      split.
      { intros j Hj. simpl in Hj. assert (j = 5 \/ j = 6) as [-> | ->] by lia; assumption. }
      { intros j Hj. assert (j = 5 \/ j = 6) as [-> | ->] by lia; assumption. }
    + destruct (castlingMoves_QS _ _ _ _ _ Hin' Hc)
        as (Hm & Ha & Hf & (rook & Gr & Rr & Mr) & G1 & G2 & G3 & A2 & A3).
      destruct (home_king _ _ _ _ U G Hm Hk) as [-> Hkr].
      pose proof (home_rook _ _ _ _ U Gr Mr Rr) as Hrr.
      split; [exact Hm|]. split; [exact Ha|]. split; [exact Hf|]. split.
      { exists rook. repeat split; auto.
        destruct Hkr as [[-> Ck]|[-> Ck]]; destruct Hrr as [[E Cr]|[E Cr]];
          try lia; congruence. }
      split.
      { intros j Hj. simpl in Hj.
        assert (j = 1 \/ j = 2 \/ j = 3) as [-> | [-> | ->]] by lia; assumption. }
      { intros j Hj. assert (j = 2 \/ j = 3) as [-> | ->] by lia; assumption. }
  - intros (Hm & Ha & Hf & (rook & Gr & Rr & Cr & Mr) & Hb & Hat).
    destruct (home_king _ _ _ _ U G Hm Hk) as [-> Hkr].
    assert (Hsr : 0 <= sr < 8) by (destruct Hkr as [[-> _]|[-> _]]; lia).
    exists (mkMoveOpts sr (castleTargetCol side) false (mkOptions None false false (Some side))).
    split; [|reflexivity].
    apply (proj2 (pseudo_castling _ _ _ _ _ side G Hk)). split; [|reflexivity].
    destruct side; simpl in Hf, Gr, Hb, Hat |- *.
    + apply (castlingMoves_KS_in _ _ _ _ rook); auto; try (apply isWithinBoard_spec; lia);
        [apply Hb | apply Hb | apply Hat | apply Hat]; lia.
    + apply (castlingMoves_QS_in _ _ _ _ rook); auto; try (apply isWithinBoard_spec; lia);
        [apply Hb | apply Hb | apply Hb | apply Hat | apply Hat]; lia.
Qed.

Lemma castling_moves_generated_witness :
  reachable italianGame /\
  getPieceAt (boardState (pos italianGame)) 7 4 = Some (mkPiece KING WHITE false) /\
  ptype (mkPiece KING WHITE false) = KING /\
  ((exists m, In m (generatePseudoLegalMoves (pos italianGame) 7 4) /\
              isCastling m = Some KingSide) <->
   castlingAllowed (pos italianGame) (mkPiece KING WHITE false) 7 4 KingSide) /\
  (forall m, In m (generatePseudoLegalMoves (pos italianGame) 7 4) ->
   isCastling m = Some KingSide -> row m = 7 /\ col m = castleTargetCol KingSide).
Proof.
  assert (R : reachable italianGame) by (apply reachable_playMoves, reach_init).
  assert (G : getPieceAt (boardState (pos italianGame)) 7 4 = Some (mkPiece KING WHITE false))
    by (vm_compute; reflexivity).
  split; [exact R|]. split; [exact G|]. split; [reflexivity|].
  exact (castling_moves_generated italianGame 7 4 _ KingSide R G eq_refl).
Defined.

(** ** C4: the recursion of [minimax] *)

Lemma eqBC_refl t : eqBC t t.
Proof. repeat split. Qed.

Lemma eqBC_trans t u w : eqBC t u -> eqBC u w -> eqBC t w.
Proof. intros (A1 & B1 & C1 & D1) (A2 & B2 & C2 & D2). repeat split; congruence. Qed.

Lemma makeMove_eqBC t u sr sc er ec pr :
  eqBC t u -> outR (makeMove t sr sc er ec pr) (makeMove u sr sc er ec pr).
Proof.
  destruct t as [p mh c st h], u as [p' mh' c' st' h'].
  intros (E1 & E2 & E3 & E4). cbn in E1, E2, E3, E4. subst.
  unfold makeMove, executeMove. cbn [pos capturedPieces moveHistory gameStatus gameStateHistory].
  repeat case_match; cbn; repeat split.
Qed.

Lemma undoMove_eqBC t u : eqBC t u -> eqBC (snd (undoMove t)) (snd (undoMove u)).
Proof.
  destruct t as [p mh c st h], u as [p' mh' c' st' h'].
  intros (E1 & E2 & E3 & E4). cbn in E1, E2, E3, E4. subst.
  unfold undoMove. cbn. destruct h'; cbn; repeat split.
Qed.

Lemma searchLoop_eqBC (child : state -> outcome score) isMax ms :
  (forall a b, eqBC a b -> outR (child a) (child b)) ->
  forall acc t u, eqBC t u ->
  outR (searchLoop child isMax ms acc t) (searchLoop child isMax ms acc u).
Proof.
  intros Hc. induction ms as [|lm rest IH]; intros acc t u H; cbn [searchLoop].
  { split; [reflexivity|exact H]. }
  pose proof (makeMove_eqBC t u (startRow lm) (startCol lm) (row (lmove lm)) (col (lmove lm))
                (promotion (lmove lm)) H) as Hm.
  destruct (makeMove t _ _ _ _ _) as [r t1|t1|], (makeMove u _ _ _ _ _) as [r' u1|u1|];
    cbn in Hm; try contradiction; [|exact Hm|exact I].
  destruct Hm as [<- Hm]. destruct (success r); [|apply IH, Hm].
  pose proof (Hc t1 u1 Hm) as Hv.
  destruct (child t1) as [v t2|t2|], (child u1) as [v' u2|u2|];
    cbn in Hv; try contradiction; [|exact Hv|exact I].
  destruct Hv as [<- Hv]. apply IH, undoMove_eqBC, Hv.
Qed.

Lemma minimax_eqBC fuel : forall depth isMax t u,
  eqBC t u -> outR (minimax fuel depth isMax t) (minimax fuel depth isMax u).
Proof.
  induction fuel as [|f IH]; intros depth isMax t u H; cbn [minimax]; [exact I|].
  pose proof H as (E1 & _ & E3 & _). unfold terminalScore. rewrite E1, E3.
  destruct (isTerminal depth (gameStatus u)); [split; [reflexivity|exact H]|].
  destruct (getAllLegalMovesForCurrentPlayer (pos u)); [split; [reflexivity|exact H]|].
  apply searchLoop_eqBC; [apply IH|exact H].
Qed.

(** After a search round from a state with legal moves, only the ledger
    may differ. *)
Lemma frame_eqBC t t' :
  Inv t -> hasLegal (pos t) = true -> searchFrame t t' -> eqBC t' t.
Proof.
  intros (_ & Hst & _) Hl (P & Hh & M & S & _). unfold statusOK in Hst. rewrite Hl in Hst.
  repeat split; auto. destruct S as [S|[_ S]]; congruence.
Qed.

Lemma searchLoop_fold (child : state -> outcome score) isMax s0 :
  childOK child -> (forall a b, eqBC a b -> outR (child a) (child b)) ->
  forall ms acc t v t',
  Inv t -> hasLegal (pos t) = true ->
  incl ms (getAllLegalMovesForCurrentPlayer (pos t)) -> eqBC t s0 ->
  searchLoop child isMax ms acc t = Ret v t' ->
  exists vs,
    Forall2 (fun lm w => exists r s1 s2,
               makeMove s0 (startRow lm) (startCol lm) (row (lmove lm)) (col (lmove lm))
                        (promotion (lmove lm)) = Ret r s1 /\
               success r = true /\ child s1 = Ret w s2) ms vs /\
    v = fold_left (if isMax then smax else smin) vs acc.
Proof.
  intros Hok Hc. induction ms as [|lm rest IH]; intros acc t v t' HI Hl Hincl H0 E.
  { cbn in E. injection E as <- _. exists []. split; [constructor|reflexivity]. }
  destruct (search_round t lm child HI Hl (Hincl lm (or_introl eq_refl)) Hok)
    as (r & s1 & Em & Hs & R).
  cbn [searchLoop] in E. rewrite Em, Hs in E.
  pose proof (makeMove_eqBC t s0 (startRow lm) (startCol lm) (row (lmove lm)) (col (lmove lm))
                (promotion (lmove lm)) H0) as Hm.
  rewrite Em in Hm.
  destruct (makeMove s0 _ _ _ _ _) as [r' u1|u1|] eqn:Em0; cbn in Hm; try contradiction.
  destruct Hm as [<- Hm].
  pose proof (Hc s1 u1 Hm) as Hv.
  destruct (child s1) as [w s2|s2|] eqn:Ec; [|discriminate E|discriminate E].
  destruct (child u1) as [w' u2|u2|] eqn:Ec0; cbn in Hv; try contradiction.
  destruct Hv as [<- _].
  destruct R as (HI3 & F3 & _). pose proof F3 as (P3 & _).
  destruct (IH _ _ _ _ HI3 ltac:(rewrite P3; exact Hl)
                ltac:(rewrite P3; intros x Hx; apply Hincl; right; exact Hx)
                (eqBC_trans _ _ _ (frame_eqBC _ _ HI Hl F3) H0) E) as (vs & Hf & Hv).
  exists (w :: vs). split.
  - constructor; [|exact Hf]. exists r, u1, u2. auto.
  - rewrite Hv. cbn. destruct isMax; reflexivity.
Qed.

(** C4: in every reachable state, [minimax(depth, isMaximizingPlayer)]
    stops at once when the depth is 0 or the status is checkmate or
    stalemate, with -Infinity (maximizing) or +Infinity (minimizing) at a
    checkmate, 0 at a stalemate and the material evaluation otherwise;
    when it does not stop and returns, its value is the max (maximizing)
    or min (minimizing) fold, from -Infinity or +Infinity, of the values
    of [minimax(depth - 1, !isMaximizingPlayer)] after each legal move
    made from the state, and there is at least one legal move. *)
Theorem minimax_recursion s f depth isMax :
  reachable s ->
  ((depth = 0 \/ isCheckmate (gameStatus s) = true \/ isStalemate (gameStatus s) = true) ->
   minimax (S f) depth isMax s =
     Ret (if isCheckmate (gameStatus s) then (if isMax then NegInf else PosInf)
          else if isStalemate (gameStatus s) then Fin 0
          else Fin (evaluateBoardMaterial (boardState (pos s)))) s) /\
  (depth <> 0 -> isCheckmate (gameStatus s) = false -> isStalemate (gameStatus s) = false ->
   forall v s', minimax (S f) depth isMax s = Ret v s' ->
   exists vs,
     Forall2 (fun lm w => exists r s1 s2,
                makeMove s (startRow lm) (startCol lm) (row (lmove lm)) (col (lmove lm))
                         (promotion (lmove lm)) = Ret r s1 /\
                success r = true /\ minimax f (depth - 1) (negb isMax) s1 = Ret w s2)
             (getAllLegalMovesForCurrentPlayer (pos s)) vs /\
     vs <> [] /\
     v = fold_left (if isMax then smax else smin) vs (if isMax then NegInf else PosInf)).
Proof.
  intros Hr. pose proof (reachable_Inv s Hr) as HI. split.
  - intros Ht. cbn [minimax]. unfold isTerminal.
    replace ((depth =? 0) || isCheckmate (gameStatus s) || isStalemate (gameStatus s)) with true.
    + reflexivity.
    + destruct Ht as [->|[->| ->]]; rewrite ?orb_true_r; reflexivity.
  - intros Hd Hm Hs v s' E. pose proof HI as (_ & Hst & _).
    assert (Hl : hasLegal (pos s) = true).
    { unfold statusOK in Hst. destruct (hasLegal (pos s)); [reflexivity|].
      destruct (isKingInCheck _ _); destruct Hst as (_ & H1 & H2 & _); congruence. }
    cbn [minimax] in E. unfold isTerminal in E. rewrite Hm, Hs in E.
    replace (depth =? 0) with false in E by (symmetry; apply Z.eqb_neq, Hd). cbn [orb] in E.
    destruct (getAllLegalMovesForCurrentPlayer (pos s)) as [|lm rest] eqn:L.
    { unfold hasLegal in Hl. rewrite L in Hl. discriminate Hl. }
    rewrite <- L in E.
    destruct (searchLoop_fold (minimax f (depth - 1) (negb isMax)) isMax s
                (minimax_Inv f (depth - 1) (negb isMax)) (minimax_eqBC f (depth - 1) (negb isMax))
                _ _ s v s' HI Hl (incl_refl _) (eqBC_refl s) E) as (vs & Hf & Hv).
    rewrite L in Hf. exists vs. split; [exact Hf|]. split; [|exact Hv].
    intros ->. inversion Hf.
Qed.

Lemma minimax_recursion_witness :
  reachable initializeGame /\
  ((1 = 0 \/ isCheckmate (gameStatus initializeGame) = true \/
    isStalemate (gameStatus initializeGame) = true) ->
   minimax 2 1 true initializeGame =
     Ret (if isCheckmate (gameStatus initializeGame) then NegInf
          else if isStalemate (gameStatus initializeGame) then Fin 0
          else Fin (evaluateBoardMaterial (boardState (pos initializeGame)))) initializeGame) /\
  (1 <> 0 -> isCheckmate (gameStatus initializeGame) = false ->
   isStalemate (gameStatus initializeGame) = false ->
   forall v s', minimax 2 1 true initializeGame = Ret v s' ->
   exists vs,
     Forall2 (fun lm w => exists r s1 s2,
                makeMove initializeGame (startRow lm) (startCol lm) (row (lmove lm))
                         (col (lmove lm)) (promotion (lmove lm)) = Ret r s1 /\
                success r = true /\ minimax 1 (1 - 1) false s1 = Ret w s2)
             (getAllLegalMovesForCurrentPlayer (pos initializeGame)) vs /\
     vs <> [] /\ v = fold_left smax vs NegInf).
Proof.
  split; [exact reach_init|].
  exact (minimax_recursion initializeGame 1 1 true reach_init).
Defined.

(** ** C2: legal moves leave the mover's king safe *)

Lemma existsb_ext' {A} (f g : A -> bool) l :
  (forall x, f x = g x) -> existsb f l = existsb g l.
Proof. intros H. induction l as [|x l IH]; simpl; [reflexivity|]. rewrite H, IH. reflexivity. Qed.

Lemma find_ext' {A} (f g : A -> bool) l :
  (forall x, f x = g x) -> find f l = find g l.
Proof. intros H. induction l as [|x l IH]; simpl; [reflexivity|]. rewrite H, IH. reflexivity. Qed.

Lemma color_eqb_true a b : color_eqb a b = true -> a = b.
Proof. destruct a, b; simpl; congruence. Qed.

Lemma opponent_neq c : opponent c <> c.
Proof. destruct c; discriminate. Qed.

Lemma boardAgree_present cur b1 b2 r c :
  boardAgree cur b1 b2 -> isPresent (getPieceAt b1 r c) = isPresent (getPieceAt b2 r c).
Proof.
  intros H. specialize (H r c).
  destruct (getPieceAt b1 r c), (getPieceAt b2 r c); simpl in H; tauto.
Qed.

Lemma slideAttacks_agree cur b1 b2 sr sc dr dc n :
  boardAgree cur b1 b2 ->
  forall i, slideAttacks b1 sr sc dr dc i n = slideAttacks b2 sr sc dr dc i n.
Proof.
  intros H. induction n as [|n IH]; intros i; simpl; [reflexivity|].
  destruct (negb (isWithinBoard (sr + i * dr) (sc + i * dc))); [reflexivity|].
  f_equal. pose proof (boardAgree_present cur b1 b2 (sr + i * dr) (sc + i * dc) H) as Hp.
  destruct (getPieceAt b1 _ _), (getPieceAt b2 _ _); simpl in Hp; try discriminate;
    [reflexivity|apply IH].
Qed.

Lemma generateAttack_agree cur b1 b2 sr sc p1 p2 :
  boardAgree cur b1 b2 -> getPieceAt b1 sr sc = Some p1 -> getPieceAt b2 sr sc = Some p2 ->
  ptype p1 = ptype p2 -> pcolor p1 = pcolor p2 ->
  generateAttackMovesIgnoringTurn b1 sr sc = generateAttackMovesIgnoringTurn b2 sr sc.
Proof.
  intros H G1 G2 Et Ec. unfold generateAttackMovesIgnoringTurn. rewrite G1, G2, Et, Ec.
  assert (S : forall dirs, addSlidingAttacks b1 sr sc dirs = addSlidingAttacks b2 sr sc dirs).
  { intros dirs. unfold addSlidingAttacks. apply flat_map_ext. intros d.
    apply (slideAttacks_agree cur), H. }
  rewrite !S. reflexivity.
Qed.

Lemma isSquareAttacked_agree cur b1 b2 r c :
  boardAgree cur b1 b2 ->
  isSquareAttacked b1 r c (opponent cur) = isSquareAttacked b2 r c (opponent cur).
Proof.
  intros H. unfold isSquareAttacked. apply existsb_ext'. intros [sr sc]. cbv beta. cbn [fst snd].
  pose proof (H sr sc) as Ha.
  destruct (getPieceAt b1 sr sc) as [p1|] eqn:G1, (getPieceAt b2 sr sc) as [p2|] eqn:G2;
    simpl in Ha; try contradiction; [|reflexivity].
  destruct Ha as (Ec & _ & Et). rewrite Ec.
  destruct (color_eqb (pcolor p2) (opponent cur)) eqn:Eo; cbn [andb]; [|reflexivity].
  apply color_eqb_true in Eo.
  assert (Hne : pcolor p1 <> cur) by (rewrite Ec, Eo; apply opponent_neq).
  rewrite (generateAttack_agree cur b1 b2 sr sc p1 p2 H G1 G2 (Et Hne) Ec). reflexivity.
Qed.

Lemma findKing_agree cur b1 b2 :
  boardAgree cur b1 b2 -> findKing b1 cur = findKing b2 cur.
Proof.
  intros H. unfold findKing. apply find_ext'. intros [r c]. cbv beta. cbn [fst snd].
  pose proof (H r c) as Ha.
  destruct (getPieceAt b1 r c), (getPieceAt b2 r c); simpl in Ha; try contradiction;
    [|reflexivity].
  destruct Ha as (Ec & Ek & _). rewrite Ec, Ek. reflexivity.
Qed.

(** [isKingInCheck] reads only what [boardAgree] keeps. *)
Lemma isKingInCheck_agree cur b1 b2 :
  boardAgree cur b1 b2 -> isKingInCheck b1 cur = isKingInCheck b2 cur.
Proof.
  intros H. unfold isKingInCheck. rewrite (findKing_agree cur b1 b2 H).
  destruct (findKing b2 cur); [apply isSquareAttacked_agree, H|reflexivity].
Qed.

Lemma cellAgree_refl cur x : cellAgree cur x x.
Proof. destruct x; simpl; auto. Qed.

Lemma cellAgree_moved cur p t h :
  String.eqb t KING = String.eqb (ptype p) KING -> (pcolor p <> cur -> t = ptype p) ->
  cellAgree cur (Some (mkPiece t (pcolor p) h)) (Some p).
Proof. intros Hk Ht. simpl. auto. Qed.

Ltac agree_leaf Hfin :=
  first [ apply cellAgree_refl
        | apply cellAgree_moved;
          [first [reflexivity | apply Hfin; reflexivity] | intros ?; first [reflexivity|contradiction]] ].

(** The board [makeMove] leaves and the scratch board of
    [getValidMovesForPiece] agree: they differ only in [hasMoved] flags and
    in the kind of a promoted pawn, when the promotion kind is not a king. *)
Lemma exec_sim_agree b sr sc pc md (applied : bool) final :
  board_wf b -> getPieceAt b sr sc = Some pc -> moveShape b pc sr sc md ->
  (forall side, isCastling md = Some side ->
     exists rook, getPieceAt b sr (rookCol side) = Some rook /\ ptype rook = ROOK) ->
  (applied = true -> String.eqb final KING = String.eqb (ptype pc) KING) ->
  boardAgree (pcolor pc)
    (if applied then setPiece (execBoard b sr sc (row md) (col md) pc md) (row md) (col md)
                                (Some (mkPiece final (pcolor pc) true))
     else execBoard b sr sc (row md) (col md) pc md)
    (simulateMove b sr sc pc md).
Proof.
  intros Hwf Hp Hs Hrook Hfin r c.
  pose proof (shape_not_start _ _ _ _ _ Hp Hs) as Hne.
  apply andb_false_iff in Hne. rewrite !Z.eqb_neq in Hne.
  destruct Hs as (W & _ & Hcast & _ & Hep).
  pose proof (within_bounds _ _ W) as [Br Bc].
  pose proof (within_bounds _ _ (getPieceAt_within _ _ _ _ Hp)) as [Bsr Bsc].
  unfold simulateMove, execBoard. cbv zeta.
  destruct (isCastling md) as [side|] eqn:Ec.
  - destruct (Hcast side eq_refl) as (Hk & Er & Ecol).
    destruct (Hrook side eq_refl) as (rook & Gr & Rr).
    assert (Hep' : isEnPassant md = false).
    { destruct (isEnPassant md); [|reflexivity].
      destruct (Hep eq_refl) as (Hpw & _). rewrite Hk in Hpw. discriminate Hpw. }
    assert (Hsc : sc <> rookCol side).
    { intros E. rewrite <- E, Hp in Gr. injection Gr as <-. rewrite Hk in Rr. discriminate Rr. }
    assert (Rr' : String.eqb (ptype rook) ROOK = true) by (rewrite Rr; reflexivity).
    rewrite Hep'. cbv beta iota. rewrite Er, Ecol in *.
    destruct side; cbn in Gr, Hsc, Hne |- *;
    repeat match goal with
           | |- context [getPieceAt ?x sr ?c0] =>
             lazymatch x with
             | b => fail
             | _ => let H := fresh in
                    assert (H : getPieceAt x sr c0 = Some rook) by (rw_get; split_sq; exact Gr);
                    rewrite H
             end
           end;
    rewrite ?Rr'; cbv beta iota;
    destruct applied; rw_get; split_sq; agree_leaf Hfin.
  - destruct (isEnPassant md) eqn:Eep.
    + destruct (Hep eq_refl) as (Hpw & Hr & Hc).
      assert (W' : isWithinBoard sr (col md) = true) by within_tac.
      rewrite W'. destruct applied; rw_get; split_sq; agree_leaf Hfin.
    + destruct applied; rw_get; split_sq; agree_leaf Hfin.
Qed.

(** A move kept by [getValidMovesForPiece] passed its scratch-board test. *)
Lemma valid_safe p sr sc pc m :
  getPieceAt (boardState p) sr sc = Some pc -> In m (getValidMovesForPiece p sr sc) ->
  isKingInCheck (simulateMove (boardState p) sr sc pc m) (currentPlayer p) = false.
Proof.
  intros Hp. unfold getValidMovesForPiece. rewrite Hp.
  destruct (negb _); [contradiction|]. intros Hin. apply filter_In in Hin as [_ H].
  apply negb_true_iff in H. exact H.
Qed.

(** The corner rook that a generated castling move relies on. *)
Lemma pseudo_castling_rook p sr sc pc m side :
  getPieceAt (boardState p) sr sc = Some pc -> ptype pc = KING ->
  In m (generatePseudoLegalMoves p sr sc) -> isCastling m = Some side ->
  exists rook, getPieceAt (boardState p) sr (rookCol side) = Some rook /\ ptype rook = ROOK.
Proof.
  intros Hp Hk Hin Hc.
  destruct (proj1 (pseudo_castling p sr sc pc m side Hp Hk) (conj Hin Hc)) as [Hin' _].
  destruct side.
  - destruct (castlingMoves_KS _ _ _ _ _ Hin' Hc) as (_ & _ & _ & (rook & Gr & Rr & _) & _).
    eauto.
  - destruct (castlingMoves_QS _ _ _ _ _ Hin' Hc) as (_ & _ & _ & (rook & Gr & Rr & _) & _).
    eauto.
Qed.

Lemma coercePromotion_nonpawn pc cur er md pr :
  String.eqb (ptype pc) PAWN = false -> promotion md = None ->
  coercePromotion pc cur er md pr = pr.
Proof.
  intros Ht Hmd. unfold coercePromotion. cbv zeta. rewrite Ht, Hmd. reflexivity.
Qed.

Lemma kinds_not_king k : In k promotionKinds -> String.eqb k KING = false.
Proof. simpl. intros [<-|[<-|[<-|[<-|[]]]]]; reflexivity. Qed.

(** C2: in every reachable state, a move that [getValidMovesForPiece]
    returns for a square, executed by [makeMove] with its own promotion
    field (with the en-passant capture and the castling rook move), succeeds
    and leaves the mover not in check: [isKingInCheck] for the colour that
    moved is false on the resulting board. *)
Theorem valid_move_keeps_king_safe s sr sc m :
  reachable s -> In m (getValidMovesForPiece (pos s) sr sc) ->
  exists r s', makeMove s sr sc (row m) (col m) (promotion m) = Ret r s' /\
    success r = true /\
    isKingInCheck (boardState (pos s')) (currentPlayer (pos s)) = false.
Proof.
  intros Hr Hin. destruct (reachable_Inv s Hr) as [[Hwf _] _].
  destruct (makeMove_found s _ _ _ (promotion m) Hin) as (pc & md & Hp & Hc & Hmd & Er & Ec & E).
  pose proof (valid_shape _ _ _ _ _ Hp Hmd) as Hs.
  pose proof (valid_shape _ _ _ _ _ Hp Hin) as Hsm.
  pose proof (coercePromotion_kindOK pc (currentPlayer (pos s)) (row md) md (promotion m)
                (fun k Ek => proj2 (proj1 (proj2 (proj2 (proj2 Hsm))) k Ek))
                (fun k Ek => proj2 (proj1 (proj2 (proj2 (proj2 Hs))) k Ek))) as Hkinds.
  destruct (executeMove_ret s sr sc pc md (promotion m) Hwf Hp Hs Hkinds) as (r & s' & Hret).
  exists r, s'. rewrite E. split; [exact Hret|]. split.
  { pose proof (executeMove_facts s sr sc (row md) (col md) pc md (promotion m)) as F.
    rewrite Hret in F. apply F. }
  pose proof (executeMove_post s sr sc pc md (promotion m) Hwf Hp Hs) as Post.
  rewrite Hret in Post. cbv zeta in Post. destruct Post as (Hb & _).
  assert (Hag : boardAgree (pcolor pc) (boardState (pos s'))
                           (simulateMove (boardState (pos s)) sr sc pc md)).
  { rewrite Hb. apply exec_sim_agree; [exact Hwf|exact Hp|exact Hs| |].
    - intros side Hcs. destruct Hs as (_ & _ & Hcast & _).
      destruct (Hcast side Hcs) as (Hk & _).
      exact (pseudo_castling_rook _ _ _ _ _ side Hp Hk (valid_in_pseudo _ _ _ _ Hmd) Hcs).
    - intros Ha. destruct (String.eqb (ptype pc) KING) eqn:Ek.
      + exfalso. apply string_eqb_true in Ek.
        assert (Pm : promotion m = None).
        { destruct (promotion m) as [k|] eqn:Pm; [|reflexivity].
          destruct (proj1 (proj2 (proj2 (proj2 Hsm))) k Pm) as [Hpw _].
          rewrite Ek in Hpw. discriminate Hpw. }
        assert (Pmd : promotion md = None).
        { destruct (promotion md) as [k|] eqn:Pmd; [|reflexivity].
          destruct (proj1 (proj2 (proj2 (proj2 Hs))) k Pmd) as [Hpw _].
          rewrite Ek in Hpw. discriminate Hpw. }
        rewrite coercePromotion_nonpawn in Ha by (rewrite ?Ek; reflexivity || exact Pmd).
        rewrite Pm, Pmd in Ha. discriminate Ha.
      + apply kinds_not_king, Hkinds, Ha. }
  rewrite <- Hc, (isKingInCheck_agree _ _ _ Hag), Hc. apply valid_safe; [exact Hp|exact Hmd].
Qed.

(** 1.e4 e5 2.Nf3 Nc6 3.Bc4 Bc5 4.O-O. *)
Lemma valid_move_keeps_king_safe_witness :
  reachable italianGame /\
  In (mkMove 7 6 false None false false (Some KingSide))
     (getValidMovesForPiece (pos italianGame) 7 4) /\
  exists r s', makeMove italianGame 7 4 7 6 None = Ret r s' /\ success r = true /\
    isKingInCheck (boardState (pos s')) (currentPlayer (pos italianGame)) = false.
Proof.
  assert (R : reachable italianGame) by (apply reachable_playMoves, reach_init).
  assert (Hin : In (mkMove 7 6 false None false false (Some KingSide))
                   (getValidMovesForPiece (pos italianGame) 7 4)).
  { assert (E : getValidMovesForPiece (pos italianGame) 7 4 =
                [mkMove 6 4 false None false false None; mkMove 7 5 false None false false None;
                 mkMove 7 6 false None false false (Some KingSide)]) by (vm_compute; reflexivity).
    rewrite E. right. right. left. reflexivity. }
  split; [exact R|]. split; [exact Hin|].
  exact (valid_move_keeps_king_safe italianGame 7 4 _ R Hin).
Defined.

(** * Further properties *)

Lemma addMove_iff b c er ec o m :
  In m (addMove b c er ec o) <->
  isWithinBoard er ec = true /\
  (forall t, getPieceAt b er ec = Some t -> pcolor t <> c) /\
  m = mkMoveOpts er ec (isPresent (getPieceAt b er ec)) o.
Proof.
  unfold addMove. destruct (isWithinBoard er ec) eqn:W; simpl.
  2:{ split; [contradiction|intros [H _]; discriminate]. }
  destruct (getPieceAt b er ec) as [t|] eqn:G.
  - destruct (color_eqb (pcolor t) c) eqn:Ct; simpl.
    + apply color_eqb_true in Ct. split; [contradiction|].
      intros (_ & H & _). exact (H t eq_refl Ct).
    + split.
      * intros [<-|[]]. split; [reflexivity|]. split; [|reflexivity].
        intros t' E. injection E as <-. apply color_eqb_false, Ct.
      * intros (_ & _ & ->). left. reflexivity.
  - split.
    + intros [<-|[]]. split; [reflexivity|]. split; [discriminate|reflexivity].
    + intros (_ & _ & ->). left. reflexivity.
Qed.

Lemma steps_iff b c sr sc offs m :
  In m (flat_map (fun d => addMove b c (sr + fst d) (sc + snd d) noOptions) offs) <->
  In (row m - sr, col m - sc) offs /\ isWithinBoard (row m) (col m) = true /\
  (forall t, getPieceAt b (row m) (col m) = Some t -> pcolor t <> c) /\
  m = mkMoveOpts (row m) (col m) (isPresent (getPieceAt b (row m) (col m))) noOptions.
Proof.
  rewrite in_flat_map. split.
  - intros ([dr dc] & Hd & Hin). apply addMove_iff in Hin as (W & Hc & Em).
    rewrite Em. cbn. replace (sr + dr - sr) with dr by lia. replace (sc + dc - sc) with dc by lia.
    repeat split; auto.
  - intros (Hd & W & Hc & Em). exists (row m - sr, col m - sc). split; [exact Hd|].
    cbn [fst snd]. replace (sr + (row m - sr)) with (row m) by lia.
    replace (sc + (col m - sc)) with (col m) by lia. apply addMove_iff. auto.
Qed.

Lemma knightOffsets_iff a b :
  In (a, b) knightOffsets <->
  (Z.abs a = 1 /\ Z.abs b = 2) \/ (Z.abs a = 2 /\ Z.abs b = 1).
Proof.
  unfold knightOffsets. simpl. split.
  - intros H. repeat destruct H as [H|H]; try contradiction; injection H as <- <-; simpl; auto.
  - intros H.
    assert (E : (a = -2 /\ b = -1) \/ (a = -2 /\ b = 1) \/ (a = -1 /\ b = -2) \/ (a = -1 /\ b = 2) \/
                (a = 1 /\ b = -2) \/ (a = 1 /\ b = 2) \/ (a = 2 /\ b = -1) \/ (a = 2 /\ b = 1)) by lia.
    repeat destruct E as [[-> ->]|E]; [..|destruct E as [-> ->]]; tauto.
Qed.

Lemma kingOffsets_iff a b :
  In (a, b) kingOffsets <-> Z.abs a <= 1 /\ Z.abs b <= 1 /\ (a, b) <> (0, 0).
Proof.
  unfold kingOffsets. simpl. split.
  - intros H. repeat destruct H as [H|H]; try contradiction; injection H as <- <-; simpl;
      (split; [lia|split; [lia|discriminate]]).
  - intros (Ha & Hb & Hn).
    assert (E : (a = -1 /\ b = -1) \/ (a = -1 /\ b = 0) \/ (a = -1 /\ b = 1) \/ (a = 0 /\ b = -1) \/
                (a = 0 /\ b = 1) \/ (a = 1 /\ b = -1) \/ (a = 1 /\ b = 0) \/ (a = 1 /\ b = 1)).
    { assert (a = 0 -> b <> 0) by (intros -> ->; apply Hn; reflexivity). lia. }
    repeat destruct E as [[-> ->]|E]; [..|destruct E as [-> ->]]; tauto.
Qed.

Ltac eval_kind Hk :=
  rewrite Hk;
  repeat match goal with
         | |- context [String.eqb ?a ?b] =>
           let e := eval vm_compute in (String.eqb a b) in change (String.eqb a b) with e
         end;
  cbv beta iota.

Lemma pseudo_pawn p sr sc pc :
  getPieceAt (boardState p) sr sc = Some pc -> ptype pc = PAWN ->
  generatePseudoLegalMoves p sr sc = pawnMoves p (pcolor pc) sr sc.
Proof. intros G Hk. unfold generatePseudoLegalMoves. rewrite G. cbv zeta. eval_kind Hk. reflexivity. Qed.

(** The shape of a pawn move (shared by the proofs below). *)
Lemma pawn_shape p sr sc pc m :
  getPieceAt (boardState p) sr sc = Some pc -> ptype pc = PAWN ->
  In m (generatePseudoLegalMoves p sr sc) ->
  let b := boardState p in
  let dir := if color_eqb (pcolor pc) WHITE then -1 else 1 in
  let startRank := if color_eqb (pcolor pc) WHITE then 6 else 1 in
  let promotionRank := if color_eqb (pcolor pc) WHITE then 0 else 7 in
  isCastling m = None /\
  (isEnPassant m = false -> (promotion m <> None <-> row m = promotionRank)) /\
  ((row m = sr + dir /\ col m = sc /\ getPieceAt b (row m) (col m) = None /\
    isEnPassant m = false /\ isDoublePawnPush m = false) \/
   (row m = sr + 2 * dir /\ col m = sc /\ sr = startRank /\
    getPieceAt b (sr + dir) sc = None /\ getPieceAt b (row m) (col m) = None /\
    isDoublePawnPush m = true /\ isEnPassant m = false /\ promotion m = None) \/
   (row m = sr + dir /\ Z.abs (col m - sc) = 1 /\ isDoublePawnPush m = false /\
    ((exists t, getPieceAt b (row m) (col m) = Some t /\ pcolor t = opponent (pcolor pc) /\
                isEnPassant m = false) \/
     (isEnPassant m = true /\ enPassantTargetSquare p = Some (row m, col m) /\
      promotion m = None)))).
Proof.
  intros G Hk Hin. rewrite (pseudo_pawn p sr sc pc G Hk) in Hin. cbv zeta.
  unfold pawnMoves in Hin. cbv zeta in Hin.
  destruct (color_eqb (pcolor pc) WHITE) eqn:Cw.
  - apply in_app_or in Hin as [Hin|Hin].
    + destruct (isWithinBoard (sr + -1) sc && negb (isPresent (getPieceAt (boardState p) (sr + -1) sc)))
        eqn:F; [|contradiction].
      apply andb_true_iff in F as [_ F]. apply negb_true_iff, isPresent_false in F.
      apply in_app_or in Hin as [Hin|Hin].
      * destruct (Z.eqb_spec (sr + -1) 0) as [Er|Er].
        -- apply addPromotions_from in Hin as (k & Hk' & Hin).
           apply addMove_iff in Hin as (_ & _ & Em). rewrite Em. cbn.
           split; [reflexivity|]. split; [intros _; split; [intros _; lia|discriminate]|].
           left. rewrite F. auto.
        -- apply addMove_iff in Hin as (_ & _ & Em). rewrite Em. cbn.
           split; [reflexivity|]. split; [intros _; split; [intros H; contradiction|lia]|].
           left. rewrite F. auto.
      * destruct (sr =? 6) eqn:S6; [|contradiction]. apply Z.eqb_eq in S6.
        destruct (isWithinBoard (sr + 2 * -1) sc &&
                  negb (isPresent (getPieceAt (boardState p) (sr + 2 * -1) sc))) eqn:F2;
          [|contradiction].
        apply andb_true_iff in F2 as [_ F2]. apply negb_true_iff, isPresent_false in F2.
        apply addMove_iff in Hin as (_ & _ & Em). rewrite Em. cbn.
        split; [reflexivity|]. split; [intros _; split; [intros H; contradiction|lia]|].
        right. left. rewrite F2. auto 10.
    + apply in_flat_map in Hin as (dc & Hdc & Hin).
      assert (Adc : Z.abs (sc + dc - sc) = 1) by (simpl in Hdc; destruct Hdc as [<-|[<-|[]]]; lia).
      destruct (isWithinBoard (sr + -1) (sc + dc)); [|contradiction].
      apply in_app_or in Hin as [Hin|Hin].
      * destruct (getPieceAt (boardState p) (sr + -1) (sc + dc)) as [t|] eqn:Gt; [|contradiction].
        destruct (color_eqb (pcolor t) (opponent (pcolor pc))) eqn:Ct; [|contradiction].
        apply color_eqb_true in Ct.
        destruct (Z.eqb_spec (sr + -1) 0) as [Er|Er].
        -- apply addPromotions_from in Hin as (k & Hk' & Hin).
           apply addMove_iff in Hin as (_ & _ & Em). rewrite Em. cbn.
           split; [reflexivity|]. split; [intros _; split; [intros _; lia|discriminate]|].
           right. right. split; [reflexivity|]. split; [exact Adc|]. split; [reflexivity|].
           left. exists t. auto.
        -- apply addMove_iff in Hin as (_ & _ & Em). rewrite Em. cbn.
           split; [reflexivity|]. split; [intros _; split; [intros H; contradiction|lia]|].
           right. right. split; [reflexivity|]. split; [exact Adc|]. split; [reflexivity|].
           left. exists t. auto.
      * destruct (enPassantTargetSquare p) as [[epr epc]|] eqn:Ep; [|contradiction].
        destruct ((sr + -1 =? fst (epr, epc)) && (sc + dc =? snd (epr, epc))) eqn:Ee;
          [|contradiction].
        apply andb_true_iff in Ee as [E1 E2]. apply Z.eqb_eq in E1, E2. cbn in E1, E2.
        apply addMove_iff in Hin as (_ & _ & Em). rewrite Em. cbn.
        split; [reflexivity|]. split; [intros H; discriminate|].
        right. right. split; [reflexivity|]. split; [exact Adc|]. split; [reflexivity|].
        right. rewrite E1, E2. auto.
  - apply in_app_or in Hin as [Hin|Hin].
    + destruct (isWithinBoard (sr + 1) sc && negb (isPresent (getPieceAt (boardState p) (sr + 1) sc)))
        eqn:F; [|contradiction].
      apply andb_true_iff in F as [_ F]. apply negb_true_iff, isPresent_false in F.
      apply in_app_or in Hin as [Hin|Hin].
      * destruct (Z.eqb_spec (sr + 1) 7) as [Er|Er].
        -- apply addPromotions_from in Hin as (k & Hk' & Hin).
           apply addMove_iff in Hin as (_ & _ & Em). rewrite Em. cbn.
           split; [reflexivity|]. split; [intros _; split; [intros _; lia|discriminate]|].
           left. rewrite F. auto.
        -- apply addMove_iff in Hin as (_ & _ & Em). rewrite Em. cbn.
           split; [reflexivity|]. split; [intros _; split; [intros H; contradiction|lia]|].
           left. rewrite F. auto.
      * destruct (sr =? 1) eqn:S6; [|contradiction]. apply Z.eqb_eq in S6.
        destruct (isWithinBoard (sr + 2 * 1) sc &&
                  negb (isPresent (getPieceAt (boardState p) (sr + 2 * 1) sc))) eqn:F2;
          [|contradiction].
        apply andb_true_iff in F2 as [_ F2]. apply negb_true_iff, isPresent_false in F2.
        apply addMove_iff in Hin as (_ & _ & Em). rewrite Em. cbn.
        split; [reflexivity|]. split; [intros _; split; [intros H; contradiction|lia]|].
        right. left. rewrite F2. auto 10.
    + apply in_flat_map in Hin as (dc & Hdc & Hin).
      assert (Adc : Z.abs (sc + dc - sc) = 1) by (simpl in Hdc; destruct Hdc as [<-|[<-|[]]]; lia).
      destruct (isWithinBoard (sr + 1) (sc + dc)); [|contradiction].
      apply in_app_or in Hin as [Hin|Hin].
      * destruct (getPieceAt (boardState p) (sr + 1) (sc + dc)) as [t|] eqn:Gt; [|contradiction].
        destruct (color_eqb (pcolor t) (opponent (pcolor pc))) eqn:Ct; [|contradiction].
        apply color_eqb_true in Ct.
        destruct (Z.eqb_spec (sr + 1) 7) as [Er|Er].
        -- apply addPromotions_from in Hin as (k & Hk' & Hin).
           apply addMove_iff in Hin as (_ & _ & Em). rewrite Em. cbn.
           split; [reflexivity|]. split; [intros _; split; [intros _; lia|discriminate]|].
           right. right. split; [reflexivity|]. split; [exact Adc|]. split; [reflexivity|].
           left. exists t. auto.
        -- apply addMove_iff in Hin as (_ & _ & Em). rewrite Em. cbn.
           split; [reflexivity|]. split; [intros _; split; [intros H; contradiction|lia]|].
           right. right. split; [reflexivity|]. split; [exact Adc|]. split; [reflexivity|].
           left. exists t. auto.
      * destruct (enPassantTargetSquare p) as [[epr epc]|] eqn:Ep; [|contradiction].
        destruct ((sr + 1 =? fst (epr, epc)) && (sc + dc =? snd (epr, epc))) eqn:Ee;
          [|contradiction].
        apply andb_true_iff in Ee as [E1 E2]. apply Z.eqb_eq in E1, E2. cbn in E1, E2.
        apply addMove_iff in Hin as (_ & _ & Em). rewrite Em. cbn.
        split; [reflexivity|]. split; [intros H; discriminate|].
        right. right. split; [reflexivity|]. split; [exact Adc|]. split; [reflexivity|].
        right. rewrite E1, E2. auto.
Qed.

Lemma castlingMoves_opts p k sr sc m :
  In m (castlingMoves p k sr sc) ->
  isDoublePawnPush m = false /\ isEnPassant m = false /\ promotion m = None.
Proof.
  unfold castlingMoves. cbv zeta. destruct (_ && _); [|contradiction].
  intros Hin. apply in_app_or in Hin as [Hin|Hin];
    [destruct (kingSide _); [|contradiction]; destruct (getPieceAt _ sr 7); [|contradiction]
    |destruct (queenSide _); [|contradiction]; destruct (getPieceAt _ sr 0); [|contradiction]];
    (destruct (_ && _); [|contradiction]);
    apply addMove_spec in Hin as (Em & _); rewrite Em; auto.
Qed.

Lemma nonpawn_opts p sr sc pc m :
  getPieceAt (boardState p) sr sc = Some pc -> ptype pc <> PAWN ->
  In m (generatePseudoLegalMoves p sr sc) ->
  isDoublePawnPush m = false /\ isEnPassant m = false /\ promotion m = None.
Proof.
  intros G Hnp. unfold generatePseudoLegalMoves. rewrite G. cbv zeta.
  destruct (String.eqb_spec (ptype pc) PAWN) as [|_]; [contradiction|].
  assert (Hno : forall er ec, In m (addMove (boardState p) (pcolor pc) er ec noOptions) ->
                isDoublePawnPush m = false /\ isEnPassant m = false /\ promotion m = None).
  { intros er ec Ha. apply addMove_spec in Ha as (Em & _). rewrite Em. auto. }
  destruct (String.eqb (ptype pc) KNIGHT).
  { intros Hin. apply steps_from in Hin as (er & ec & Hin). eauto. }
  destruct (String.eqb (ptype pc) BISHOP).
  { intros Hin. apply addSlidingMoves_from in Hin as (er & ec & Hin). eauto. }
  destruct (String.eqb (ptype pc) ROOK).
  { intros Hin. apply addSlidingMoves_from in Hin as (er & ec & Hin). eauto. }
  destruct (String.eqb (ptype pc) QUEEN).
  { intros Hin. apply addSlidingMoves_from in Hin as (er & ec & Hin). eauto. }
  destruct (String.eqb (ptype pc) KING); [|contradiction].
  intros Hin. apply in_app_or in Hin as [Hin|Hin].
  - apply steps_from in Hin as (er & ec & Hin). eauto.
  - eapply castlingMoves_opts. exact Hin.
Qed.

Lemma executeMove_ep s sr sc pc md pr :
  board_wf (boardState (pos s)) -> getPieceAt (boardState (pos s)) sr sc = Some pc ->
  moveShape (boardState (pos s)) pc sr sc md ->
  match executeMove s sr sc (row md) (col md) pc md pr with
  | Ret _ s' | Throw s' =>
    enPassantTargetSquare (pos s') =
      if isDoublePawnPush md then Some ((sr + row md) / 2, sc) else None
  | OutOfFuel => False
  end.
Proof.
  intros Hwf Hp Hs. unfold executeMove. cbv zeta.
  rewrite (applyPromotion_found _ _ _ _ _ _ _ Hwf Hp Hs). cbn iota beta.
  destruct (generateAlgebraicNotation _ _ _ _ _ _ _ _ _ _) as [n|]; cbn iota beta.
  - destruct (getPieceAt _ (row md) (col md)); reflexivity.
  - reflexivity.
Qed.

Lemma pseudo_king_steps p sr sc pc m :
  getPieceAt (boardState p) sr sc = Some pc -> ptype pc = KING ->
  (In m (generatePseudoLegalMoves p sr sc) /\ isCastling m = None <->
   In m (flat_map (fun d => addMove (boardState p) (pcolor pc) (sr + fst d) (sc + snd d) noOptions)
                  kingOffsets)).
Proof.
  intros G Hk. unfold generatePseudoLegalMoves. rewrite G. cbv zeta. eval_kind Hk.
  split.
  - intros [Hin Hc]. apply in_app_or in Hin as [Hin|Hin]; [exact Hin|].
    destruct (castlingMoves_from _ _ _ _ _ Hk Hin) as (er & ec & o & Ha & Hs1 & _).
    exfalso. apply addMove_spec in Ha as (Em & _). rewrite Em in Hc. cbn in Hc.
    unfold castlingMoves in Hin. cbv zeta in Hin.
    destruct (_ && _); [|contradiction].
    apply in_app_or in Hin as [Hin|Hin];
      [destruct (kingSide _); [|contradiction]; destruct (getPieceAt _ sr 7); [|contradiction]
      |destruct (queenSide _); [|contradiction]; destruct (getPieceAt _ sr 0); [|contradiction]];
      (destruct (_ && _); [|contradiction]);
      apply addMove_spec in Hin as (Em2 & _); rewrite Em2 in Em; injection Em as _ _ _ E;
      cbn in E; congruence.
  - intros Hin. split; [apply in_or_app; left; exact Hin|].
    apply steps_from in Hin as (er & ec & Hin). apply addMove_spec in Hin as (Em & _).
    rewrite Em. reflexivity.
Qed.

Lemma bestLoop_mem child isMax ms best bv t b v t' :
  bestLoop child isMax ms best bv t = Ret (b, v) t' ->
  b = best \/ exists lm, b = Some lm /\ In lm ms.
Proof.
  revert best bv t. induction ms as [|m rest IH]; intros best bv t; simpl.
  { intros H. injection H as <- _ _. left. reflexivity. }
  destruct (makeMove _ _ _ _ _ _) as [r s1|s1|]; [|discriminate|discriminate].
  destruct (success r).
  - destruct (child s1) as [w s2|s2|]; [|discriminate|discriminate].
    destruct (if isMax then _ else _).
    + intros H. destruct (IH _ _ _ H) as [->|(lm & -> & Hin)]; right; eauto.
    + intros H. destruct (IH _ _ _ H) as [->|(lm & -> & Hin)]; [left; reflexivity|right; eauto].
  - intros H. destruct (IH _ _ _ H) as [->|(lm & -> & Hin)]; [left; reflexivity|right; eauto].
Qed.

Lemma getBest_some_legal fuel depth s lm s' :
  getBestMoveMinimax fuel depth s = Ret (Some lm) s' ->
  In lm (getAllLegalMovesForCurrentPlayer (pos s)).
Proof.
  unfold getBestMoveMinimax.
  destruct (getAllLegalMovesForCurrentPlayer (pos s)) as [|first rest] eqn:L; [discriminate|].
  cbv zeta.
  destruct (bestLoop _ _ _ _ _ _) as [[b v] t| |] eqn:B; [|discriminate|discriminate].
  intros H. injection H as Hb _.
  destruct (bestLoop_mem _ _ _ _ _ _ _ _ _ B) as [->|(lm' & -> & Hin)].
  - injection Hb as <-. left. reflexivity.
  - injection Hb as <-. exact Hin.
Qed.

Lemma getBest_none fuel depth s s' :
  getBestMoveMinimax fuel depth s = Ret None s' ->
  getAllLegalMovesForCurrentPlayer (pos s) = [] /\ s' = s.
Proof.
  unfold getBestMoveMinimax.
  destruct (getAllLegalMovesForCurrentPlayer (pos s)) as [|first rest] eqn:L.
  { intros H. injection H as <-. auto. }
  cbv zeta.
  destruct (bestLoop _ _ _ _ _ _) as [[[b|] v] t| |]; discriminate.
Qed.

(** X1: in a reachable state, a move returned by [getBestMoveMinimax] is
    one of [getAllLegalMovesForCurrentPlayer], the search returns with the
    position it started from, and replaying the move with [makeMove] on the
    returned state, passing the move's own [promotion] as [triggerAIMove]
    does, succeeds. *)
Theorem getBestMoveMinimax_move_playable fuel depth s lm s' :
  reachable s -> getBestMoveMinimax fuel depth s = Ret (Some lm) s' ->
  In lm (getAllLegalMovesForCurrentPlayer (pos s)) /\ pos s' = pos s /\
  exists r s'', makeMove s' (startRow lm) (startCol lm) (row (lmove lm)) (col (lmove lm))
                         (promotion (lmove lm)) = Ret r s'' /\ success r = true.
Proof.
  intros R E. pose proof (getBest_some_legal _ _ _ _ _ E) as Hin.
  pose proof (getBest_Inv fuel depth s (reachable_Inv s R)) as G. rewrite E in G.
  destruct G as ((P & _) & ((Hwf & _) & _) & _).
  split; [exact Hin|]. split; [exact P|].
  apply legal_move_succeeds; [exact Hwf|]. rewrite P. exact Hin.
Qed.

Lemma getBestMoveMinimax_move_playable_witness :
  exists lm s', reachable initializeGame /\ getBestMoveMinimax 2 1 initializeGame = Ret (Some lm) s' /\
  (In lm (getAllLegalMovesForCurrentPlayer (pos initializeGame)) /\ pos s' = pos initializeGame /\
   exists r s'', makeMove s' (startRow lm) (startCol lm) (row (lmove lm)) (col (lmove lm))
                          (promotion (lmove lm)) = Ret r s'' /\ success r = true).
Proof.
  destruct (getBestMoveMinimax 2 1 initializeGame) as [[lm|] s'| |] eqn:E;
    try (vm_compute in E; discriminate E).
  exists lm, s'. split; [apply reach_init|]. split; [reflexivity|].
  exact (getBestMoveMinimax_move_playable 2 1 initializeGame lm s' reach_init E).
Defined.

(** X2: in a reachable state, [getBestMoveMinimax] returns [null] with the
    state unchanged exactly when the current player has no legal move, and
    whenever it returns [null] the state is unchanged and the game status
    is checkmate or stalemate. *)
Theorem getBestMoveMinimax_none_iff fuel depth s :
  reachable s ->
  (getBestMoveMinimax fuel depth s = Ret None s <-> getAllLegalMovesForCurrentPlayer (pos s) = []) /\
  (forall s', getBestMoveMinimax fuel depth s = Ret None s' ->
   s' = s /\ (isCheckmate (gameStatus s) = true \/ isStalemate (gameStatus s) = true)).
Proof.
  intros R. destruct (reachable_Inv s R) as (_ & Hst & _). split.
  - split.
    + intros H. apply (getBest_none _ _ _ _ H).
    + intros L. unfold getBestMoveMinimax. rewrite L. reflexivity.
  - intros s' H. destruct (getBest_none _ _ _ _ H) as [L ->]. split; [reflexivity|].
    unfold statusOK, hasLegal in Hst. rewrite L in Hst. simpl in Hst.
    destruct (isKingInCheck _ _); destruct Hst as (_ & H1 & H2 & _); auto.
Qed.

Lemma floor_index rnd n :
  (0 <= rnd < 1)%Q -> 0 < n -> 0 <= Qfloor (rnd * inject_Z n) < n.
Proof.
  intros [H0 H1] Hn. assert (Qn : (0 < inject_Z n)%Q) by (change 0%Q with (inject_Z 0); rewrite <- Zlt_Qlt; exact Hn).
  split.
  - change 0 with (Qfloor (inject_Z 0)). apply Qfloor_resp_le.
    apply Qmult_le_0_compat; [exact H0|apply Qlt_le_weak, Qn].
  - rewrite Zlt_Qlt. eapply Qle_lt_trans; [apply Qfloor_le|].
    rewrite <- (Qmult_1_l (inject_Z n)) at 2. apply Qmult_lt_compat_r; assumption.
Qed.

(** X3: in a reachable state and for a [Math.random()] value in [0, 1),
    [getRandomMoveForComputer] returns [null] exactly when there is no legal
    move; a move it returns is one of the legal moves, and [makeMove] with
    that move succeeds. *)
Theorem getRandomMoveForComputer_legal s rnd :
  reachable s -> (0 <= rnd < 1)%Q ->
  (getRandomMoveForComputer (pos s) rnd = None <-> getAllLegalMovesForCurrentPlayer (pos s) = []) /\
  (forall lm, getRandomMoveForComputer (pos s) rnd = Some lm ->
   In lm (getAllLegalMovesForCurrentPlayer (pos s)) /\
   exists r s', makeMove s (startRow lm) (startCol lm) (row (lmove lm)) (col (lmove lm))
                         (promotion (lmove lm)) = Ret r s' /\ success r = true).
Proof.
  intros R Hr. destruct (reachable_Inv s R) as ((Hwf & _) & _).
  unfold getRandomMoveForComputer. cbv zeta.
  destruct (getAllLegalMovesForCurrentPlayer (pos s)) as [|m0 rest] eqn:L.
  { split; [tauto|]. intros lm H. discriminate H. }
  change (Nat.eqb (length (m0 :: rest)) 0) with false. cbv iota.
  pose proof (floor_index rnd (Z.of_nat (length (m0 :: rest))) Hr ltac:(simpl; lia)) as [F0 F1].
  rewrite (proj2 (Z.ltb_ge _ _) F0).
  destruct (nth_error (m0 :: rest) _) as [lm|] eqn:N.
  - split; [split; [discriminate|discriminate]|].
    intros lm' E. injection E as <-.
    assert (Hin : In lm (getAllLegalMovesForCurrentPlayer (pos s)))
      by (rewrite L; eapply nth_error_In; exact N).
    split; [rewrite <- L; exact Hin|]. apply legal_move_succeeds; assumption.
  - exfalso. apply nth_error_None in N. lia.
Qed.

Lemma getRandomMoveForComputer_legal_witness :
  reachable initializeGame /\ (0 <= 1#2 < 1)%Q /\
  ((getRandomMoveForComputer (pos initializeGame) (1#2) = None <->
    getAllLegalMovesForCurrentPlayer (pos initializeGame) = []) /\
   (forall lm, getRandomMoveForComputer (pos initializeGame) (1#2) = Some lm ->
    In lm (getAllLegalMovesForCurrentPlayer (pos initializeGame)) /\
    exists r s', makeMove initializeGame (startRow lm) (startCol lm) (row (lmove lm))
                          (col (lmove lm)) (promotion (lmove lm)) = Ret r s' /\ success r = true)).
Proof.
  assert (H : (0 <= 1#2 < 1)%Q) by (split; vm_compute; [discriminate|reflexivity]).
  split; [apply reach_init|]. split; [exact H|].
  exact (getRandomMoveForComputer_legal initializeGame (1#2) reach_init H).
Defined.

Lemma valid_move_succeeds_kind s sr sc m pr :
  board_wf (boardState (pos s)) -> kindOK pr ->
  In m (getValidMovesForPiece (pos s) sr sc) ->
  exists r s', makeMove s sr sc (row m) (col m) pr = Ret r s' /\ success r = true.
Proof.
  intros Hwf Hpr Hin.
  destruct (makeMove_found s _ _ _ pr Hin) as (pc & md & Hp & _ & Hmd & Er & Ec & E).
  pose proof (valid_shape _ _ _ _ _ Hp Hmd) as Hs.
  destruct (executeMove_ret s _ _ pc md pr Hwf Hp Hs) as (r & s' & Hret).
  { cbv zeta. apply coercePromotion_kindOK; [exact Hpr|].
    intros k Ek. apply (proj1 (proj2 (proj2 (proj2 Hs))) k Ek). }
  exists r, s'. rewrite E. split; [exact Hret|].
  pose proof (executeMove_facts s sr sc (row md) (col md) pc md pr) as F.
  rewrite Hret in F. apply F.
Qed.

(** X4: in a reachable state, [makeMove] to the destination of any move
    of [getValidMovesForPiece] succeeds when the promotion argument is
    [null] or one of queen, rook, bishop, knight. *)
Theorem makeMove_valid_destination_succeeds s sr sc m pr :
  reachable s -> In m (getValidMovesForPiece (pos s) sr sc) ->
  (pr = None \/ exists k, pr = Some k /\ In k promotionKinds) ->
  exists r s', makeMove s sr sc (row m) (col m) pr = Ret r s' /\ success r = true.
Proof.
  intros R Hin Hpr. destruct (reachable_Inv s R) as ((Hwf & _) & _).
  apply valid_move_succeeds_kind; [exact Hwf| |exact Hin].
  intros k Ek. destruct Hpr as [->|(k' & -> & Hk)]; [discriminate|injection Ek as <-; exact Hk].
Qed.

Lemma makeMove_valid_destination_succeeds_witness :
  reachable italianGame /\
  In (mkMove 7 6 false None false false (Some KingSide))
     (getValidMovesForPiece (pos italianGame) 7 4) /\
  exists r s', makeMove italianGame 7 4 7 6 None = Ret r s' /\ success r = true.
Proof.
  assert (R : reachable italianGame) by (apply reachable_playMoves, reach_init).
  assert (Hin : In (mkMove 7 6 false None false false (Some KingSide))
                   (getValidMovesForPiece (pos italianGame) 7 4)).
  { assert (E : getValidMovesForPiece (pos italianGame) 7 4 =
                [mkMove 6 4 false None false false None; mkMove 7 5 false None false false None;
                 mkMove 7 6 false None false false (Some KingSide)]) by (vm_compute; reflexivity).
    rewrite E. right. right. left. reflexivity. }
  split; [exact R|]. split; [exact Hin|].
  exact (makeMove_valid_destination_succeeds italianGame 7 4 _ None R Hin (or_introl eq_refl)).
Defined.

Lemma kinds_truthy k : In k promotionKinds -> truthyStr (Some k) = true.
Proof. simpl. intros [<-|[<-|[<-|[<-|[]]]]]; reflexivity. Qed.

(** X5: in a reachable state, a legal move of a piece that is not a pawn,
    made with a promotion argument among queen, rook, bishop, knight,
    succeeds and leaves a piece of that kind (the mover's colour, moved) on
    the destination square: the argument is applied to any piece. *)
Theorem makeMove_promotion_arg_changes_piece s sr sc m pc k :
  reachable s -> getPieceAt (boardState (pos s)) sr sc = Some pc -> ptype pc <> PAWN ->
  In m (getValidMovesForPiece (pos s) sr sc) -> In k promotionKinds ->
  exists r s', makeMove s sr sc (row m) (col m) (Some k) = Ret r s' /\ success r = true /\
    getPieceAt (boardState (pos s')) (row m) (col m) = Some (mkPiece k (pcolor pc) true).
Proof.
  intros R Hp0 Hnp Hin Hk. destruct (reachable_Inv s R) as ((Hwf & _) & _).
  destruct (makeMove_found s _ _ _ (Some k) Hin) as (pc' & md & Hp & _ & Hmd & Er & Ec & E).
  rewrite Hp0 in Hp. injection Hp as <-.
  pose proof (valid_shape _ _ _ _ _ Hp0 Hmd) as Hs.
  assert (Pmd : promotion md = None).
  { destruct (promotion md) as [k'|] eqn:Pmd; [|reflexivity].
    destruct (proj1 (proj2 (proj2 (proj2 Hs))) k' Pmd) as [Hpw _]. contradiction. }
  assert (Hco : coercePromotion pc (currentPlayer (pos s)) (row md) md (Some k) = Some k).
  { apply coercePromotion_nonpawn; [|exact Pmd].
    destruct (String.eqb_spec (ptype pc) PAWN); [contradiction|reflexivity]. }
  assert (Hfin : jsString (orStr (Some k) (promotion md)) = k).
  { unfold orStr. rewrite kinds_truthy by exact Hk. reflexivity. }
  destruct (executeMove_ret s sr sc pc md (Some k) Hwf Hp0 Hs) as (r & s' & Hret).
  { cbv zeta. rewrite Hco, Hfin. intros _. exact Hk. }
  exists r, s'. rewrite E. split; [exact Hret|].
  pose proof (executeMove_facts s sr sc (row md) (col md) pc md (Some k)) as F.
  rewrite Hret in F. split; [apply F|].
  pose proof (executeMove_post s sr sc pc md (Some k) Hwf Hp0 Hs) as P. cbv zeta in P.
  rewrite Hret in P. destruct P as (Hb & _).
  rewrite Hco, Hfin, (kinds_truthy k Hk), orb_true_r in Hb. rewrite Hb, <- Er, <- Ec.
  rewrite getPieceAt_setPiece_eq; [reflexivity|apply execBoard_wf, Hwf|apply (proj1 Hs)].
Qed.

(** 3.Bc4 Bc5 and then Ng5 with the argument 'queen'. *)
Lemma makeMove_promotion_arg_changes_piece_witness :
  reachable italianGame /\
  getPieceAt (boardState (pos italianGame)) 5 5 = Some (mkPiece KNIGHT WHITE true) /\
  In (mkMove 3 6 false None false false None) (getValidMovesForPiece (pos italianGame) 5 5) /\
  exists r s', makeMove italianGame 5 5 3 6 (Some QUEEN) = Ret r s' /\ success r = true /\
    getPieceAt (boardState (pos s')) 3 6 = Some (mkPiece QUEEN WHITE true).
Proof.
  assert (R : reachable italianGame) by (apply reachable_playMoves, reach_init).
  assert (G : getPieceAt (boardState (pos italianGame)) 5 5 = Some (mkPiece KNIGHT WHITE true))
    by (vm_compute; reflexivity).
  assert (Hin : In (mkMove 3 6 false None false false None)
                   (getValidMovesForPiece (pos italianGame) 5 5)).
  { assert (E : getValidMovesForPiece (pos italianGame) 5 5 =
                [mkMove 3 4 true None false false None; mkMove 3 6 false None false false None;
                 mkMove 4 3 false None false false None; mkMove 4 7 false None false false None;
                 mkMove 7 6 false None false false None]) by (vm_compute; reflexivity).
    rewrite E. right. left. reflexivity. }
  split; [exact R|]. split; [exact G|]. split; [exact Hin|].
  exact (makeMove_promotion_arg_changes_piece italianGame 5 5 _ _ QUEEN R G
           ltac:(discriminate) Hin ltac:(left; reflexivity)).
Defined.

Lemma executeMove_ledger s sr sc er ec pc md pr :
  match executeMove s sr sc er ec pc md pr with
  | Ret r s' =>
    resCaptured r = capturedOf (boardState (pos s)) sr er ec md /\
    capturedPieces s' = match resCaptured r with
                        | Some cp => pushCaptured (capturedPieces s) (currentPlayer (pos s))
                                                  (capEntryOf cp)
                        | None => capturedPieces s
                        end
  | _ => True
  end.
Proof.
  unfold executeMove. cbv zeta.
  destruct (applyPromotion _ _ _ _ _) as [b4|]; cbn iota beta; [|exact I].
  destruct (generateAlgebraicNotation _ _ _ _ _ _ _ _ _ _) as [n|]; cbn iota beta; [|exact I].
  destruct (getPieceAt b4 er ec); cbn iota beta; [|exact I].
  split; reflexivity.
Qed.


(** X7: after a sequence of n successful [makeMove] calls, n calls of
    [undoMove] restore the position, the undo history and the move log of
    the starting state. *)
Theorem makeMoves_undoTimes_restore mvs s t :
  makeMovesOK s mvs = Some t ->
  pos (undoTimes (length mvs) t) = pos s /\
  gameStateHistory (undoTimes (length mvs) t) = gameStateHistory s /\
  moveHistory (undoTimes (length mvs) t) = moveHistory s.
Proof.
  revert s. induction mvs as [|[[[[sr sc] er] ec] pr] rest IH]; intros s H; simpl in H.
  { injection H as <-. auto. }
  destruct (makeMove s sr sc er ec pr) as [r s1| |] eqn:E; try discriminate.
  destruct (success r) eqn:Hs; [|discriminate].
  destruct (IH s1 H) as (P & Hh & Hm).
  destruct (makeMove_ret_cases _ _ _ _ _ _ _ _ E) as [[-> _]|(_ & Hh1 & Hm1)]; [discriminate|].
  cbn [length undoTimes]. unfold undoMove. rewrite Hh, Hh1. simpl. rewrite Hm, Hm1. auto.
Qed.

Lemma makeMoves_undoTimes_restore_witness :
  exists t, makeMovesOK initializeGame
    [(6, 4, 4, 4, None); (1, 4, 3, 4, None); (7, 6, 5, 5, None)] = Some t /\
  pos (undoTimes 3 t) = pos initializeGame /\
  gameStateHistory (undoTimes 3 t) = gameStateHistory initializeGame /\
  moveHistory (undoTimes 3 t) = moveHistory initializeGame.
Proof.
  destruct (makeMovesOK initializeGame [(6, 4, 4, 4, None); (1, 4, 3, 4, None); (7, 6, 5, 5, None)])
    as [t|] eqn:E; [|vm_compute in E; discriminate E].
  exists t. split; [reflexivity|].
  exact (makeMoves_undoTimes_restore _ initializeGame t E).
Defined.

(** X8: in a reachable state, a completed [minimax] search never throws
    and returns with the position, the undo history, the move log and the
    game status it started from. *)
Theorem minimax_keeps_game fuel depth isMax s :
  reachable s ->
  match minimax fuel depth isMax s with
  | Ret _ s' => pos s' = pos s /\ gameStateHistory s' = gameStateHistory s /\
                moveHistory s' = moveHistory s /\ gameStatus s' = gameStatus s
  | Throw _ => False
  | OutOfFuel => True
  end.
Proof.
  intros R. pose proof (reachable_Inv s R) as HI. pose proof HI as (_ & Hst & _).
  pose proof (minimax_Inv fuel depth isMax s HI) as M.
  destruct (minimax fuel depth isMax s) as [v s'| |]; [|exact M|exact I].
  destruct M as [(P & Hh & Hm & S & _) _]. repeat split; auto.
  destruct S as [S|[Hl S]]; [exact S|]. rewrite S. symmetry. apply statusOK_legal; assumption.
Qed.

Lemma minimax_keeps_game_witness :
  reachable italianGame /\
  match minimax 3 2 true italianGame with
  | Ret _ s' => pos s' = pos italianGame /\ gameStateHistory s' = gameStateHistory italianGame /\
                moveHistory s' = moveHistory italianGame /\
                gameStatus s' = gameStatus italianGame
  | Throw _ => False
  | OutOfFuel => True
  end.
Proof.
  assert (R : reachable italianGame) by (apply reachable_playMoves, reach_init).
  split; [exact R|]. exact (minimax_keeps_game 3 2 true italianGame R).
Defined.

(** X9: the pseudo-legal moves of a knight are exactly the plain moves to
    on-board squares an L-shape away that do not hold a piece of the
    knight's colour, flagged as a capture when the square is occupied. *)
Theorem knight_moves_exact p sr sc pc m :
  getPieceAt (boardState p) sr sc = Some pc -> ptype pc = KNIGHT ->
  (In m (generatePseudoLegalMoves p sr sc) <->
   ((Z.abs (row m - sr) = 1 /\ Z.abs (col m - sc) = 2) \/
    (Z.abs (row m - sr) = 2 /\ Z.abs (col m - sc) = 1)) /\
   isWithinBoard (row m) (col m) = true /\
   (forall t, getPieceAt (boardState p) (row m) (col m) = Some t -> pcolor t <> pcolor pc) /\
   m = mkMove (row m) (col m) (isPresent (getPieceAt (boardState p) (row m) (col m)))
              None false false None).
Proof.
  intros G Hk. unfold generatePseudoLegalMoves. rewrite G. cbv zeta. eval_kind Hk.
  rewrite steps_iff, knightOffsets_iff. reflexivity.
Qed.

(** X10: the non-castling pseudo-legal moves of a king are exactly the plain
    moves to the on-board neighbouring squares that do not hold a piece of
    the king's colour, flagged as a capture when the square is occupied. *)
Theorem king_step_moves_exact p sr sc pc m :
  getPieceAt (boardState p) sr sc = Some pc -> ptype pc = KING ->
  (In m (generatePseudoLegalMoves p sr sc) /\ isCastling m = None <->
   Z.abs (row m - sr) <= 1 /\ Z.abs (col m - sc) <= 1 /\ (row m, col m) <> (sr, sc) /\
   isWithinBoard (row m) (col m) = true /\
   (forall t, getPieceAt (boardState p) (row m) (col m) = Some t -> pcolor t <> pcolor pc) /\
   m = mkMove (row m) (col m) (isPresent (getPieceAt (boardState p) (row m) (col m)))
              None false false None).
Proof.
  intros G Hk. rewrite (pseudo_king_steps p sr sc pc m G Hk), steps_iff, kingOffsets_iff.
  split.
  - intros ((H1 & H2 & H3) & R). split; [exact H1|]. split; [exact H2|]. split; [|exact R].
    intros E. injection E as E1 E2. apply H3. rewrite E1, E2, !Z.sub_diag. reflexivity.
  - intros (H1 & H2 & H3 & R). split; [|exact R]. split; [exact H1|]. split; [exact H2|].
    intros E. injection E as E1 E2. apply H3. f_equal; lia.
Qed.

Lemma slideMoves_iff b c sr sc dr dc n : forall i m,
  In m (slideMoves b c sr sc dr dc i n) <->
  exists k, i <= k < i + Z.of_nat n /\ row m = sr + k * dr /\ col m = sc + k * dc /\
    (forall j, i <= j <= k -> isWithinBoard (sr + j * dr) (sc + j * dc) = true) /\
    (forall j, i <= j < k -> getPieceAt b (sr + j * dr) (sc + j * dc) = None) /\
    (forall t, getPieceAt b (row m) (col m) = Some t -> pcolor t <> c) /\
    m = mkMoveOpts (row m) (col m) (isPresent (getPieceAt b (row m) (col m))) noOptions.
Proof.
  induction n as [|n IH]; intros i m; cbn [slideMoves].
  { split; [contradiction|]. intros (k & Hk & _). lia. }
  destruct (isWithinBoard (sr + i * dr) (sc + i * dc)) eqn:W; cbn [negb].
  2:{ split; [contradiction|]. intros (k & Hk & _ & _ & Hw & _).
      rewrite (Hw i ltac:(lia)) in W. discriminate. }
  assert (Here : In m (addMove b c (sr + i * dr) (sc + i * dc) noOptions) <->
                 row m = sr + i * dr /\ col m = sc + i * dc /\
                 (forall t, getPieceAt b (row m) (col m) = Some t -> pcolor t <> c) /\
                 m = mkMoveOpts (row m) (col m) (isPresent (getPieceAt b (row m) (col m))) noOptions).
  { rewrite addMove_iff. split.
    - intros (_ & Hc & Em). rewrite Em. cbn. rewrite <- Em. auto.
    - intros (E1 & E2 & Hc & Em). rewrite <- E1, <- E2. rewrite E1, E2 at 1 2.
      split; [exact W|]. rewrite <- E1, <- E2. auto. }
  destruct (getPieceAt b (sr + i * dr) (sc + i * dc)) as [t|] eqn:G.
  - assert (Ki : forall k, (forall j, i <= j < k -> getPieceAt b (sr + j * dr) (sc + j * dc) = None) ->
                 i <= k -> k = i).
    { intros k Hg Hk. destruct (Z.eq_dec k i) as [->|Hne]; [reflexivity|].
      rewrite (Hg i ltac:(lia)) in G. discriminate. }
    destruct (color_eqb (pcolor t) (opponent c)) eqn:Ct.
    + rewrite Here. split.
      * intros (E1 & E2 & Hc & Em). exists i. split; [lia|]. split; [exact E1|].
        split; [exact E2|]. split; [intros j Hj; replace j with i by lia; exact W|].
        split; [intros j Hj; lia|]. auto.
      * intros (k & Hk & E1 & E2 & _ & Hg & Hc & Em). pose proof (Ki k Hg (proj1 Hk)) as ->.
        auto.
    + split; [contradiction|]. intros (k & Hk & E1 & E2 & _ & Hg & Hc & Em).
      pose proof (Ki k Hg (proj1 Hk)) as ->. rewrite <- E1, <- E2 in G.
      apply (Hc t G). apply color_eqb_false in Ct.
      destruct (pcolor t), c; simpl in Ct; congruence.
  - rewrite in_app_iff, Here, IH. split.
    + intros [(E1 & E2 & Hc & Em)|(k & Hk & E1 & E2 & Hw & Hg & Hc & Em)].
      * exists i. split; [lia|]. split; [exact E1|]. split; [exact E2|].
        split; [intros j Hj; replace j with i by lia; exact W|].
        split; [intros j Hj; lia|]. auto.
      * exists k. split; [lia|]. split; [exact E1|]. split; [exact E2|].
        split; [intros j Hj; destruct (Z.eq_dec j i) as [->|]; [exact W|apply Hw; lia]|].
        split; [intros j Hj; destruct (Z.eq_dec j i) as [->|]; [exact G|apply Hg; lia]|]. auto.
    + intros (k & Hk & E1 & E2 & Hw & Hg & Hc & Em).
      destruct (Z.eq_dec k i) as [->|Hne]; [left; auto|right].
      exists k. split; [lia|]. split; [exact E1|]. split; [exact E2|].
      split; [intros j Hj; apply Hw; lia|]. split; [intros j Hj; apply Hg; lia|]. auto.
Qed.

Lemma queenDirs_ray sr sc dr dc k :
  In (dr, dc) queenDirs -> isWithinBoard sr sc = true ->
  isWithinBoard (sr + k * dr) (sc + k * dc) = true -> 1 <= k ->
  k < 9 /\ forall j, 1 <= j <= k -> isWithinBoard (sr + j * dr) (sc + j * dc) = true.
Proof.
  intros Hd W0 Wk Hk. rewrite isWithinBoard_spec in W0, Wk.
  unfold queenDirs, bishopDirs, rookDirs in Hd. simpl in Hd.
  repeat destruct Hd as [Hd|Hd]; try contradiction; injection Hd as <- <-;
    (split; [lia|intros j Hj; apply isWithinBoard_spec; lia]).
Qed.

Lemma addSlidingMoves_iff b c sr sc dirs m :
  incl dirs queenDirs -> isWithinBoard sr sc = true ->
  (In m (addSlidingMoves b c sr sc dirs) <->
   exists dr dc k, In (dr, dc) dirs /\ 1 <= k /\ row m = sr + k * dr /\ col m = sc + k * dc /\
     isWithinBoard (row m) (col m) = true /\
     (forall j, 1 <= j < k -> getPieceAt b (sr + j * dr) (sc + j * dc) = None) /\
     (forall t, getPieceAt b (row m) (col m) = Some t -> pcolor t <> c) /\
     m = mkMove (row m) (col m) (isPresent (getPieceAt b (row m) (col m))) None false false None).
Proof.
  intros Hincl W0. unfold addSlidingMoves. rewrite in_flat_map. split.
  - intros ([dr dc] & Hd & Hin). apply slideMoves_iff in Hin as (k & Hk & E1 & E2 & Hw & Hg & Hc & Em).
    exists dr, dc, k. split; [exact Hd|]. split; [lia|]. split; [exact E1|]. split; [exact E2|].
    split; [rewrite E1, E2; apply Hw; lia|]. split; [exact Hg|]. split; [exact Hc|].
    exact Em.
  - intros (dr & dc & k & Hd & Hk & E1 & E2 & Wk & Hg & Hc & Em).
    rewrite E1, E2 in Wk. destruct (queenDirs_ray sr sc dr dc k (Hincl _ Hd) W0 Wk Hk) as [K9 Hw].
    exists (dr, dc). split; [exact Hd|]. apply slideMoves_iff.
    exists k. split; [simpl; lia|]. split; [exact E1|]. split; [exact E2|].
    split; [exact Hw|]. split; [exact Hg|]. split; [exact Hc|]. exact Em.
Qed.

(** X11: the pseudo-legal moves of a rook, bishop or queen are exactly the
    plain moves k >= 1 steps along one of its directions to an on-board
    square with every square in between empty and no piece of its own
    colour on the target, flagged as a capture when the target is
    occupied. *)
Theorem slider_moves_exact p sr sc pc dirs m :
  getPieceAt (boardState p) sr sc = Some pc ->
  (ptype pc = ROOK /\ dirs = rookDirs \/ ptype pc = BISHOP /\ dirs = bishopDirs \/
   ptype pc = QUEEN /\ dirs = queenDirs) ->
  (In m (generatePseudoLegalMoves p sr sc) <->
   exists dr dc k, In (dr, dc) dirs /\ 1 <= k /\ row m = sr + k * dr /\ col m = sc + k * dc /\
     isWithinBoard (row m) (col m) = true /\
     (forall j, 1 <= j < k -> getPieceAt (boardState p) (sr + j * dr) (sc + j * dc) = None) /\
     (forall t, getPieceAt (boardState p) (row m) (col m) = Some t -> pcolor t <> pcolor pc) /\
     m = mkMove (row m) (col m) (isPresent (getPieceAt (boardState p) (row m) (col m)))
                None false false None).
Proof.
  intros G Ht. pose proof (getPieceAt_within _ _ _ _ G) as W0.
  unfold generatePseudoLegalMoves. rewrite G. cbv zeta.
  destruct Ht as [[Hk ->]|[[Hk ->]|[Hk ->]]]; eval_kind Hk; apply addSlidingMoves_iff;
    try exact W0; first [exact (incl_refl _)|intros d Hd; apply in_or_app; auto].
Qed.

(** X12: every pseudo-legal pawn move is a single step forward onto an
    empty square, a double step from the start rank over two empty squares
    (flagged as double push, no promotion), or a diagonal step onto an
    opponent piece or onto the en-passant target; it never castles, and a
    non-en-passant move carries a promotion exactly when it reaches the
    last rank. *)
Theorem pawn_moves_shape p sr sc pc m :
  getPieceAt (boardState p) sr sc = Some pc -> ptype pc = PAWN ->
  In m (generatePseudoLegalMoves p sr sc) ->
  let b := boardState p in
  let dir := if color_eqb (pcolor pc) WHITE then -1 else 1 in
  let startRank := if color_eqb (pcolor pc) WHITE then 6 else 1 in
  let promotionRank := if color_eqb (pcolor pc) WHITE then 0 else 7 in
  isCastling m = None /\
  (isEnPassant m = false -> (promotion m <> None <-> row m = promotionRank)) /\
  ((row m = sr + dir /\ col m = sc /\ getPieceAt b (row m) (col m) = None /\
    isEnPassant m = false /\ isDoublePawnPush m = false) \/
   (row m = sr + 2 * dir /\ col m = sc /\ sr = startRank /\
    getPieceAt b (sr + dir) sc = None /\ getPieceAt b (row m) (col m) = None /\
    isDoublePawnPush m = true /\ isEnPassant m = false /\ promotion m = None) \/
   (row m = sr + dir /\ Z.abs (col m - sc) = 1 /\ isDoublePawnPush m = false /\
    ((exists t, getPieceAt b (row m) (col m) = Some t /\ pcolor t = opponent (pcolor pc) /\
                isEnPassant m = false) \/
     (isEnPassant m = true /\ enPassantTargetSquare p = Some (row m, col m) /\
      promotion m = None)))).
Proof. exact (pawn_shape p sr sc pc m). Qed.

(** X13: a pseudo-legal move's [isCapture] flag is true exactly when its
    destination square holds a piece (so it is false for en passant). *)
Theorem pseudo_isCapture_occupied p sr sc m :
  In m (generatePseudoLegalMoves p sr sc) ->
  isCapture m = isPresent (getPieceAt (boardState p) (row m) (col m)).
Proof.
  intros Hin. destruct (getPieceAt (boardState p) sr sc) as [pc|] eqn:G.
  2:{ unfold generatePseudoLegalMoves in Hin. rewrite G in Hin. contradiction. }
  destruct (pseudo_from p sr sc pc m G Hin) as (er & ec & o & Ha & _).
  apply addMove_iff in Ha as (_ & _ & Em). rewrite Em. reflexivity.
Qed.

(** X14: after a successful [makeMove] on a well-formed board, the
    en-passant target is the square passed over when a pawn moved two rows,
    and null otherwise. *)
Theorem makeMove_sets_enPassant s sr sc er ec pr r s' :
  board_wf (boardState (pos s)) ->
  makeMove s sr sc er ec pr = Ret r s' -> success r = true ->
  enPassantTargetSquare (pos s') =
    match getPieceAt (boardState (pos s)) sr sc with
    | Some pc => if String.eqb (ptype pc) PAWN && (Z.abs (er - sr) =? 2)
                 then Some ((sr + er) / 2, sc) else None
    | None => None
    end.
Proof.
  intros Hwf H Hsuc. destruct (makeMove_cases s sr sc er ec pr) as [E|(pc & md & Hp & _ & F & E)];
    rewrite E in H.
  { injection H as <- _. discriminate. }
  apply findMove_spec in F as (Hmd & <- & <-).
  pose proof (valid_shape _ _ _ _ _ Hp Hmd) as Hs.
  pose proof (executeMove_ep s sr sc pc md pr Hwf Hp Hs) as Ep. rewrite H in Ep. rewrite Ep, Hp.
  pose proof (valid_in_pseudo _ _ _ _ Hmd) as Hps.
  destruct (String.eqb_spec (ptype pc) PAWN) as [Hk|Hk].
  - pose proof (pawn_shape _ _ _ _ _ Hp Hk Hps) as (_ & _ & C). cbv zeta in C.
    destruct (color_eqb (pcolor pc) WHITE);
      (destruct C as [(E1 & _ & _ & _ & ->)|[(E1 & _ & _ & _ & _ & -> & _)|(E1 & _ & -> & _)]];
       rewrite E1; cbn [andb]; [rewrite (proj2 (Z.eqb_neq _ _)) by lia; reflexivity
                               |rewrite (proj2 (Z.eqb_eq _ _)) by lia; reflexivity
                               |rewrite (proj2 (Z.eqb_neq _ _)) by lia; reflexivity]).
  - destruct (nonpawn_opts _ _ _ _ _ Hp Hk Hps) as (-> & _). reflexivity.
Qed.

Lemma rights_of_set cr c r : rights_of (set_rights cr c r) c = r.
Proof. destruct c; reflexivity. Qed.

Lemma updateCapturedRights_own cr cur cp er ec :
  rights_of (updateCapturedRights cr cur cp er ec) cur = rights_of cr cur.
Proof.
  unfold updateCapturedRights. destruct cp as [x|]; [|reflexivity].
  destruct (String.eqb (ptype x) ROOK); [|reflexivity]. cbv zeta.
  destruct (er =? _); [|reflexivity]. destruct cur; reflexivity.
Qed.

Lemma updateCapturedRights_norook cr cur cp er ec :
  (forall x, cp = Some x -> ptype x <> ROOK) -> updateCapturedRights cr cur cp er ec = cr.
Proof.
  intros H. unfold updateCapturedRights. destruct cp as [x|]; [|reflexivity].
  destruct (String.eqb_spec (ptype x) ROOK) as [E|_]; [exfalso; exact (H x eq_refl E)|reflexivity].
Qed.

Lemma updateOwnRights_other cr cur t sr sc :
  t <> KING -> t <> ROOK -> updateOwnRights cr cur t sr sc = cr.
Proof.
  intros H1 H2. unfold updateOwnRights.
  destruct (String.eqb_spec t KING); [contradiction|]. destruct (String.eqb_spec t ROOK); [contradiction|].
  reflexivity.
Qed.

(** The kind the moved piece ends up with when [makeMove] gets no promotion
    argument: its own, or a queen for a pawn. *)
Lemma moving_type_none p sr sc pc md :
  getPieceAt (boardState p) sr sc = Some pc -> In md (getValidMovesForPiece p sr sc) ->
  let promo := coercePromotion pc (currentPlayer p) (row md) md None in
  let applied := truthyStr (promotion md) || truthyStr promo in
  let final := jsString (orStr promo (promotion md)) in
  (if applied then final else ptype pc) = ptype pc \/
  (ptype pc = PAWN /\ (if applied then final else ptype pc) = QUEEN).
Proof.
  intros G Hmd. cbv zeta. pose proof (valid_color _ _ _ _ _ Hmd G) as Hc.
  pose proof (valid_in_pseudo _ _ _ _ Hmd) as Hps.
  destruct (String.eqb_spec (ptype pc) PAWN) as [Hk|Hk].
  - destruct (Z.eqb_spec (row md) (if color_eqb (currentPlayer p) WHITE then 0 else 7)) as [Er|Er].
    + rewrite Er, coercePromotion_queen by (auto). right. split; [exact Hk|].
      rewrite orb_true_r. reflexivity.
    + pose proof (pawn_shape _ _ _ _ _ G Hk Hps) as (_ & Hpr & C). cbv zeta in Hpr, C.
      rewrite Hc in Hpr.
      assert (Pmd : promotion md = None).
      { destruct (isEnPassant md) eqn:Ep.
        - destruct C as [(_ & _ & _ & E & _)|[(_ & _ & _ & _ & _ & _ & E & _)|(_ & _ & _ & C)]];
            [congruence|congruence|].
          destruct C as [(t & _ & _ & E)|(_ & _ & E)]; [congruence|exact E].
        - destruct (promotion md) as [k|] eqn:Pk; [|reflexivity].
          exfalso. apply Er. apply (proj1 (Hpr eq_refl)). discriminate. }
      assert (Co : coercePromotion pc (currentPlayer p) (row md) md None = None).
      { unfold coercePromotion. cbv zeta. rewrite Hk, Pmd, String.eqb_refl.
        rewrite (proj2 (Z.eqb_neq _ _) Er). reflexivity. }
      rewrite Co, Pmd. left. reflexivity.
  - assert (Pmd : promotion md = None) by apply (nonpawn_opts _ _ _ _ _ G Hk Hps).
    rewrite coercePromotion_nonpawn by (destruct (String.eqb_spec (ptype pc) PAWN); easy).
    rewrite Pmd. left. reflexivity.
Qed.

(** X15: in a reachable state, a successful [makeMove] without promotion
    argument clears both castling flags of the mover when a king moves, and
    leaves all castling rights unchanged when the moved piece is neither a
    king nor a rook and no rook is captured. *)
Theorem makeMove_castling_rights_update s sr sc er ec r s' pc :
  reachable s -> getPieceAt (boardState (pos s)) sr sc = Some pc ->
  makeMove s sr sc er ec None = Ret r s' -> success r = true ->
  (ptype pc = KING -> rights_of (castlingRights (pos s')) (pcolor pc) = mkRights false false) /\
  (ptype pc <> KING -> ptype pc <> ROOK -> (forall cp, resCaptured r = Some cp -> ptype cp <> ROOK) ->
   castlingRights (pos s') = castlingRights (pos s)).
Proof.
  intros R G H Hsuc. destruct (reachable_Inv s R) as ((Hwf & _) & _).
  destruct (makeMove_cases s sr sc er ec None) as [E|(pc' & md & Hp & Hc & F & E)];
    rewrite E in H.
  { injection H as <- _. discriminate. }
  rewrite G in Hp. injection Hp as <-.
  apply findMove_spec in F as (Hmd & <- & <-).
  pose proof (valid_shape _ _ _ _ _ G Hmd) as Hs.
  pose proof (executeMove_post s sr sc pc md None Hwf G Hs) as P. cbv zeta in P.
  rewrite H in P. destruct P as (_ & _ & Hcr & _).
  pose proof (executeMove_ledger s sr sc (row md) (col md) pc md None) as L. rewrite H in L.
  destruct L as [Lc _].
  pose proof (moving_type_none _ _ _ _ _ G Hmd) as Mt. cbv zeta in Mt.
  split.
  - intros Hk. destruct Mt as [Mt|[Hpw _]]; [|rewrite Hk in Hpw; discriminate Hpw].
    rewrite Hcr, Mt, <- Hc, updateCapturedRights_own.
    rewrite Hk. unfold updateOwnRights. cbn. apply rights_of_set.
  - intros Hk Hr Hcap. rewrite Hcr, updateCapturedRights_norook.
    + apply updateOwnRights_other; destruct Mt as [->|[_ ->]]; auto; discriminate.
    + intros x Ex. rewrite <- Lc in Ex. exact (Hcap x Ex).
Qed.

Lemma castling_rookEnd_empty p sr sc pc md side :
  getPieceAt (boardState p) sr sc = Some pc ->
  In md (generatePseudoLegalMoves p sr sc) -> isCastling md = Some side ->
  getPieceAt (boardState p) sr (match side with KingSide => 5 | QueenSide => 3 end) = None.
Proof.
  intros G Hin Hc. destruct (pseudo_shape _ _ _ _ _ G Hin) as (_ & _ & Hcast & _).
  destruct (Hcast side Hc) as (Hk & _).
  destruct (proj1 (pseudo_castling p sr sc pc md side G Hk) (conj Hin Hc)) as [Hin' _].
  destruct side.
  - apply (castlingMoves_KS _ _ _ _ _ Hin' Hc).
  - apply (castlingMoves_QS _ _ _ _ _ Hin' Hc).
Qed.

Lemma execBoard_start b sr sc pc md :
  board_wf b -> getPieceAt b sr sc = Some pc -> moveShape b pc sr sc md ->
  (forall side, isCastling md = Some side ->
   getPieceAt b sr (match side with KingSide => 5 | QueenSide => 3 end) = None) ->
  getPieceAt (execBoard b sr sc (row md) (col md) pc md) sr sc = None.
Proof.
  intros Hwf Hp Hs Hre. pose proof (shape_not_start _ _ _ _ _ Hp Hs) as Hne.
  destruct Hs as (W & _ & Hcast & _ & Hep).
  pose proof (within_bounds _ _ W) as [Br Bc].
  pose proof (within_bounds _ _ (getPieceAt_within _ _ _ _ Hp)) as [Bsr Bsc].
  unfold execBoard; cbv zeta.
  destruct (isEnPassant md); destruct (isCastling md) as [side|] eqn:Ec;
    try (destruct (Hcast side eq_refl) as (_ & Er & Ecol); specialize (Hre side eq_refl);
         destruct side; simpl in Ecol);
    destr_goal; rw_get; split_sq; try reflexivity; subst; congruence.
Qed.

Lemma final_board_start b3 (applied : bool) er ec t c sr sc :
  board_wf b3 -> isWithinBoard er ec = true -> (sr =? er) && (sc =? ec) = false ->
  getPieceAt (if applied then setPiece b3 er ec (Some (mkPiece t c true)) else b3) sr sc =
  getPieceAt b3 sr sc.
Proof.
  intros W Wi Hne. destruct applied; [|reflexivity].
  rewrite getPieceAt_setPiece_within by assumption.
  apply andb_false_iff in Hne as [Hne|Hne]; apply Z.eqb_neq in Hne;
    split_sq; reflexivity.
Qed.

(** X16: in a reachable state, a successful [makeMove] moves a piece of
    the current player: the start square is empty afterwards, the
    destination holds a piece of that colour marked as moved, and the turn
    passes to the opponent. *)
Theorem makeMove_moves_piece s sr sc er ec pr r s' pc :
  reachable s -> getPieceAt (boardState (pos s)) sr sc = Some pc ->
  makeMove s sr sc er ec pr = Ret r s' -> success r = true ->
  pcolor pc = currentPlayer (pos s) /\
  currentPlayer (pos s') = opponent (currentPlayer (pos s)) /\
  getPieceAt (boardState (pos s')) sr sc = None /\
  exists t, getPieceAt (boardState (pos s')) er ec = Some (mkPiece t (pcolor pc) true).
Proof.
  intros R G H Hsuc. destruct (reachable_Inv s R) as ((Hwf & _) & _).
  destruct (makeMove_cases s sr sc er ec pr) as [E|(pc' & md & Hp & Hc & F & E)];
    rewrite E in H.
  { injection H as <- _. discriminate. }
  rewrite G in Hp. injection Hp as <-.
  apply findMove_spec in F as (Hmd & <- & <-).
  pose proof (valid_shape _ _ _ _ _ G Hmd) as Hs.
  pose proof (shape_not_start _ _ _ _ _ G Hs) as Hne.
  pose proof (executeMove_post s sr sc pc md pr Hwf G Hs) as P. cbv zeta in P.
  rewrite H in P. destruct P as (Hb & Hcur & _).
  split; [exact Hc|]. split; [exact Hcur|]. rewrite Hb.
  pose proof (execBoard_wf _ sr sc (row md) (col md) pc md Hwf) as W3.
  split.
  - rewrite final_board_start by (exact W3 || apply (proj1 Hs) || exact Hne).
    apply (execBoard_start _ _ _ _ _ Hwf G Hs).
    intros side Hcs. apply (castling_rookEnd_empty _ _ _ _ _ _ G (valid_in_pseudo _ _ _ _ Hmd) Hcs).
  - match goal with |- context [if ?a then _ else _] => destruct a end.
    + rewrite getPieceAt_setPiece_eq by (exact W3 || apply (proj1 Hs)). eauto.
    + rewrite (execBoard_target _ _ _ _ _ Hwf G Hs). eauto.
Qed.


Lemma double_push_epOK p sr sc pc md pr q :
  let b := boardState p in let cur := currentPlayer p in
  let promo := coercePromotion pc cur (row md) md pr in
  let applied := truthyStr (promotion md) || truthyStr promo in
  let final := jsString (orStr promo (promotion md)) in
  let b3 := execBoard b sr sc (row md) (col md) pc md in
  board_wf b -> getPieceAt b sr sc = Some pc -> In md (getValidMovesForPiece p sr sc) ->
  pcolor pc = cur ->
  boardState q =
    (if applied then setPiece b3 (row md) (col md) (Some (mkPiece final (pcolor pc) true))
     else b3) ->
  currentPlayer q = opponent cur ->
  enPassantTargetSquare q = (if isDoublePawnPush md then Some ((sr + row md) / 2, sc) else None) ->
  epOK q.
Proof.
  cbv zeta. intros Hwf G Hmd Hc Hb Hcur Hep r c Hq. rewrite Hq in Hep.
  destruct (isDoublePawnPush md) eqn:Ed; [|discriminate].
  injection Hep as Er Ec. subst r c.
  pose proof (valid_in_pseudo _ _ _ _ Hmd) as Hin.
  pose proof (valid_shape _ _ _ _ _ G Hmd) as Hs.
  destruct (String.eqb_spec (ptype pc) PAWN) as [Hpw|Hnp].
  2:{ destruct (nonpawn_opts _ _ _ _ _ G Hnp Hin) as (Hf & _). congruence. }
  pose proof (pawn_shape _ _ _ _ _ G Hpw Hin) as Sh. cbv zeta in Sh.
  destruct Sh as (Hcs & _ & [(_ & _ & _ & _ & Hf)|[(Er & Ecl & Hst & Hmid & Htg & _ & Hnep & Hpm)|(_ & _ & Hf & _)]]);
    try congruence.
  pose proof (within_bounds _ _ (getPieceAt_within _ _ _ _ G)) as [Bsr Bsc].
  pose proof (execBoard_wf _ sr sc (row md) (col md) pc md Hwf) as W3.
  pose proof (proj1 Hs) as W.
  assert (Hx : (sr + row md) / 2 = sr + (if color_eqb (pcolor pc) WHITE then -1 else 1)).
  { rewrite Er, Hst. destruct (color_eqb (pcolor pc) WHITE); reflexivity. }
  rewrite Hx.
  assert (Hne : (sr + (if color_eqb (pcolor pc) WHITE then -1 else 1) =? row md) && (sc =? col md) = false).
  { rewrite Er. destruct (color_eqb (pcolor pc) WHITE); apply andb_false_iff; left; apply Z.eqb_neq; lia. }
  assert (Hm3 : getPieceAt (execBoard (boardState p) sr sc (row md) (col md) pc md)
                  (sr + (if color_eqb (pcolor pc) WHITE then -1 else 1)) sc = None).
  { unfold execBoard. cbv zeta. rewrite Hnep, Hcs.
    rewrite Ecl, Er, Hst in *.
    destruct (color_eqb (pcolor pc) WHITE); rw_get; split_sq; exact Hmid. }
  assert (Htgt : exists t, getPieceAt (boardState q) (row md) (col md) = Some (mkPiece t (pcolor pc) true)).
  { rewrite Hb.
    match goal with |- context [if ?a then _ else _] => destruct a end.
    + rewrite getPieceAt_setPiece_eq by (exact W3 || exact W). eauto.
    + rewrite (execBoard_target _ _ _ _ _ Hwf G Hs). eauto. }
  split; [lia|]. split.
  { rewrite Hb, final_board_start by (exact W3 || exact W || exact Hne). exact Hm3. }
  rewrite Hcur, <- Hc. rewrite Ecl, Er, Hst in Htgt.
  destruct (pcolor pc) eqn:Cp; simpl in *; subst sr; destruct Htgt as (t & Ht).
  - left. split; [reflexivity|]. split; [reflexivity|].
    exists (mkPiece t WHITE true). split; [exact Ht|reflexivity].
  - right. split; [reflexivity|]. split; [reflexivity|].
    exists (mkPiece t BLACK true). split; [exact Ht|reflexivity].
Qed.

Lemma makeMove_epOK s sr sc er ec pr :
  Inv s -> epOK (pos s) /\ Forall epOK (gameStateHistory s) ->
  match makeMove s sr sc er ec pr with
  | Ret _ s' | Throw s' => epOK (pos s') /\ Forall epOK (gameStateHistory s')
  | OutOfFuel => True
  end.
Proof.
  intros ((Hwf & _) & _) [Hp Hh].
  destruct (makeMove_cases s sr sc er ec pr) as [E|(pc & md & G & Hc & F & E)];
    rewrite E; [auto|].
  apply findMove_spec in F as (Hmd & <- & <-).
  pose proof (valid_shape _ _ _ _ _ G Hmd) as Hs.
  pose proof (executeMove_post s sr sc pc md pr Hwf G Hs) as P.
  pose proof (executeMove_ep s sr sc pc md pr Hwf G Hs) as Pe.
  cbv zeta in P.
  destruct (executeMove s sr sc (row md) (col md) pc md pr); [..|exact I];
    destruct P as (Hb & Hcur & _ & _ & Hh'); rewrite Hh';
    (split; [eapply double_push_epOK; eassumption|constructor; assumption]).
Qed.

Lemma reachable_epOK s :
  reachable s -> epOK (pos s) /\ Forall epOK (gameStateHistory s).
Proof.
  induction 1 as [|s s' R IH Hstep].
  { split; [intros r c H; cbv in H; discriminate H|constructor]. }
  pose proof (reachable_Inv s R) as HI.
  destruct Hstep as [s sr sc er ec pr r s' H|s sr sc er ec pr s' H|s b s' H|s fuel depth m s' H
                    |s fuel depth s' H].
  - pose proof (makeMove_epOK s sr sc er ec pr HI IH) as M. rewrite H in M. exact M.
  - pose proof (makeMove_epOK s sr sc er ec pr HI IH) as M. rewrite H in M. exact M.
  - destruct IH as [Hp Hh]. unfold undoMove in H.
    destruct (gameStateHistory s) as [|q rest] eqn:E; injection H as _ <-; [split; [exact Hp|rewrite E; exact Hh]|].
    apply Forall_cons_iff in Hh as [Hq Hr]. split; [exact Hq|exact Hr].
  - pose proof (getBest_Inv fuel depth s HI) as M. rewrite H in M.
    destruct M as ((Ep & Eh & _) & _). rewrite Ep, Eh. exact IH.
  - pose proof (getBest_Inv fuel depth s HI) as M. rewrite H in M. contradiction.
Qed.

(** X18: in every reachable state, and in every position on its undo
    history, an en-passant target square (r, c) is on the board and empty;
    r is 5 with a white piece on (4, c) when Black is to move, and r is 2
    with a black piece on (3, c) when White is to move. *)
Theorem reachable_enPassant_target s :
  reachable s -> epOK (pos s) /\ Forall epOK (gameStateHistory s).
Proof. exact (reachable_epOK s). Qed.






Lemma cellValue_moved x : cellValue (Some (mkPiece (ptype x) (pcolor x) true)) = cellValue (Some x).
Proof. reflexivity. Qed.




Lemma coord_floor k :
  Qfloor (((inject_Z k - inject_Z BOARD_SIZE / 2 + (1#2)) * inject_Z SQUARE_SIZE) / inject_Z SQUARE_SIZE
          + inject_Z BOARD_SIZE / 2)%Q = k.
Proof.
  assert (E : (((inject_Z k - inject_Z BOARD_SIZE / 2 + (1#2)) * inject_Z SQUARE_SIZE) / inject_Z SQUARE_SIZE
               + inject_Z BOARD_SIZE / 2 == (2 * k + 1) # 2)%Q).
  { unfold BOARD_SIZE, SQUARE_SIZE, Qeq, Qdiv, Qmult, Qplus, Qminus, Qinv, Qopp, inject_Z. simpl. lia. }
  rewrite (Qfloor_comp _ _ E). unfold Qfloor. simpl.
  rewrite Z.add_comm, Z.mul_comm. rewrite Z.div_add by lia. reflexivity.
Qed.

(** X20: for integer row and column, [getCoordsFromPosition] of
    [getPositionFromCoords row col] is [{row, col}] when both lie in 0..7,
    and [null] otherwise. *)
Theorem getCoords_getPosition row col :
  getCoordsFromPosition (getPositionFromCoords row col) =
  if (0 <=? row) && (row <? 8) && (0 <=? col) && (col <? 8) then Some (row, col) else None.
Proof.
  unfold getCoordsFromPosition, getPositionFromCoords. cbn [vx vz].
  rewrite !coord_floor. unfold BOARD_SIZE.
  destruct (Z.leb_spec 0 row), (Z.ltb_spec row 8), (Z.leb_spec 0 col), (Z.ltb_spec col 8),
    (Z.geb_spec row 0), (Z.geb_spec col 0); simpl; try reflexivity; lia.
Qed.

(** X21: in a reachable state, after [selectPiece] on a square,
    [attemptMove] calls [makeMove] exactly when the target is the
    destination of one of the piece's valid moves, and that call always
    succeeds: the "Move failed validation" branch is unreachable. *)
Theorem attemptMove_selected_succeeds s row0 col0 tr tc :
  reachable s ->
  (attemptMove s (selectPiece (pos s) row0 col0) tr tc <> None <->
   exists m, In m (getValidMovesForPiece (pos s) row0 col0) /\ row m = tr /\ col m = tc) /\
  match attemptMove s (selectPiece (pos s) row0 col0) tr tc with
  | Some (Ret r _) => success r = true
  | Some _ => False
  | None => True
  end.
Proof.
  intros R. destruct (reachable_Inv s R) as ((Hwf & _) & _).
  unfold selectPiece.
  destruct (getPieceAt (boardState (pos s)) row0 col0) as [pc|] eqn:G.
  2:{ split; [|exact I]. split; [intros H; contradiction H; reflexivity|].
      intros (m & Hin & _). unfold getValidMovesForPiece in Hin. rewrite G in Hin. contradiction. }
  destruct (color_eqb (pcolor pc) (currentPlayer (pos s))) eqn:Ec.
  2:{ split; [|exact I]. split; [intros H; contradiction H; reflexivity|].
      intros (m & Hin & _). unfold getValidMovesForPiece in Hin. rewrite G, Ec in Hin. contradiction. }
  cbn [attemptMove].
  destruct (existsb _ (getValidMovesForPiece (pos s) row0 col0)) eqn:Ex.
  - apply existsb_exists in Ex as (m & Hin & Hm).
    apply andb_true_iff in Hm as [H1 H2]. apply Z.eqb_eq in H1, H2. subst tr tc.
    split; [split; [intros _; eauto|discriminate]|].
    rewrite G.
    match goal with |- context [makeMove s row0 col0 (row m) (col m) ?pr] =>
      assert (Hk : kindOK pr) end.
    { intros k Hk. destruct (_ && _); [injection Hk as <-; left; reflexivity|discriminate]. }
    destruct (valid_move_succeeds_kind s row0 col0 m _ Hwf Hk Hin) as (r & s' & E & Hs).
    rewrite E. exact Hs.
  - split; [|exact I]. split; [intros H; contradiction H; reflexivity|].
    intros (m & Hin & <- & <-).
    assert (Ht : existsb (fun m0 => (row m0 =? row m) && (col m0 =? col m))
                   (getValidMovesForPiece (pos s) row0 col0) = true).
    { apply existsb_exists. exists m. rewrite !Z.eqb_refl. auto. }
    congruence.
Qed.

(** ** Witnesses of the further properties *)
Lemma getBestMoveMinimax_none_iff_witness :
  reachable foolsMate /\
  ((getBestMoveMinimax 2 1 foolsMate = Ret None foolsMate <->
    getAllLegalMovesForCurrentPlayer (pos foolsMate) = []) /\
   (forall s', getBestMoveMinimax 2 1 foolsMate = Ret None s' ->
    s' = foolsMate /\ (isCheckmate (gameStatus foolsMate) = true \/
                       isStalemate (gameStatus foolsMate) = true))).
Proof.
  assert (R : reachable foolsMate) by (apply reachable_playMoves, reach_init).
  split; [exact R|]. exact (getBestMoveMinimax_none_iff 2 1 foolsMate R).
Defined.


Lemma knight_moves_exact_witness :
  getPieceAt (boardState (pos initializeGame)) 7 6 = Some (mkPiece KNIGHT WHITE false) /\
  ptype (mkPiece KNIGHT WHITE false) = KNIGHT /\
  (In (mkMove 5 5 false None false false None) (generatePseudoLegalMoves (pos initializeGame) 7 6) <->
   ((Z.abs (5 - 7) = 1 /\ Z.abs (5 - 6) = 2) \/ (Z.abs (5 - 7) = 2 /\ Z.abs (5 - 6) = 1)) /\
   isWithinBoard 5 5 = true /\
   (forall t, getPieceAt (boardState (pos initializeGame)) 5 5 = Some t ->
              pcolor t <> pcolor (mkPiece KNIGHT WHITE false)) /\
   mkMove 5 5 false None false false None =
   mkMove 5 5 (isPresent (getPieceAt (boardState (pos initializeGame)) 5 5)) None false false None).
Proof.
  assert (G : getPieceAt (boardState (pos initializeGame)) 7 6 = Some (mkPiece KNIGHT WHITE false))
    by (vm_compute; reflexivity).
  split; [exact G|]. split; [reflexivity|].
  exact (knight_moves_exact _ 7 6 _ (mkMove 5 5 false None false false None) G eq_refl).
Defined.

(** After 1.e4 the white king can step to e2. *)
Lemma king_step_moves_exact_witness :
  getPieceAt (boardState (pos e2e4_state)) 7 4 = Some (mkPiece KING WHITE false) /\
  ptype (mkPiece KING WHITE false) = KING /\
  (In (mkMove 6 4 false None false false None) (generatePseudoLegalMoves (pos e2e4_state) 7 4) /\
   isCastling (mkMove 6 4 false None false false None) = None <->
   Z.abs (6 - 7) <= 1 /\ Z.abs (4 - 4) <= 1 /\ (6, 4) <> (7, 4) /\
   isWithinBoard 6 4 = true /\
   (forall t, getPieceAt (boardState (pos e2e4_state)) 6 4 = Some t ->
              pcolor t <> pcolor (mkPiece KING WHITE false)) /\
   mkMove 6 4 false None false false None =
   mkMove 6 4 (isPresent (getPieceAt (boardState (pos e2e4_state)) 6 4)) None false false None).
Proof.
  assert (G : getPieceAt (boardState (pos e2e4_state)) 7 4 = Some (mkPiece KING WHITE false))
    by (vm_compute; reflexivity).
  split; [exact G|]. split; [reflexivity|].
  exact (king_step_moves_exact _ 7 4 _ (mkMove 6 4 false None false false None) G eq_refl).
Defined.

Lemma slider_moves_exact_witness :
  getPieceAt (boardState (pos e2e4_state)) 7 5 = Some (mkPiece BISHOP WHITE false) /\
  (In (mkMove 4 2 false None false false None) (generatePseudoLegalMoves (pos e2e4_state) 7 5) <->
   exists dr dc k, In (dr, dc) bishopDirs /\ 1 <= k /\ 4 = 7 + k * dr /\ 2 = 5 + k * dc /\
     isWithinBoard 4 2 = true /\
     (forall j, 1 <= j < k -> getPieceAt (boardState (pos e2e4_state)) (7 + j * dr) (5 + j * dc) = None) /\
     (forall t, getPieceAt (boardState (pos e2e4_state)) 4 2 = Some t ->
                pcolor t <> pcolor (mkPiece BISHOP WHITE false)) /\
     mkMove 4 2 false None false false None =
     mkMove 4 2 (isPresent (getPieceAt (boardState (pos e2e4_state)) 4 2)) None false false None).
Proof.
  assert (G : getPieceAt (boardState (pos e2e4_state)) 7 5 = Some (mkPiece BISHOP WHITE false))
    by (vm_compute; reflexivity).
  split; [exact G|].
  exact (slider_moves_exact _ 7 5 _ bishopDirs (mkMove 4 2 false None false false None) G
           (or_intror (or_introl (conj eq_refl eq_refl)))).
Defined.

Lemma pawn_moves_shape_witness :
  getPieceAt (boardState (pos initializeGame)) 6 4 = Some (mkPiece PAWN WHITE false) /\
  In (mkMove 4 4 false None true false None) (generatePseudoLegalMoves (pos initializeGame) 6 4) /\
  (isCastling (mkMove 4 4 false None true false None) = None /\
   (false = false -> (None <> @None string <-> 4 = 0)) /\
   ((4 = 6 + -1 /\ 4 = 4 /\ getPieceAt (boardState (pos initializeGame)) 4 4 = None /\
     false = false /\ true = false) \/
    (4 = 6 + 2 * -1 /\ 4 = 4 /\ 6 = 6 /\
     getPieceAt (boardState (pos initializeGame)) (6 + -1) 4 = None /\
     getPieceAt (boardState (pos initializeGame)) 4 4 = None /\
     true = true /\ false = false /\ @None string = None) \/
    (4 = 6 + -1 /\ Z.abs (4 - 4) = 1 /\ true = false /\
     ((exists t, getPieceAt (boardState (pos initializeGame)) 4 4 = Some t /\
                 pcolor t = opponent WHITE /\ false = false) \/
      (false = true /\ enPassantTargetSquare (pos initializeGame) = Some (4, 4) /\
       @None string = None))))).
Proof.
  assert (G : getPieceAt (boardState (pos initializeGame)) 6 4 = Some (mkPiece PAWN WHITE false))
    by (vm_compute; reflexivity).
  assert (I : In (mkMove 4 4 false None true false None) (generatePseudoLegalMoves (pos initializeGame) 6 4))
    by (vm_compute; repeat first [left; reflexivity | right]).
  split; [exact G|]. split; [exact I|].
  exact (pawn_moves_shape _ 6 4 _ _ G eq_refl I).
Defined.

Lemma pseudo_isCapture_occupied_witness :
  In (mkMove 4 4 false None true false None) (generatePseudoLegalMoves (pos initializeGame) 6 4) /\
  false = isPresent (getPieceAt (boardState (pos initializeGame)) 4 4).
Proof.
  assert (I : In (mkMove 4 4 false None true false None) (generatePseudoLegalMoves (pos initializeGame) 6 4))
    by (vm_compute; repeat first [left; reflexivity | right]).
  split; [exact I|].
  exact (pseudo_isCapture_occupied _ 6 4 _ I).
Defined.

Lemma makeMove_sets_enPassant_witness :
  board_wf (boardState (pos initializeGame)) /\
  exists r s', makeMove initializeGame 6 4 4 4 None = Ret r s' /\ success r = true /\
  enPassantTargetSquare (pos s') =
    match getPieceAt (boardState (pos initializeGame)) 6 4 with
    | Some pc => if String.eqb (ptype pc) PAWN && (Z.abs (4 - 6) =? 2)
                 then Some ((6 + 4) / 2, 4) else None
    | None => None
    end.
Proof.
  assert (W : board_wf (boardState (pos initializeGame)))
    by (split; vm_compute; [reflexivity|repeat constructor]).
  split; [exact W|].
  destruct (makeMove initializeGame 6 4 4 4 None) as [r s'| |] eqn:E;
    [|vm_compute in E; discriminate E|vm_compute in E; discriminate E].
  assert (Hs : success r = true) by (vm_compute in E; injection E as <- _; reflexivity).
  exists r, s'. split; [reflexivity|]. split; [exact Hs|].
  exact (makeMove_sets_enPassant _ 6 4 4 4 None r s' W E Hs).
Defined.

(** White castles on the king side in the Italian game. *)
Lemma makeMove_castling_rights_update_witness :
  reachable italianGame /\
  getPieceAt (boardState (pos italianGame)) 7 4 = Some (mkPiece KING WHITE false) /\
  exists r s', makeMove italianGame 7 4 7 6 None = Ret r s' /\ success r = true /\
  (ptype (mkPiece KING WHITE false) = KING ->
   rights_of (castlingRights (pos s')) WHITE = mkRights false false) /\
  (ptype (mkPiece KING WHITE false) <> KING -> ptype (mkPiece KING WHITE false) <> ROOK ->
   (forall cp, resCaptured r = Some cp -> ptype cp <> ROOK) ->
   castlingRights (pos s') = castlingRights (pos italianGame)).
Proof.
  assert (R : reachable italianGame) by (apply reachable_playMoves, reach_init).
  assert (G : getPieceAt (boardState (pos italianGame)) 7 4 = Some (mkPiece KING WHITE false))
    by (vm_compute; reflexivity).
  split; [exact R|]. split; [exact G|].
  destruct (makeMove italianGame 7 4 7 6 None) as [r s'| |] eqn:E;
    [|vm_compute in E; discriminate E|vm_compute in E; discriminate E].
  assert (Hs : success r = true) by (vm_compute in E; injection E as <- _; reflexivity).
  exists r, s'. split; [reflexivity|]. split; [exact Hs|].
  exact (makeMove_castling_rights_update _ 7 4 7 6 r s' _ R G E Hs).
Defined.

Lemma makeMove_moves_piece_witness :
  reachable initializeGame /\
  getPieceAt (boardState (pos initializeGame)) 6 4 = Some (mkPiece PAWN WHITE false) /\
  exists r s', makeMove initializeGame 6 4 4 4 None = Ret r s' /\ success r = true /\
  (WHITE = currentPlayer (pos initializeGame) /\
   currentPlayer (pos s') = opponent (currentPlayer (pos initializeGame)) /\
   getPieceAt (boardState (pos s')) 6 4 = None /\
   exists t, getPieceAt (boardState (pos s')) 4 4 = Some (mkPiece t WHITE true)).
Proof.
  assert (R : reachable initializeGame) by (apply reach_init).
  assert (G : getPieceAt (boardState (pos initializeGame)) 6 4 = Some (mkPiece PAWN WHITE false))
    by (vm_compute; reflexivity).
  split; [exact R|]. split; [exact G|].
  destruct (makeMove initializeGame 6 4 4 4 None) as [r s'| |] eqn:E;
    [|vm_compute in E; discriminate E|vm_compute in E; discriminate E].
  assert (Hs : success r = true) by (vm_compute in E; injection E as <- _; reflexivity).
  exists r, s'. split; [reflexivity|]. split; [exact Hs|].
  exact (makeMove_moves_piece _ 6 4 4 4 None r s' _ R G E Hs).
Defined.


Lemma reachable_enPassant_target_witness :
  reachable (playMoves initializeGame [(6, 4, 4, 4)]) /\
  epOK (pos (playMoves initializeGame [(6, 4, 4, 4)])) /\
  Forall epOK (gameStateHistory (playMoves initializeGame [(6, 4, 4, 4)])).
Proof.
  assert (R : reachable (playMoves initializeGame [(6, 4, 4, 4)]))
    by (apply reachable_playMoves, reach_init).
  split; [exact R|]. exact (reachable_enPassant_target _ R).
Defined.


Lemma attemptMove_selected_succeeds_witness :
  reachable initializeGame /\
  (attemptMove initializeGame (selectPiece (pos initializeGame) 6 4) 4 4 <> None <->
   exists m, In m (getValidMovesForPiece (pos initializeGame) 6 4) /\ row m = 4 /\ col m = 4) /\
  match attemptMove initializeGame (selectPiece (pos initializeGame) 6 4) 4 4 with
  | Some (Ret r _) => success r = true
  | Some _ => False
  | None => True
  end.
Proof.
  assert (R : reachable initializeGame) by (apply reach_init).
  split; [exact R|]. exact (attemptMove_selected_succeeds _ 6 4 4 4 R).
Defined.
